(** * HousingPricePrediction: the notebook's feature engineering, embedded.

    Source: [notebooks/housing_price_predictor_model.ipynb].  Each code cell
    of the notebook is translated to a function on a small model of the
    pandas / re / scikit-learn objects it manipulates.

    Conventions of the embedding.
    - A Python [str] is a list of Unicode code points ([N]).  String
      literals of the notebook are written [u "..."], the UTF-8 decoding of
      the literal as it stands in the source.
    - The character tables cover the Latin blocks, which contain the
      Polish alphabet: [\w] and the digits up to U+024F, the case mapping
      up to U+017F.  Code points beyond are caseless non-word characters
      here.  The whitespace table is complete.
    - A float is [fval]: a finite value held as an exact rational, the two
      infinities, or NaN.  Rounding to binary64, overflow, underflow and the
      sign of zero are not represented.
    - Code that can raise returns [result]; a raise aborts the notebook run. *)

From Stdlib Require Import List NArith ZArith QArith Qround Bool String Ascii Lia.
From Stdlib Require Import Reals Qreals Sorted Lqa.
Import ListNotations.

Close Scope Q_scope.

Set Implicit Arguments.

(** ** Exceptions *)

Inductive exn : Type :=
| ValueError
| KeyError
| TypeError
| NotFittedError
| ReError.

Inductive result (A : Type) : Type :=
| Ok (a : A)
| Raise (e : exn).

Arguments Ok {A} a.
Arguments Raise {A} e.

Definition bind {A B : Type} (r : result A) (k : A -> result B) : result B :=
  match r with
  | Ok a => k a
  | Raise e => Raise e
  end.

Notation "x <- r ;; k" := (bind r (fun x => k))
  (at level 61, r at next level, right associativity).

Fixpoint mapM {A B : Type} (f : A -> result B) (l : list A) : result (list B) :=
  match l with
  | [] => Ok []
  | a :: l' => b <- f a ;; bs <- mapM f l' ;; Ok (b :: bs)
  end.

(** ** Python strings *)

Abbreviation cp := N (only parsing).
Abbreviation str := (list N) (only parsing).

Open Scope N_scope.

(** UTF-8 decoding of a byte sequence (well-formed input assumed; a
    truncated sequence is cut off). *)
Fixpoint utf8 (bs : list N) : str :=
  match bs with
  | [] => []
  | b :: r =>
      if b <? 128 then b :: utf8 r
      else if b <? 224 then
        match r with
        | b1 :: r1 => ((b - 192) * 64 + (b1 - 128)) :: utf8 r1
        | [] => []
        end
      else if b <? 240 then
        match r with
        | b1 :: b2 :: r2 =>
            ((b - 224) * 4096 + (b1 - 128) * 64 + (b2 - 128)) :: utf8 r2
        | _ => []
        end
      else
        match r with
        | b1 :: b2 :: b3 :: r3 =>
            ((b - 240) * 262144 + (b1 - 128) * 4096 + (b2 - 128) * 64 + (b3 - 128))
              :: utf8 r3
        | _ => []
        end
  end.

Definition u (s : string) : str :=
  utf8 (List.map N_of_ascii (list_ascii_of_string s)).

Definition str_eqb (a b : str) : bool :=
  if list_eq_dec N.eq_dec a b then true else false.

Definition in_range (lo hi c : cp) : bool := (lo <=? c) && (c <=? hi).

Arguments in_range (lo hi c)%_N.

(** [Py_UNICODE_ISSPACE]: what [str.strip], [float] and the regex class
    [\s] treat as whitespace. *)
Definition is_space (c : cp) : bool :=
  in_range 9 13 c || in_range 28 32 c || (c =? 133) || (c =? 160)
  || (c =? 5760) || in_range 8192 8202 c || (c =? 8232) || (c =? 8233)
  || (c =? 8239) || (c =? 8287) || (c =? 12288).

Definition is_digit (c : cp) : bool := in_range 48 57 c.

(** [str.isalnum] restricted to U+0000..U+024F. *)
Definition is_alnum (c : cp) : bool :=
  is_digit c || in_range 65 90 c || in_range 97 122 c
  || (c =? 170) || (c =? 178) || (c =? 179) || (c =? 181)
  || (c =? 185) || (c =? 186) || in_range 188 190 c
  || in_range 192 214 c || in_range 216 246 c || in_range 248 591 c.

(** The regex class [\w] for a str pattern: alphanumeric or underscore. *)
Definition is_word (c : cp) : bool := is_alnum c || (c =? 95).

(** Simple lower-case mapping, U+0000..U+017F. *)
Definition to_lower (c : cp) : cp :=
  if in_range 65 90 c then c + 32
  else if in_range 192 222 c && negb (c =? 215) then c + 32
  else if c =? 304 then 105
  else if c =? 376 then 255
  else if (in_range 256 303 c || in_range 306 311 c || in_range 330 375 c)
          && N.even c then c + 1
  else if (in_range 313 328 c || in_range 377 382 c) && N.odd c then c + 1
  else c.

(** [str.lower] on the modelled range (U+0130, whose full lower-casing is
    two code points, is mapped to its simple lower case). *)
Definition lower (s : str) : str := List.map to_lower s.

(** Extra equivalences of the regex engine under IGNORECASE: characters
    with different lower cases that share an upper case. *)
Definition case_fixes (lo : cp) : list cp :=
  if lo =? 105 then [305]
  else if lo =? 305 then [105]
  else if lo =? 115 then [383]
  else if lo =? 383 then [115]
  else [].

(** A pattern character [p] matches the subject character [x] under
    IGNORECASE. *)
Definition ci_match (p x : cp) : bool :=
  let lo := to_lower p in
  let lx := to_lower x in
  (lx =? lo) || existsb (N.eqb lx) (case_fixes lo).

Close Scope N_scope.

(** ** Regular expressions: the fragment the notebook uses

    Literal characters, [.], the classes [\w] and [\s], the greedy
    quantifiers [+] and [*] on a single-character atom, capture groups and
    the anchor [$]. *)

Module Re.

Inductive atom : Type :=
| ALit (c : cp)
| ADot
| AWord
| ASpace.

Inductive item : Type :=
| One (a : atom)
| Many0 (a : atom)
| Many1 (a : atom)
| Open (g : nat)
| Close (g : nat)
| Eos.

Definition pattern := list item.

(** *** Compiling the pattern text *)

Definition is_meta (c : cp) : bool :=
  existsb (N.eqb c) (u "\^$.|?*+()[]{}").

Definition quantify (a : atom) (rest : str) : item * str :=
  match rest with
  | q :: rest' =>
      if (q =? 43)%N then (Many1 a, rest')
      else if (q =? 42)%N then (Many0 a, rest')
      else (One a, rest)
  | [] => (One a, rest)
  end.

(** [parse fuel s next stack]: [next] is the number of the next group to be
    opened, [stack] the groups that are open.  [None] when the text leaves
    the fragment. *)
Fixpoint parse (fuel : nat) (s : str) (next : nat) (stack : list nat)
  : option pattern :=
  match fuel with
  | O => None
  | S fuel' =>
      match s with
      | [] => match stack with [] => Some [] | _ => None end
      | c :: rest =>
          if (c =? 40)%N then
            option_map (cons (Open next)) (parse fuel' rest (S next) (next :: stack))
          else if (c =? 41)%N then
            match stack with
            | g :: stack' => option_map (cons (Close g)) (parse fuel' rest next stack')
            | [] => None
            end
          else if (c =? 36)%N then
            option_map (cons Eos) (parse fuel' rest next stack)
          else if (c =? 92)%N then
            match rest with
            | e :: rest' =>
                let a := if (e =? 119)%N then Some AWord
                         else if (e =? 115)%N then Some ASpace
                         else if is_meta e then Some (ALit e)
                         else None in
                match a with
                | Some a =>
                    let (i, rest'') := quantify a rest' in
                    option_map (cons i) (parse fuel' rest'' next stack)
                | None => None
                end
            | [] => None
            end
          else if (c =? 46)%N then
            let (i, rest') := quantify ADot rest in
            option_map (cons i) (parse fuel' rest' next stack)
          else if is_meta c then None
          else
            let (i, rest') := quantify (ALit c) rest in
            option_map (cons i) (parse fuel' rest' next stack)
      end
  end.

Definition compile (pat : str) : option pattern :=
  parse (S (List.length pat)) pat 1 [].

(** *** Matching *)

(** [ic] is the IGNORECASE flag. *)
Definition atom_ok (ic : bool) (a : atom) (x : cp) : bool :=
  match a with
  | ALit c => if ic then ci_match c x else (x =? c)%N
  | ADot => negb (x =? 10)%N
  | AWord => is_word x
  | ASpace => is_space x
  end.

(** Spans of the closed groups, and start positions of the open ones. *)
Record mstate : Type := MState {
  opened : list (nat * nat);
  closed : list (nat * (nat * nat))
}.

Definition mstate0 : mstate := MState [] [].

Fixpoint assoc {A : Type} (g : nat) (l : list (nat * A)) : option A :=
  match l with
  | [] => None
  | (k, v) :: l' => if Nat.eqb k g then Some v else assoc g l'
  end.

(** Greedy repetition with backtracking: take as many characters as
    possible, give them back one at a time until the continuation [k]
    succeeds. *)
Fixpoint greedy (ok : cp -> bool) (k : str -> nat -> option mstate)
  (s : str) (pos : nat) : option mstate :=
  match s with
  | x :: s' =>
      if ok x then
        match greedy ok k s' (S pos) with
        | Some r => Some r
        | None => k s pos
        end
      else k s pos
  | [] => k s pos
  end.

(** [$]: at the end of the string, or just before a final newline. *)
Definition at_end (s : str) : bool :=
  match s with
  | [] => true
  | [c] => (c =? 10)%N
  | _ => false
  end.

Fixpoint mt (ic : bool) (p : pattern) (s : str) (pos : nat) (st : mstate)
  {struct p} : option mstate :=
  match p with
  | [] => Some st
  | One a :: p' =>
      match s with
      | x :: s' => if atom_ok ic a x then mt ic p' s' (S pos) st else None
      | [] => None
      end
  | Many0 a :: p' =>
      greedy (atom_ok ic a) (fun s1 pos1 => mt ic p' s1 pos1 st) s pos
  | Many1 a :: p' =>
      match s with
      | x :: s' =>
          if atom_ok ic a x
          then greedy (atom_ok ic a) (fun s1 pos1 => mt ic p' s1 pos1 st) s' (S pos)
          else None
      | [] => None
      end
  | Open g :: p' =>
      mt ic p' s pos (MState ((g, pos) :: opened st) (closed st))
  | Close g :: p' =>
      match assoc g (opened st) with
      | Some start => mt ic p' s pos (MState (opened st) ((g, (start, pos)) :: closed st))
      | None => None
      end
  | Eos :: p' => if at_end s then mt ic p' s pos st else None
  end.

(** [re.search]: the first start position, from the left, at which the
    pattern matches. *)
Fixpoint search_from (ic : bool) (p : pattern) (s : str) (pos : nat)
  : option mstate :=
  match mt ic p s pos mstate0 with
  | Some r => Some r
  | None =>
      match s with
      | [] => None
      | _ :: s' => search_from ic p s' (S pos)
      end
  end.

Definition search (ic : bool) (p : pattern) (s : str) : option mstate :=
  search_from ic p s 0.

Definition slice (s : str) (a b : nat) : str := firstn (b - a) (skipn a s).

(** Text of group [g] of a match on [s]. *)
Definition group (s : str) (m : mstate) (g : nat) : option str :=
  match assoc g (closed m) with
  | Some (a, b) => Some (slice s a b)
  | None => None
  end.

End Re.

(** *** Substitution ([re.sub], all non-overlapping matches from the left) *)

Module ReSub.
Import Re.

(** End position of a match of [p] starting at [pos]. *)
Definition match_end (ic : bool) (p : pattern) (s : str) (pos : nat) : option nat :=
  match mt ic (Open 0 :: p ++ [Close 0]) s pos mstate0 with
  | Some m => option_map snd (assoc 0 (closed m))
  | None => None
  end.

(** [skip] counts the characters of the current match still to be dropped. *)
Fixpoint sub_from (ic : bool) (p : pattern) (repl : str) (s : str)
  (pos skip : nat) : str :=
  match s with
  | [] =>
      match skip, match_end ic p [] pos with
      | O, Some _ => repl
      | _, _ => []
      end
  | x :: s' =>
      match skip with
      | S k => sub_from ic p repl s' (S pos) k
      | O =>
          match match_end ic p s pos with
          | Some e =>
              if Nat.ltb pos e
              then repl ++ sub_from ic p repl s' (S pos) (e - pos - 1)
              else repl ++ x :: sub_from ic p repl s' (S pos) 0
          | None => x :: sub_from ic p repl s' (S pos) 0
          end
      end
  end.

Definition sub (p : pattern) (repl s : str) : str := sub_from false p repl s 0 0.

End ReSub.

(** ** Floats *)

Inductive fval : Type :=
| Fin (q : Q)
| PInf
| NInf
| NaN.

Definition Qltb (x y : Q) : bool := negb (Qle_bool y x).

Definition isna (x : fval) : bool :=
  match x with NaN => true | _ => false end.

Definition fneg (x : fval) : fval :=
  match x with
  | Fin q => Fin (Qred (- q))
  | PInf => NInf
  | NInf => PInf
  | NaN => NaN
  end.

Definition fadd (x y : fval) : fval :=
  match x, y with
  | NaN, _ | _, NaN => NaN
  | Fin a, Fin b => Fin (Qred (a + b))
  | PInf, NInf | NInf, PInf => NaN
  | PInf, _ | _, PInf => PInf
  | NInf, _ | _, NInf => NInf
  end.

Definition fsub (x y : fval) : fval := fadd x (fneg y).

Definition fmul (x y : fval) : fval :=
  match x, y with
  | NaN, _ | _, NaN => NaN
  | Fin a, Fin b => Fin (Qred (a * b))
  | Fin a, PInf | PInf, Fin a =>
      if Qltb 0 a then PInf else if Qltb a 0 then NInf else NaN
  | Fin a, NInf | NInf, Fin a =>
      if Qltb 0 a then NInf else if Qltb a 0 then PInf else NaN
  | PInf, PInf | NInf, NInf => PInf
  | PInf, NInf | NInf, PInf => NInf
  end.

(** Division as numpy does it: no exception, a zero divisor gives an
    infinity or NaN.  (With the sign of zero not represented, a zero
    divisor counts as +0.0.) *)
Definition fdiv (x y : fval) : fval :=
  match x, y with
  | NaN, _ | _, NaN => NaN
  | Fin a, Fin b =>
      if Qeq_bool b 0
      then if Qltb 0 a then PInf else if Qltb a 0 then NInf else NaN
      else Fin (Qred (a / b))
  | Fin _, _ => Fin 0
  | PInf, Fin b => if Qltb b 0 then NInf else PInf
  | NInf, Fin b => if Qltb b 0 then PInf else NInf
  | _, _ => NaN
  end.

(** [x < y]; false as soon as one side is NaN. *)
Definition flt (x y : fval) : bool :=
  match x, y with
  | NaN, _ | _, NaN => false
  | Fin a, Fin b => Qltb a b
  | NInf, NInf | PInf, _ | _, NInf => false
  | NInf, _ | _, PInf => true
  end.

Definition fgt (x y : fval) : bool := flt y x.

Definition fle (x y : fval) : bool :=
  match x, y with
  | NaN, _ | _, NaN => false
  | _, _ => negb (flt y x)
  end.

(** *** [float(s)] *)

Definition is_float_space (c : cp) : bool :=
  in_range 9 13 c || (c =? 32)%N || ((128 <=? c)%N && is_space c).

Fixpoint lstrip (s : str) : str :=
  match s with
  | c :: s' => if is_float_space c then lstrip s' else s
  | [] => []
  end.

Definition strip (s : str) : str := rev (lstrip (rev (lstrip s))).

(** Underscores may only stand between two digits; they are then removed. *)
Fixpoint underscores (prev : cp) (s : str) : option str :=
  match s with
  | [] => if (prev =? 95)%N then None else Some []
  | c :: s' =>
      if (c =? 95)%N then
        if is_digit prev then underscores c s' else None
      else if (prev =? 95)%N && negb (is_digit c) then None
      else option_map (cons c) (underscores c s')
  end.

Fixpoint span_digits (s : str) : str * str :=
  match s with
  | c :: s' =>
      if is_digit c then let (d, r) := span_digits s' in (c :: d, r) else ([], s)
  | [] => ([], [])
  end.

Definition digits_val (ds : str) : Z :=
  fold_left (fun acc c => (10 * acc + Z.of_N (c - 48))%Z) ds 0%Z.

Definition take_sign (s : str) : Z * str :=
  match s with
  | c :: s' =>
      if (c =? 45)%N then ((-1)%Z, s')
      else if (c =? 43)%N then (1%Z, s')
      else (1%Z, s)
  | [] => (1%Z, s)
  end.

Definition ascii_lower (c : cp) : cp :=
  if in_range 65 90 c then (c + 32)%N else c.

(** [m * 10^e] as a rational. *)
Definition scale10 (m e : Z) : Q :=
  if (0 <=? e)%Z then inject_Z (m * 10 ^ e)
  else Qred (m # Z.to_pos (10 ^ (- e))).

Definition take_exponent (s : str) : Z * str :=
  match s with
  | c :: r =>
      if (c =? 101)%N || (c =? 69)%N then
        let (es, r1) := take_sign r in
        let (ed, r2) := span_digits r1 in
        match ed with
        | [] => (0%Z, s)
        | _ => ((es * digits_val ed)%Z, r2)
        end
      else (0%Z, s)
  | [] => (0%Z, s)
  end.

Definition parse_decimal (sgn : Z) (s : str) : option fval :=
  let (ip, s2) := span_digits s in
  let (fp, s3) := match s2 with
                  | c :: r => if (c =? 46)%N then span_digits r else ([], s2)
                  | [] => ([], s2)
                  end in
  match ip ++ fp with
  | [] => None
  | ds =>
      let (e, s4) := take_exponent s3 in
      match s4 with
      | [] => Some (Fin (Qred (scale10 (sgn * digits_val ds)
                                        (e - Z.of_nat (List.length fp)))))
      | _ => None
      end
  end.

(** [None] is Python's [ValueError: could not convert string to float]. *)
Definition float_of_str (s : str) : option fval :=
  match underscores 0%N s with
  | None => None
  | Some s0 =>
      let (sgn, body) := take_sign (strip s0) in
      let low := List.map ascii_lower body in
      if str_eqb low (u "inf") || str_eqb low (u "infinity")
      then Some (if (sgn <? 0)%Z then NInf else PInf)
      else if str_eqb low (u "nan") then Some NaN
      else parse_decimal sgn body
  end.

(** *** [numpy.log] and [numpy.exp]

    Logarithms are irrational, so the log-price lives in the reals extended
    with the IEEE special values.  Neither function raises: out of its
    domain [numpy.log] only warns and returns [-inf] or NaN. *)

Inductive lval : Type :=
| LFin (r : R)
| LPInf
| LNInf
| LNaN.

Definition np_log (x : fval) : lval :=
  match x with
  | Fin q =>
      if Qltb 0 q then LFin (ln (Q2R q))
      else if Qeq_bool q 0 then LNInf
      else LNaN
  | PInf => LPInf
  | NInf => LNaN
  | NaN => LNaN
  end.

Definition np_exp (y : lval) : lval :=
  match y with
  | LFin r => LFin (exp r)
  | LPInf => LPInf
  | LNInf => LFin 0%R
  | LNaN => LNaN
  end.

(** The price read back in the reals. *)
Definition lval_of (x : fval) : lval :=
  match x with
  | Fin q => LFin (Q2R q)
  | PInf => LPInf
  | NInf => LNInf
  | NaN => LNaN
  end.

(** ** pandas: Series and DataFrame

    A cell of an object column is a str or NaN; a numeric column holds
    floats.  Columns read from the CSV as text are taken to have object
    dtype (the [.str] accessor's dtype check is not modelled). *)

Module Pd.

Inductive cell : Type :=
| Text (s : str)
| Num (x : fval)
| Log (y : lval).

Definition NA : cell := Num NaN.

Definition Series := list cell.

(** Columns in order, each with its name; all columns have the same
    length. *)
Definition DataFrame := list (str * Series).

Definition columns (df : DataFrame) : list str := List.map fst df.

(** [df[name]] *)
Fixpoint getcol (df : DataFrame) (name : str) : result Series :=
  match df with
  | [] => Raise KeyError
  | (n, c) :: df' => if str_eqb n name then Ok c else getcol df' name
  end.

(** [df[name] = values]: overwrite in place, or append a new column. *)
Fixpoint setcol (df : DataFrame) (name : str) (v : Series) : DataFrame :=
  match df with
  | [] => [(name, v)]
  | (n, c) :: df' =>
      if str_eqb n name then (n, v) :: df' else (n, c) :: setcol df' name v
  end.

Definition has_column (df : DataFrame) (name : str) : bool :=
  existsb (str_eqb name) (columns df).

(** [df.drop(columns=names)]: KeyError when a name is absent. *)
Definition drop (names : list str) (df : DataFrame) : result DataFrame :=
  if forallb (has_column df) names
  then Ok (filter (fun nc => negb (existsb (str_eqb (fst nc)) names)) df)
  else Raise KeyError.

(** Selecting with a boolean mask. *)
Fixpoint select {A : Type} (mask : list bool) (l : list A) : list A :=
  match mask, l with
  | b :: mask', x :: l' => if b then x :: select mask' l' else select mask' l'
  | _, _ => []
  end.

(** [df[mask]] *)
Definition loc (mask : list bool) (df : DataFrame) : DataFrame :=
  List.map (fun nc => (fst nc, select mask (snd nc))) df.

Definition cell_isna (c : cell) : bool :=
  match c with
  | Num NaN => true
  | Log LNaN => true
  | _ => false
  end.

(** [Series.replace(value, np.nan)] *)
Definition replace_value (value : str) (s : Series) : Series :=
  List.map (fun c => match c with
                     | Text t => if str_eqb t value then NA else c
                     | _ => c
                     end) s.

(** [Series.str.replace(pat, repl, regex=True)]; a cell that is not a str
    gives NaN. *)
Definition str_replace (pat repl : str) (s : Series) : result Series :=
  match Re.compile pat with
  | None => Raise ReError
  | Some p =>
      Ok (List.map (fun c => match c with
                             | Text t => Text (ReSub.sub p repl t)
                             | _ => NA
                             end) s)
  end.

(** [Series.astype(float)]: [float] on every str cell; one failure raises
    for the whole column. *)
Definition astype_float_cell (c : cell) : result cell :=
  match c with
  | Text t =>
      match float_of_str t with
      | Some x => Ok (Num x)
      | None => Raise ValueError
      end
  | Num x => Ok (Num x)
  | Log _ => Raise TypeError
  end.

Definition astype_float (s : Series) : result Series := mapM astype_float_cell s.

Definition of_bool (b : bool) : cell := Num (Fin (if b then 1 else 0)).

(** [Series.isna().astype(int)] *)
Definition isna_int (s : Series) : Series :=
  List.map (fun c => of_bool (cell_isna c)) s.

(** [Series.str.extract(pat)[i]]: the text of group [i+1] of the first
    match, NaN without a match. *)
Definition str_extract (pat : str) (i : nat) (s : Series) : result Series :=
  match Re.compile pat with
  | None => Raise ReError
  | Some p =>
      Ok (List.map (fun c => match c with
                             | Text t =>
                                 match Re.search false p t with
                                 | Some m =>
                                     match Re.group t m (S i) with
                                     | Some g => Text g
                                     | None => NA
                                     end
                                 | None => NA
                                 end
                             | _ => NA
                             end) s)
  end.

(** [Series.str.contains(pat, case=False, na=False).astype(int)]; [pat] is
    a regular expression (pandas' default [regex=True]). *)
Definition str_contains_int (pat : str) (s : Series) : result Series :=
  match Re.compile pat with
  | None => Raise ReError
  | Some p =>
      Ok (List.map (fun c => match c with
                             | Text t =>
                                 of_bool (match Re.search true p t with
                                          | Some _ => true
                                          | None => false
                                          end)
                             | _ => of_bool false
                             end) s)
  end.

(** The floats of a numeric column. *)
Definition to_float (c : cell) : result fval :=
  match c with
  | Num x => Ok x
  | _ => Raise TypeError
  end.

Definition floats (s : Series) : result (list fval) := mapM to_float s.

(** [df.dropna(subset=[name])] *)
Definition dropna (name : str) (df : DataFrame) : result DataFrame :=
  c <- getcol df name ;;
  Ok (loc (List.map (fun x => negb (cell_isna x)) c) df).

(** *** [Series.quantile(q)], linear interpolation over the non-NaN values *)

Fixpoint insert_sorted (x : fval) (l : list fval) : list fval :=
  match l with
  | [] => [x]
  | y :: l' => if fle x y then x :: l else y :: insert_sorted x l'
  end.

Definition sort (l : list fval) : list fval := fold_right insert_sorted [] l.

(** numpy's [_lerp]. *)
Definition lerp (a b : fval) (t : Q) : fval :=
  let d := fsub b a in
  if Qle_bool (1 # 2) t
  then fsub b (fmul d (Fin (1 - t)))
  else fadd a (fmul d (Fin t)).

Definition quantile (q : Q) (vals : list fval) : fval :=
  let present := sort (filter (fun x => negb (isna x)) vals) in
  match present with
  | [] => NaN
  | _ =>
      let n := List.length present in
      let h := (inject_Z (Z.of_nat (n - 1)) * q)%Q in
      let i := Qfloor h in
      let g := (h - inject_Z i)%Q in
      let lo := nth (Z.to_nat i) present NaN in
      let hi := nth (Nat.min (S (Z.to_nat i)) (n - 1)) present NaN in
      lerp lo hi g
  end.

End Pd.

(** ** The notebook, cell by cell *)

Module Notebook.
Import Pd.

(** *** Step 3: the [size] column *)

Definition clean_size (s : Series) : result Series :=
  s1 <- str_replace (u "m²") [] s ;;
  s2 <- str_replace (u ",") (u ".") s1 ;;
  astype_float s2.

Definition step3 (df : DataFrame) : result DataFrame :=
  c <- getcol df (u "size") ;;
  c' <- clean_size c ;;
  Ok (setcol df (u "size") c').

(** *** Step 4: the [Czynsz] (monthly rent) column *)

Definition clean_czynsz (s : Series) : result Series :=
  s1 <- str_replace (u " zł") [] (replace_value (u "brak informacji") s) ;;
  s2 <- str_replace (u ",") (u ".") s1 ;;
  s3 <- str_replace (u " ") [] s2 ;;
  astype_float s3.

Definition step4 (df : DataFrame) : result DataFrame :=
  c <- getcol df (u "Czynsz") ;;
  c' <- clean_czynsz c ;;
  Ok (setcol df (u "Czynsz") c').

(** *** Step 5: the rent-missing indicator *)

Definition step5 (df : DataFrame) : result DataFrame :=
  c <- getcol df (u "Czynsz") ;;
  Ok (setcol df (u "has_czynsz") (isna_int c)).

(** *** Step 6: city, neighborhood and region *)

Definition city_pat : str := u "(\w+),\s*\w+,\s*(\w+)$".
Definition neighborhood_pat : str := u "(\w+),\s*(\w+),\s*\w+$".
Definition region_pat : str := u "(\w+)$".

Definition city (location : Series) : result Series :=
  str_extract city_pat 0 location.

Definition neighborhood (location : Series) : result Series :=
  str_extract neighborhood_pat 1 location.

Definition region (location : Series) : result Series :=
  str_extract region_pat 0 location.

Definition step6 (df : DataFrame) : result DataFrame :=
  l1 <- getcol df (u "location") ;;
  c <- city l1 ;;
  let df1 := setcol df (u "city") c in
  l2 <- getcol df1 (u "location") ;;
  n <- neighborhood l2 ;;
  let df2 := setcol df1 (u "neighborhood") n in
  l3 <- getcol df2 (u "location") ;;
  r <- region l3 ;;
  let df3 := setcol df2 (u "region") r in
  drop [u "location"] df3.

(** *** Step 7: the [price] column; rows without a price are dropped *)

Definition clean_price (s : Series) : result Series :=
  s1 <- str_replace (u " zł") [] s ;;
  s2 <- str_replace (u " ") [] s1 ;;
  s3 <- str_replace (u ",") (u ".") s2 ;;
  astype_float (replace_value (u "Pricenotavailable") s3).

Definition step7 (df : DataFrame) : result DataFrame :=
  c <- getcol df (u "price") ;;
  c' <- clean_price c ;;
  dropna (u "price") (setcol df (u "price") c').

(** *** Step 8: price per square metre *)

Fixpoint divide (a b : list fval) : list cell :=
  match a, b with
  | x :: a', y :: b' => Num (fdiv x y) :: divide a' b'
  | _, _ => []
  end.

Definition step8 (df : DataFrame) : result DataFrame :=
  p <- getcol df (u "price") ;;
  pf <- floats p ;;
  s <- getcol df (u "size") ;;
  sf <- floats s ;;
  Ok (setcol df (u "price_per_sqm") (divide pf sf)).

(** *** Step 9: amenity indicators *)

Definition amenities : list str :=
  [u "balkon"; u "taras"; u "garaż/miejsce parkingowe"; u "piwnica";
   u "oddzielna kuchnia"; u "ogródek"; u "pom. użytkowe"].

(** [str.replace(old, new)] for a single character [old]. *)
Definition replace_char (old new : cp) (s : str) : str :=
  List.map (fun c => if (c =? old)%N then new else c) s.

(** [f'has_{amenity.replace("/", "_").replace(" ", "_").lower()}'] *)
Definition amenity_column (amenity : str) : str :=
  u "has_" ++ lower (replace_char 32%N 95%N (replace_char 47%N 95%N amenity)).

Fixpoint extract_loop (todo : list str) (data : DataFrame) : result DataFrame :=
  match todo with
  | [] => Ok data
  | amenity :: todo' =>
      info <- getcol data (u "Informacje dodatkowe") ;;
      ind <- str_contains_int amenity info ;;
      extract_loop todo' (setcol data (amenity_column amenity) ind)
  end.

Definition extract_amenities (data : DataFrame) : result DataFrame :=
  extract_loop amenities data.

Definition step9 (df : DataFrame) : result DataFrame :=
  df' <- extract_amenities df ;;
  drop [u "Informacje dodatkowe"] df'.

(** *** Step 10: the IQR outlier filter *)

Definition fence_lo (Q1 IQR : fval) : fval := fsub Q1 (fmul (Fin 1.5) IQR).
Definition fence_hi (Q3 IQR : fval) : fval := fadd Q3 (fmul (Fin 1.5) IQR).

Definition remove_outliers (df : DataFrame) (column : str) : result DataFrame :=
  c <- getcol df column ;;
  v <- floats c ;;
  let Q1 := quantile 0.25 v in
  let Q3 := quantile 0.75 v in
  let IQR := fsub Q3 Q1 in
  let above := List.map (fun x => fgt x (fence_lo Q1 IQR)) v in
  let below := List.map (fun x => flt x (fence_hi Q3 IQR)) v in
  Ok (loc (List.map (fun ab => andb (fst ab) (snd ab)) (combine above below)) df).

Definition step10 (df : DataFrame) : result DataFrame :=
  df1 <- remove_outliers df (u "price") ;;
  remove_outliers df1 (u "size").

(** *** Step 11: the log-price target *)

Definition step11 (df : DataFrame) : result DataFrame :=
  c <- getcol df (u "price") ;;
  v <- floats c ;;
  Ok (setcol df (u "log_price") (List.map (fun x => Log (np_log x)) v)).

(** Steps 3 to 10, the row-level cleaning, in the order of the notebook. *)
Definition clean (df : DataFrame) : result DataFrame :=
  df3 <- step3 df ;;
  df4 <- step4 df3 ;;
  df5 <- step5 df4 ;;
  df6 <- step6 df5 ;;
  df7 <- step7 df6 ;;
  df8 <- step8 df7 ;;
  df9 <- step9 df8 ;;
  step10 df9.

(** Steps 3 to 11. *)
Definition prepare (df : DataFrame) : result DataFrame :=
  df10 <- clean df ;;
  step11 df10.

(** *** Step 12: features and target *)

Definition step12 (df : DataFrame) : result (DataFrame * Series) :=
  X <- drop [u "price"; u "log_price"; u "title"] df ;;
  y <- getcol df (u "log_price") ;;
  Ok (X, y).

(** *** Step 13: the column groups *)

Fixpoint startswith (prefix s : str) : bool :=
  match prefix, s with
  | [], _ => true
  | p :: prefix', c :: s' => (c =? p)%N && startswith prefix' s'
  | _ :: _, [] => false
  end.

Definition categorical_features : list str :=
  [u "Ogrzewanie"; u "Piętro"; u "Stan wykończenia"; u "Rynek";
   u "Forma własności"; u "Typ ogłoszeniodawcy"; u "neighborhood"].

Definition numerical_features (df : DataFrame) : list str :=
  [u "size"; u "Czynsz"; u "has_czynsz"; u "price_per_sqm"]
  ++ filter (startswith (u "has_")) (columns df).

End Notebook.

(** ** scikit-learn: the two-branch preprocessor

    The estimators are modelled by what they store when fitted and by the
    function they compute from it.  [fsqrt] stands for the square root
    taken by [StandardScaler] on the column variance. *)

Module Sk.
Import Pd.

Definition matrix := list (list Q).

Definition is_inf (x : fval) : bool :=
  match x with PInf | NInf => true | _ => false end.

Definition Qsum (l : list Q) : Q := fold_right Qplus 0%Q l.

Definition Qmean (l : list Q) : Q :=
  Qred (Qsum l / inject_Z (Z.of_nat (List.length l))).

(** The finite entries of a column. *)
Fixpoint finite (l : list fval) : list Q :=
  match l with
  | [] => []
  | Fin q :: l' => q :: finite l'
  | _ :: l' => finite l'
  end.

(** What the numeric branch stores for one column: the imputation mean
    ([SimpleImputer.statistics_]) and the scaler's [mean_] and [scale_]. *)
Record num_stats : Type := NumStats {
  statistic : Q;
  mean_ : Q;
  scale_ : Q
}.

Definition impute (m : Q) (l : list fval) : list Q :=
  List.map (fun x => match x with Fin q => q | _ => m end) l.

Section Scaler.

Variable fsqrt : Q -> Q.

(** [Pipeline([SimpleImputer(strategy='mean'), StandardScaler()]).fit] on
    one column.  An infinite entry or an empty column raises; a column
    without any value is dropped by the imputer ([None]). *)
Definition fit_num (l : list fval) : result (option num_stats) :=
  if existsb is_inf l then Raise ValueError
  else match l with
       | [] => Raise ValueError
       | _ =>
           match finite l with
           | [] => Ok None
           | vals =>
               let m := Qmean vals in
               let filled := impute m l in
               let mu := Qmean filled in
               let var := Qmean (List.map (fun x => (x - mu) * (x - mu))%Q filled) in
               Ok (Some (NumStats m mu (if Qeq_bool var 0 then 1%Q else fsqrt var)))
           end
       end.

End Scaler.

(** [transform] of the numeric branch on one column: zero or one output
    column. *)
Definition transform_num (st : option num_stats) (l : list fval) : result matrix :=
  if existsb is_inf l then Raise ValueError
  else match st with
       | None => Ok []
       | Some s =>
           Ok [List.map (fun x => Qred ((x - mean_ s) / scale_ s))
                        (impute (statistic s) l)]
       end.

(** The categorical branch: [SimpleImputer(strategy='constant',
    fill_value='missing')] then [OneHotEncoder(handle_unknown='ignore')]. *)
Definition fill_missing (c : cell) : result str :=
  match c with
  | Text t => Ok t
  | Num NaN => Ok (u "missing")
  | _ => Raise TypeError
  end.

Fixpoint str_ltb (a b : str) : bool :=
  match a, b with
  | _, [] => false
  | [], _ :: _ => true
  | x :: a', y :: b' => (x <? y)%N || ((x =? y)%N && str_ltb a' b')
  end.

Fixpoint insert_cat (x : str) (l : list str) : list str :=
  match l with
  | [] => [x]
  | y :: l' =>
      if str_eqb x y then l
      else if str_ltb x y then x :: l
      else y :: insert_cat x l'
  end.

(** [categories_]: the distinct values seen at fit time, sorted. *)
Definition fit_cat (l : Series) : result (list str) :=
  match l with
  | [] => Raise ValueError
  | _ => vals <- mapM fill_missing l ;; Ok (fold_right insert_cat [] vals)
  end.

(** One indicator column per category; a value not seen at fit time gives
    zero everywhere. *)
Definition transform_cat (cats : list str) (l : Series) : result matrix :=
  vals <- mapM fill_missing l ;;
  Ok (List.map (fun c => List.map (fun v => if str_eqb v c then 1%Q else 0%Q) vals) cats).

(** A fitted [ColumnTransformer]: per selected column, in the order of the
    column lists, what its branch stored. *)
Record fitted : Type := Fitted {
  num_ : list (str * option num_stats);
  cat_ : list (str * list str)
}.

(** [X[name]] inside the transformer, as floats. *)
Definition num_column (X : DataFrame) (name : str) : result (list fval) :=
  c <- getcol X name ;; floats c.

Section ColumnTransformer.

Variable fsqrt : Q -> Q.

Definition ct_fit (num_names cat_names : list str) (X : DataFrame) : result fitted :=
  ns <- mapM (fun name => l <- num_column X name ;;
                          s <- fit_num fsqrt l ;; Ok (name, s)) num_names ;;
  cs <- mapM (fun name => l <- getcol X name ;;
                          c <- fit_cat l ;; Ok (name, c)) cat_names ;;
  Ok (Fitted ns cs).

End ColumnTransformer.

Definition num_block (st : fitted) (X : DataFrame) : result (list matrix) :=
  mapM (fun ns => l <- num_column X (fst ns) ;; transform_num (snd ns) l) (num_ st).

Definition cat_block (st : fitted) (X : DataFrame) : result (list matrix) :=
  mapM (fun cs => l <- getcol X (fst cs) ;; transform_cat (snd cs) l) (cat_ st).

(** [ColumnTransformer.transform]: the output columns of the numeric
    branch, then those of the categorical branch. *)
Definition ct_transform (st : fitted) (X : DataFrame) : result matrix :=
  nb <- num_block st X ;;
  cb <- cat_block st X ;;
  Ok (List.concat nb ++ List.concat cb).

(** [sklearn.metrics.mean_absolute_error]; the input validation rejects
    empty, ragged and non-finite input. *)
Fixpoint abs_errors (a b : list lval) : result (list R) :=
  match a, b with
  | [], [] => Ok []
  | LFin x :: a', LFin y :: b' => r <- abs_errors a' b' ;; Ok (Rabs (x - y) :: r)
  | _, _ => Raise ValueError
  end.

Definition mean_absolute_error (y_true y_pred : list lval) : result R :=
  match y_true with
  | [] => Raise ValueError
  | _ =>
      e <- abs_errors y_true y_pred ;;
      Ok (fold_right Rplus 0%R e / INR (List.length e))%R
  end.

End Sk.

(** ** Steps 14 to 16: the model pipeline, training and evaluation

    The estimator objects are mutable; their state is threaded through a
    [store].  [fit_log] is a ghost field: it records the argument of every
    fit of the preprocessor, most recent first.  The gradient-boosted
    regressor and the shuffled train/test split are external; they enter
    as the section's variables. *)

Module Model.
Import Pd Sk Notebook.

Section Training.

Variable fsqrt : Q -> Q.
Variable booster : Type.
Variable xgb_fit : matrix -> Series -> result booster.
Variable xgb_predict : booster -> matrix -> list lval.
(** [train_test_split(..., test_size=0.2, random_state=42)] on [n] rows:
    the row numbers of the two partitions. *)
Variable train_index : nat -> list nat.
Variable test_index : nat -> list nat.

Record store : Type := Store {
  preprocessor : option fitted;
  regressor : option booster;
  fit_log : list DataFrame
}.


Definition M (A : Type) : Type := store -> result (A * store).


(** [preprocessor.transform(X)] *)
Definition pre_transform (X : DataFrame) : M matrix :=
  fun s =>
    match preprocessor s with
    | Some st => Xt <- ct_transform st X ;; Ok (Xt, s)
    | None => Raise NotFittedError
    end.

(** [model.predict(X)]: transform with the fitted preprocessor, then
    predict. *)
Definition model_predict (X : DataFrame) : M (list lval) :=
  fun s =>
    r <- pre_transform X s ;;
    match regressor (snd r) with
    | Some b => Ok (xgb_predict b (fst r), snd r)
    | None => Raise NotFittedError
    end.






Definition log_value (c : cell) : result lval :=
  match c with
  | Log y => Ok y
  | Num x => Ok (lval_of x)
  | Text _ => Raise TypeError
  end.

(** Step 16: predictions and held-out truth go back through [np.exp]
    before the error is taken. *)
Definition step16 (Xt : DataFrame) (y_test : Series) : M R :=
  fun s =>
    p <- model_predict Xt s ;;
    let y_pred := List.map np_exp (fst p) in
    yt <- mapM log_value y_test ;;
    mae <- mean_absolute_error (List.map np_exp yt) y_pred ;;
    Ok (mae, snd p).

End Training.

End Model.

(** * Properties *)

(** ** The result monad *)

Lemma mapM_length {A B : Type} (f : A -> result B) (l : list A) (r : list B) :
  mapM f l = Ok r -> List.length r = List.length l.
Proof.
  revert r. induction l as [|a l IH]; simpl; intros r H.
  - inversion H. reflexivity.
  - destruct (f a) as [b|e]; simpl in H; [|discriminate].
    destruct (mapM f l) as [bs|e]; simpl in H; [|discriminate].
    inversion H. simpl. f_equal. apply IH. reflexivity.
Qed.

Lemma mapM_app {A B : Type} (f : A -> result B) (l1 l2 : list A) :
  mapM f (l1 ++ l2) =
  (r1 <- mapM f l1 ;; r2 <- mapM f l2 ;; Ok (r1 ++ r2)).
Proof.
  induction l1 as [|a l1 IH]; simpl.
  - destruct (mapM f l2); reflexivity.
  - destruct (f a) as [b|e]; simpl; [|reflexivity].
    rewrite IH. destruct (mapM f l1) as [r1|e]; simpl; [|reflexivity].
    destruct (mapM f l2); reflexivity.
Qed.

Lemma mapM_Forall {A B : Type} (f : A -> result B) (P : B -> Prop) (l : list A) (r : list B) :
  (forall a b, In a l -> f a = Ok b -> P b) ->
  mapM f l = Ok r -> Forall P r.
Proof.
  revert r. induction l as [|a l IH]; simpl; intros r Hf H.
  - inversion H. constructor.
  - destruct (f a) as [b|e] eqn:Ea; simpl in H; [|discriminate].
    destruct (mapM f l) as [bs|e]; simpl in H; [|discriminate].
    inversion H. constructor.
    + apply (Hf a); [left; reflexivity|assumption].
    + apply IH; [|reflexivity].
      intros a' b' Hin Hab. apply (Hf a'); [right; assumption|assumption].
Qed.

Lemma mapM_raise {A B : Type} (f : A -> result B) (l : list A) (a : A) (e : exn) :
  In a l -> f a = Raise e ->
  (forall x e', In x l -> f x = Raise e' -> e' = e) ->
  mapM f l = Raise e.
Proof.
  intros Hin Ha Hu. induction l as [|x l IH]; simpl in *; [contradiction|].
  destruct (f x) as [b|e'] eqn:Ex; simpl.
  - destruct Hin as [->|Hin]; [congruence|].
    rewrite IH; [reflexivity|exact Hin|].
    intros y e' Hy. apply Hu. right. exact Hy.
  - f_equal. apply (Hu x); [left; reflexivity|exact Ex].
Qed.

(** ** Strings *)

Lemma str_eqb_eq (a b : str) : str_eqb a b = true <-> a = b.
Proof.
  unfold str_eqb. destruct (list_eq_dec N.eq_dec a b); split; congruence.
Qed.

Lemma str_eqb_neq a b : a <> b -> str_eqb a b = false.
Proof.
  intros H. destruct (str_eqb a b) eqn:E; [|reflexivity].
  apply str_eqb_eq in E. contradiction.
Qed.

(** ** Character ranges *)

Lemma in_range_bounds lo hi x : in_range lo hi x = true -> (lo <= x <= hi)%N.
Proof.
  unfold in_range. intros H. apply andb_prop in H. destruct H as [A B].
  apply N.leb_le in A, B. split; assumption.
Qed.


(** ** The regular-expression matcher *)

Module ReFacts.
Import Re.

Definition ccount (c : cp) (s : str) : nat := count_occ N.eq_dec s c.

Definition is_lit (c : cp) (i : item) : bool :=
  match i with
  | One (ALit c') => (c' =? c)%N
  | _ => false
  end.

(** How many times the pattern demands the literal character [c]. *)
Definition lit_count (c : cp) (p : pattern) : nat :=
  List.length (filter (is_lit c) p).

(** A successful greedy repetition hands some suffix of the subject to its
    continuation. *)
Lemma greedy_suffix ok k s pos r :
  greedy ok k s pos = Some r ->
  exists pre s1, s = pre ++ s1 /\ k s1 (pos + List.length pre) = Some r.
Proof.
  revert pos. induction s as [|x s IH]; simpl; intros pos H.
  - exists [], []. simpl. rewrite Nat.add_0_r. auto.
  - assert (Hk : k (x :: s) pos = Some r ->
                 exists pre s1, x :: s = pre ++ s1 /\ k s1 (pos + List.length pre) = Some r).
    { intros Hk. exists [], (x :: s). simpl. rewrite Nat.add_0_r. auto. }
    destruct (ok x); [|auto].
    destruct (greedy ok k s (S pos)) as [r'|] eqn:E; [|auto].
    inversion H; subst r'.
    destruct (IH _ E) as (pre & s1 & -> & Hs1).
    exists (x :: pre), s1. simpl. split; [reflexivity|].
    rewrite <- Hs1. f_equal. lia.
Qed.

Lemma ccount_app c a b : ccount c (a ++ b) = ccount c a + ccount c b.
Proof. apply count_occ_app. Qed.

(** A match consumes at least the literal characters of the pattern. *)
Lemma mt_count c p : forall s pos st r,
  mt false p s pos st = Some r -> lit_count c p <= ccount c s.
Proof.
  unfold lit_count.
  induction p as [|i p IH]; simpl; intros s pos st r H; [lia|].
  destruct i as [a|a|a|g|g|]; simpl.
  - destruct s as [|x s]; [discriminate|].
    destruct (atom_ok false a x) eqn:Ea; [|discriminate].
    apply IH in H. unfold ccount in *. simpl.
    destruct a as [c'| | |]; simpl in *;
      try (destruct (N.eq_dec x c); lia).
    apply N.eqb_eq in Ea. subst x.
    destruct (c' =? c)%N eqn:Ec; simpl.
    + apply N.eqb_eq in Ec. subst c'. destruct (N.eq_dec c c); [lia|congruence].
    + destruct (N.eq_dec c' c); lia.
  - apply greedy_suffix in H. destruct H as (pre & s1 & -> & H).
    apply IH in H. rewrite ccount_app. lia.
  - destruct s as [|x s]; [discriminate|].
    destruct (atom_ok false a x); [|discriminate].
    apply greedy_suffix in H. destruct H as (pre & s1 & -> & H).
    apply IH in H.
    change (x :: pre ++ s1) with ((x :: pre) ++ s1). rewrite ccount_app. lia.
  - eapply IH; eauto.
  - destruct (assoc g (opened st)); [|discriminate]. eapply IH; eauto.
  - destruct (at_end s); [|discriminate]. eapply IH; eauto.
Qed.

Lemma search_from_count c p : forall s pos r,
  search_from false p s pos = Some r -> lit_count c p <= ccount c s.
Proof.
  induction s as [|x s IH]; simpl; intros pos r H.
  - destruct (mt false p [] pos mstate0) eqn:E; [|discriminate].
    apply mt_count with (c := c) in E. exact E.
  - destruct (mt false p (x :: s) pos mstate0) eqn:E.
    + apply mt_count with (c := c) in E. exact E.
    + apply IH in H. unfold ccount in *. simpl. destruct (N.eq_dec x c); lia.
Qed.

(** A subject with fewer occurrences of [c] than the pattern demands is
    not matched anywhere. *)
Lemma search_too_few c p s :
  ccount c s < lit_count c p -> search false p s = None.
Proof.
  intros H. unfold search.
  destruct (search_from false p s 0) eqn:E; [|reflexivity].
  apply (search_from_count c) in E. lia.
Qed.

(** On a run of accepted characters the greedy repetition takes them all,
    provided the continuation then succeeds. *)
Lemma greedy_all ok k s pos r :
  forallb ok s = true ->
  k [] (pos + List.length s) = Some r ->
  greedy ok k s pos = Some r.
Proof.
  revert pos. induction s as [|x s IH]; simpl; intros pos Hall Hk.
  - rewrite Nat.add_0_r in Hk. exact Hk.
  - apply andb_prop in Hall. destruct Hall as [Hx Hs]. rewrite Hx.
    rewrite (IH (S pos) Hs); [reflexivity|].
    rewrite <- Hk. f_equal. lia.
Qed.

(** *** Runs: the matcher on a subject given as run-then-rest *)

Definition starts_ok (ok : cp -> bool) (s : str) : bool :=
  match s with
  | x :: _ => ok x
  | [] => false
  end.










(** *** What a match tells about the subject *)

(** [lang p s]: some prefix of [s] is matched by [p]. *)
Fixpoint lang (ic : bool) (p : pattern) (s : str) : Prop :=
  match p with
  | [] => True
  | One a :: p' =>
      exists x s', s = x :: s' /\ atom_ok ic a x = true /\ lang ic p' s'
  | Many0 a :: p' =>
      exists run s', s = run ++ s' /\ forallb (atom_ok ic a) run = true /\ lang ic p' s'
  | Many1 a :: p' =>
      exists run s', s = run ++ s' /\ run <> []
                     /\ forallb (atom_ok ic a) run = true /\ lang ic p' s'
  | Open _ :: p' => lang ic p' s
  | Close _ :: p' => lang ic p' s
  | Eos :: p' => at_end s = true /\ lang ic p' s
  end.

Lemma greedy_lang ok k s pos r :
  greedy ok k s pos = Some r ->
  exists run s1 pos1, s = run ++ s1 /\ forallb ok run = true /\ k s1 pos1 = Some r.
Proof.
  revert pos. induction s as [|x s IH]; simpl; intros pos H.
  - exists [], [], pos. auto.
  - assert (Hk : k (x :: s) pos = Some r ->
                 exists run s1 pos1, x :: s = run ++ s1 /\ forallb ok run = true
                                     /\ k s1 pos1 = Some r).
    { intros Hk. exists [], (x :: s), pos. auto. }
    destruct (ok x) eqn:Hx; [|auto].
    destruct (greedy ok k s (S pos)) as [r'|] eqn:E; [|auto].
    inversion H; subst r'.
    destruct (IH _ E) as (run & s1 & pos1 & -> & Hrun & Hs1).
    exists (x :: run), s1, pos1. simpl. rewrite Hx, Hrun. auto.
Qed.

Lemma mt_lang ic p : forall s pos st r,
  mt ic p s pos st = Some r -> lang ic p s.
Proof.
  induction p as [|i p IH]; simpl; intros s pos st r H; [exact I|].
  destruct i as [a|a|a|g|g|].
  - destruct s as [|x s]; [discriminate|].
    destruct (atom_ok ic a x) eqn:Ea; [|discriminate].
    exists x, s. eauto.
  - apply greedy_lang in H. destruct H as (run & s1 & pos1 & -> & Hrun & H).
    exists run, s1. eauto.
  - destruct s as [|x s]; [discriminate|].
    destruct (atom_ok ic a x) eqn:Ea; [|discriminate].
    apply greedy_lang in H. destruct H as (run & s1 & pos1 & -> & Hrun & H).
    exists (x :: run), s1. simpl. rewrite Ea, Hrun.
    repeat split; eauto. discriminate.
  - eauto.
  - destruct (assoc g (opened st)); [|discriminate]. eauto.
  - destruct (at_end s) eqn:Ee; [|discriminate]. eauto.
Qed.

(** *** Searching *)



Lemma slice_middle (pre mid post : str) :
  slice (pre ++ mid ++ post) (List.length pre) (List.length pre + List.length mid) = mid.
Proof.
  unfold slice. rewrite skipn_app, skipn_all, Nat.sub_diag. simpl.
  replace (List.length pre + List.length mid - List.length pre) with (List.length mid) by lia.
  rewrite firstn_app, firstn_all, Nat.sub_diag. simpl. apply app_nil_r.
Qed.

End ReFacts.

(** ** Location Decomposer (step 6) *)

Module LocationFacts.
Import Re ReFacts Pd Notebook.

Definition city_re : pattern :=
  [Open 1; Many1 AWord; Close 1; One (ALit 44%N); Many0 ASpace; Many1 AWord;
   One (ALit 44%N); Many0 ASpace; Open 2; Many1 AWord; Close 2; Eos].

Definition neighborhood_re : pattern :=
  [Open 1; Many1 AWord; Close 1; One (ALit 44%N); Many0 ASpace;
   Open 2; Many1 AWord; Close 2; One (ALit 44%N); Many0 ASpace; Many1 AWord; Eos].

Definition region_re : pattern := [Open 1; Many1 AWord; Close 1; Eos].

Lemma compile_city : compile city_pat = Some city_re.
Proof. reflexivity. Qed.

Lemma compile_neighborhood : compile neighborhood_pat = Some neighborhood_re.
Proof. reflexivity. Qed.

Lemma compile_region : compile region_pat = Some region_re.
Proof. reflexivity. Qed.

(** The three extractions on one location text. *)
Definition city_of (t : str) : result Series := city [Text t].
Definition neighborhood_of (t : str) : result Series := neighborhood [Text t].
Definition region_of (t : str) : result Series := region [Text t].

Definition commas (t : str) : nat := ccount 44%N t.

Lemma city_needs_two_commas t : commas t < 2 -> city_of t = Ok [NA].
Proof.
  intros H. unfold city_of, city, str_extract. rewrite compile_city. simpl.
  rewrite (search_too_few 44%N city_re t); [reflexivity|exact H].
Qed.

Lemma neighborhood_needs_two_commas t :
  commas t < 2 -> neighborhood_of t = Ok [NA].
Proof.
  intros H. unfold neighborhood_of, neighborhood, str_extract.
  rewrite compile_neighborhood. simpl.
  rewrite (search_too_few 44%N neighborhood_re t); [reflexivity|exact H].
Qed.

(** A token made of word characters only is its own region. *)
Lemma region_of_token t :
  t <> [] -> forallb is_word t = true -> region_of t = Ok [Text t].
Proof.
  intros Hne Hw. unfold region_of, region, str_extract. rewrite compile_region.
  simpl. destruct t as [|x t]; [congruence|].
  simpl in Hw. apply andb_prop in Hw. destruct Hw as [Hx Ht].
  unfold search. simpl. rewrite Hx.
  rewrite (@greedy_all _ _ t 1
             (MState [(1, 0)] [(1, (0, S (List.length t)))])).
  - unfold group. simpl. unfold slice. simpl.
    rewrite firstn_all. reflexivity.
  - exact Ht.
  - reflexivity.
Qed.

Lemma word_has_no_comma t : forallb is_word t = true -> commas t = 0.
Proof.
  induction t as [|x t IH]; simpl; intros H; [reflexivity|].
  apply andb_prop in H. destruct H as [Hx Ht].
  unfold commas, ccount in *. simpl.
  destruct (N.eq_dec x 44) as [->|_]; [discriminate Hx|]. apply IH, Ht.
Qed.

(** *** The positional rule *)



(** A non-empty run of word characters. *)
Definition token (t : str) : bool :=
  match t with
  | [] => false
  | _ => forallb is_word t
  end.



Lemma token_word t : token t = true -> forallb is_word t = true.
Proof. destruct t; simpl; [discriminate|auto]. Qed.









Section ThreeTokens.

Variables a b c w1 w2 : str.
Hypothesis Ha : token a = true.
Hypothesis Hb : token b = true.
Hypothesis Hc : token c = true.
Hypothesis Hw1 : forallb is_space w1 = true.
Hypothesis Hw2 : forallb is_space w2 = true.






End ThreeTokens.







(** C8 as the spec states it fails: a single-token location is not given a
    missing region. *)
Lemma C8_single_token_region_not_missing :
  ~ (city_of (u "Warszawa") = Ok [NA]
     /\ neighborhood_of (u "Warszawa") = Ok [NA]
     /\ region_of (u "Warszawa") = Ok [NA]).
Proof.
  intros (_ & _ & H). vm_compute in H. discriminate H.
Qed.

(** C8, amended: a location with fewer than two commas has no city and no
    neighborhood; a single token of word characters has neither, and is
    itself the region. *)
Theorem C8_short_location (t : str) :
  (commas t < 2 -> city_of t = Ok [NA] /\ neighborhood_of t = Ok [NA])
  /\ (t <> [] -> forallb is_word t = true ->
      city_of t = Ok [NA] /\ neighborhood_of t = Ok [NA]
      /\ region_of t = Ok [Text t]).
Proof.
  split.
  - intros H. split.
    + apply city_needs_two_commas, H.
    + apply neighborhood_needs_two_commas, H.
  - intros Hne Hw.
    assert (Hc : commas t < 2) by (rewrite (word_has_no_comma t Hw); lia).
    repeat split.
    + apply city_needs_two_commas, Hc.
    + apply neighborhood_needs_two_commas, Hc.
    + apply region_of_token; assumption.
Qed.

Lemma C8_short_location_witness :
  (city_of (u "Wola, Warszawa") = Ok [NA] /\ neighborhood_of (u "Wola, Warszawa") = Ok [NA])
  /\ (city_of (u "Warszawa") = Ok [NA] /\ neighborhood_of (u "Warszawa") = Ok [NA]
      /\ region_of (u "Warszawa") = Ok [Text (u "Warszawa")]).
Proof.
  split.
  - apply (proj1 (C8_short_location (u "Wola, Warszawa"))).
    unfold commas, ReFacts.ccount. simpl. lia.
  - apply (proj2 (C8_short_location (u "Warszawa"))).
    + discriminate.
    + reflexivity.
Defined.

End LocationFacts.

(** ** DataFrame bookkeeping *)

Module PdFacts.
Import Pd.

Lemma getcol_setcol_same df name v : getcol (setcol df name v) name = Ok v.
Proof.
  induction df as [|[n c] df IH]; simpl.
  - assert (H : str_eqb name name = true) by (apply str_eqb_eq; reflexivity).
    rewrite H. reflexivity.
  - destruct (str_eqb n name) eqn:E; simpl; rewrite E; [reflexivity|exact IH].
Qed.

Lemma getcol_setcol_other df name name' v :
  str_eqb name name' = false ->
  getcol (setcol df name v) name' = getcol df name'.
Proof.
  intros Hne. induction df as [|[n c] df IH]; simpl.
  - rewrite Hne. reflexivity.
  - destruct (str_eqb n name) eqn:E; simpl.
    + apply str_eqb_eq in E. subst n. rewrite Hne. reflexivity.
    + destruct (str_eqb n name'); [reflexivity|exact IH].
Qed.

Lemma getcol_loc mask df name :
  getcol (loc mask df) name = (c <- getcol df name ;; Ok (select mask c)).
Proof.
  induction df as [|[n c] df IH]; simpl; [reflexivity|].
  destruct (str_eqb n name); [reflexivity|exact IH].
Qed.

Lemma select_Forall {A : Type} (P : A -> Prop) mask (l : list A) :
  Forall P l -> Forall P (select mask l).
Proof.
  intros H. revert mask. induction H as [|x l Hx Hl IH]; intros [|b mask]; simpl;
    try constructor.
  destruct b; [constructor; auto|auto].
Qed.

(** Selecting with the mask of a predicate is filtering by it. *)
Lemma select_map_filter {A : Type} (f : A -> bool) (l : list A) :
  select (List.map f l) l = filter f l.
Proof.
  induction l as [|x l IH]; simpl; [reflexivity|].
  rewrite IH. reflexivity.
Qed.

Lemma select_map_Forall {A : Type} (f : A -> bool) (l : list A) :
  Forall (fun x => f x = true) (select (List.map f l) l).
Proof.
  rewrite select_map_filter. apply Forall_forall.
  intros x Hx. apply filter_In in Hx. tauto.
Qed.

(** A numeric cell that is not NaN. *)
Definition present (c : cell) : Prop := exists x, c = Num x /\ isna x = false.

Lemma astype_float_numeric s s' :
  astype_float s = Ok s' -> Forall (fun c => exists x, c = Num x) s'.
Proof.
  apply mapM_Forall. intros a b _. unfold astype_float_cell.
  destruct a as [t|x|y]; [destruct (float_of_str t)| |]; intros H;
    try discriminate H; injection H as <-; eauto.
Qed.

Lemma floats_numeric s v :
  floats s = Ok v -> s = List.map Num v.
Proof.
  revert v. unfold floats. induction s as [|c s IH]; simpl; intros v H.
  - injection H as <-. reflexivity.
  - destruct c as [t|x|y]; simpl in H; try discriminate H.
    destruct (mapM to_float s) as [v'|]; simpl in H; [|discriminate H].
    injection H as <-. simpl. f_equal. apply IH. reflexivity.
Qed.


End PdFacts.

(** ** Field Normalizer (steps 3, 4 and 7) *)

Module NormalizerFacts.
Import Re Pd Notebook PdFacts.

(** The pattern of a text without metacharacters. *)
Definition lit (t : str) : pattern := List.map (fun c => One (ALit c)) t.

Lemma compile_unit : compile (u "m²") = Some (lit (u "m²")).
Proof. reflexivity. Qed.

Lemma compile_comma : compile (u ",") = Some (lit (u ",")).
Proof. reflexivity. Qed.

Lemma compile_zl : compile (u " zł") = Some (lit (u " zł")).
Proof. reflexivity. Qed.

Lemma compile_space : compile (u " ") = Some (lit (u " ")).
Proof. reflexivity. Qed.

(** The text each cleaning hands to [float]. *)
Definition size_text (t : str) : str :=
  ReSub.sub (lit (u ",")) (u ".") (ReSub.sub (lit (u "m²")) [] t).

Definition rent_text (t : str) : str :=
  ReSub.sub (lit (u " ")) []
    (ReSub.sub (lit (u ",")) (u ".") (ReSub.sub (lit (u " zł")) [] t)).

Definition price_text (t : str) : str :=
  ReSub.sub (lit (u ",")) (u ".")
    (ReSub.sub (lit (u " ")) [] (ReSub.sub (lit (u " zł")) [] t)).

Definition size_cell (c : cell) : cell :=
  match c with
  | Text t => Text (size_text t)
  | _ => NA
  end.

Definition rent_cell (c : cell) : cell :=
  match c with
  | Text t => if str_eqb t (u "brak informacji") then NA else Text (rent_text t)
  | _ => NA
  end.

Definition price_cell (c : cell) : cell :=
  match c with
  | Text t =>
      if str_eqb (price_text t) (u "Pricenotavailable") then NA
      else Text (price_text t)
  | _ => NA
  end.

(** Each cleaning works cell by cell. *)
Lemma clean_size_cells s : clean_size s = astype_float (List.map size_cell s).
Proof.
  unfold clean_size, str_replace. rewrite compile_unit, compile_comma. simpl.
  rewrite map_map. f_equal. apply map_ext. intros [t|x|y]; reflexivity.
Qed.

Lemma clean_czynsz_cells s : clean_czynsz s = astype_float (List.map rent_cell s).
Proof.
  unfold clean_czynsz, str_replace, replace_value.
  rewrite compile_zl, compile_comma, compile_space. simpl.
  rewrite !map_map. f_equal. apply map_ext. intros [t|x|y]; try reflexivity.
  simpl. destruct (str_eqb t (u "brak informacji")); reflexivity.
Qed.

Lemma clean_price_cells s : clean_price s = astype_float (List.map price_cell s).
Proof.
  unfold clean_price, str_replace, replace_value.
  rewrite compile_zl, compile_comma, compile_space. simpl.
  rewrite !map_map. f_equal. apply map_ext. intros [t|x|y]; reflexivity.
Qed.

Definition text_or_num (c : cell) : Prop :=
  match c with
  | Log _ => False
  | _ => True
  end.

(** One text that [float] rejects makes the conversion of the whole column
    raise ValueError. *)
Lemma astype_raises s t :
  Forall text_or_num s ->
  In (Text t) s -> float_of_str t = None ->
  astype_float s = Raise ValueError.
Proof.
  intros Hs Hin Ht. unfold astype_float.
  apply mapM_raise with (a := Text t); [exact Hin|simpl; rewrite Ht; reflexivity|].
  intros c e' Hc. rewrite Forall_forall in Hs. specialize (Hs c Hc).
  destruct c as [v|x|y]; simpl in *; [|discriminate|contradiction].
  destruct (float_of_str v); [discriminate|]. intros H. injection H as <-. reflexivity.
Qed.

Lemma cleaned_cells (f : cell -> cell) s :
  (forall c, text_or_num (f c)) -> Forall text_or_num (List.map f s).
Proof.
  intros Hf. apply Forall_forall. intros c Hc.
  apply in_map_iff in Hc. destruct Hc as (c0 & <- & _). apply Hf.
Qed.

Lemma size_cell_shape c : text_or_num (size_cell c).
Proof. destruct c; exact I. Qed.


Lemma price_cell_shape c : text_or_num (price_cell c).
Proof.
  destruct c as [t|x|y]; simpl; try exact I.
  destruct (str_eqb (price_text t) (u "Pricenotavailable")); exact I.
Qed.

(** *** Size and rent: C4 *)




(** The text goes on with a "z". *)
Definition starts_ok_z (s : str) : bool :=
  match s with
  | y :: _ => (y =? 122)%N
  | [] => false
  end.

(** *** Well-formed rent text

    The format the rent column is written in: digits in groups separated
    by spaces, a decimal comma, fraction digits, and the suffix " zł". *)

Definition digit_or_space (c : cp) : bool := is_digit c || (c =? 32)%N.

Definition unspace (s : str) : str := filter (fun c => negb (c =? 32)%N) s.

(** The decimal value of the integer digits [ip] and fraction digits [fp]. *)
Definition decimal_value (ip fp : str) : Q :=
  Qred (scale10 (digits_val (ip ++ fp)) (- Z.of_nat (List.length fp))).

Lemma match_end_char c x s pos :
  ReSub.match_end false (lit [c]) (x :: s) pos
  = if (x =? c)%N then Some (S pos) else None.
Proof.
  unfold ReSub.match_end. simpl. destruct (x =? c)%N; reflexivity.
Qed.

(** Substituting for a one-character pattern works character by
    character. *)
Lemma sub_char c repl : forall s pos,
  ReSub.sub_from false (lit [c]) repl s pos 0
  = flat_map (fun x => if (x =? c)%N then repl else [x]) s.
Proof.
  induction s as [|x s IH]; intros pos.
  - reflexivity.
  - cbn [ReSub.sub_from flat_map]. rewrite match_end_char.
    destruct (x =? c)%N.
    + assert (Hlt : Nat.ltb pos (S pos) = true) by (apply Nat.ltb_lt; lia).
      rewrite Hlt. replace (S pos - pos - 1) with 0 by lia. rewrite IH. reflexivity.
    + rewrite IH. reflexivity.
Qed.

Lemma match_end_zl_none x rest pos :
  (x =? 32)%N && starts_ok_z rest = false ->
  ReSub.match_end false (lit (u " zł")) (x :: rest) pos = None.
Proof.
  unfold ReSub.match_end, starts_ok_z. simpl.
  destruct (x =? 32)%N; simpl; [|reflexivity].
  destruct rest as [|y rest]; [reflexivity|]. intros ->. reflexivity.
Qed.

Lemma match_end_zl_here pos :
  ReSub.match_end false (lit (u " zł")) [32%N; 122%N; 322%N] pos = Some (S (S (S pos))).
Proof. reflexivity. Qed.

Lemma sub_zl_here pos :
  ReSub.sub_from false (lit (u " zł")) [] (u " zł") pos 0 = [].
Proof.
  change (u " zł") with [32%N; 122%N; 322%N] at 2.
  cbn [ReSub.sub_from]. rewrite match_end_zl_here.
  assert (Hlt : Nat.ltb pos (S (S (S pos))) = true) by (apply Nat.ltb_lt; lia).
  rewrite Hlt. replace (S (S (S pos)) - pos - 1) with 2 by lia. reflexivity.
Qed.

(** In a text of digits, spaces and commas that ends with " zł", only the
    suffix is removed. *)
Lemma sub_zl_suffix : forall w pos,
  forallb (fun c => digit_or_space c || (c =? 44)%N) w = true ->
  ReSub.sub_from false (lit (u " zł")) [] (w ++ u " zł") pos 0 = w.
Proof.
  induction w as [|x w IH]; intros pos Hw.
  - apply sub_zl_here.
  - simpl in Hw. apply andb_prop in Hw. destruct Hw as [Hx Hw].
    cbn [app ReSub.sub_from]. rewrite match_end_zl_none.
    + rewrite IH; [reflexivity|exact Hw].
    + destruct (x =? 32)%N; [|reflexivity]. simpl.
      destruct w as [|y w]; [reflexivity|]. simpl.
      simpl in Hw. apply andb_prop in Hw. destruct Hw as [Hy _].
      unfold starts_ok_z. destruct (y =? 122)%N eqn:E; [|reflexivity].
      apply N.eqb_eq in E. subst y. discriminate Hy.
Qed.

Lemma flat_map_keep c repl (s : str) :
  forallb (fun x => negb (x =? c)%N) s = true ->
  flat_map (fun x => if (x =? c)%N then repl else [x]) s = s.
Proof.
  induction s as [|x s IH]; simpl; intros H; [reflexivity|].
  apply andb_prop in H. destruct H as [Hx Hs].
  destruct (x =? c)%N; [discriminate|]. simpl. f_equal. apply IH, Hs.
Qed.

Lemma flat_map_drop c (s : str) :
  flat_map (fun x => if (x =? c)%N then [] else [x]) s
  = filter (fun x => negb (x =? c)%N) s.
Proof.
  induction s as [|x s IH]; simpl; [reflexivity|].
  destruct (x =? c)%N; simpl; rewrite IH; reflexivity.
Qed.

Lemma forallb_weaken {A : Type} (f g : A -> bool) l :
  (forall x, f x = true -> g x = true) -> forallb f l = true -> forallb g l = true.
Proof.
  intros Hfg H. rewrite forallb_forall in *. auto.
Qed.

Lemma digit_bounds c : is_digit c = true -> (48 <= c <= 57)%N.
Proof. apply in_range_bounds. Qed.

Ltac digit_facts :=
  repeat match goal with
         | H : is_digit _ = true |- _ => apply digit_bounds in H
         end.

Lemma digit_not c d : is_digit c = true -> (d < 48 \/ 57 < d)%N -> (c =? d)%N = false.
Proof. intros H Hd. digit_facts. apply N.eqb_neq. lia. Qed.


Lemma unspace_digits body :
  forallb digit_or_space body = true -> forallb is_digit (unspace body) = true.
Proof.
  induction body as [|x body IH]; simpl; intros H; [reflexivity|].
  apply andb_prop in H. destruct H as [Hx Hb].
  destruct (x =? 32)%N eqn:E; simpl; [apply IH, Hb|].
  unfold digit_or_space in Hx. rewrite E, orb_false_r in Hx. rewrite Hx. apply IH, Hb.
Qed.

Lemma unspace_nonempty body :
  existsb is_digit body = true -> unspace body <> [].
Proof.
  induction body as [|x body IH]; simpl; intros H; [discriminate|].
  destruct (is_digit x) eqn:Hx.
  - rewrite (digit_not _ Hx); [discriminate|lia].
  - destruct (x =? 32)%N; simpl; [apply IH, H|discriminate].
Qed.

(** *** [float] on digits, a point and digits *)

Lemma underscores_none : forall s prev,
  forallb (fun c => negb (c =? 95)%N) s = true -> (prev =? 95)%N = false ->
  underscores prev s = Some s.
Proof.
  induction s as [|c s IH]; simpl; intros prev Hs Hp.
  - rewrite Hp. reflexivity.
  - apply andb_prop in Hs. destruct Hs as [Hc Hs].
    apply negb_true_iff in Hc. rewrite Hc, Hp. simpl.
    rewrite (IH c Hs Hc). reflexivity.
Qed.

Lemma lstrip_id s : forallb (fun c => negb (is_float_space c)) s = true -> lstrip s = s.
Proof.
  destruct s as [|c s]; simpl; [reflexivity|]. intros H.
  apply andb_prop in H. destruct H as [Hc _].
  apply negb_true_iff in Hc. rewrite Hc. reflexivity.
Qed.

Lemma strip_id s : forallb (fun c => negb (is_float_space c)) s = true -> strip s = s.
Proof.
  intros H. unfold strip. rewrite (lstrip_id s H). rewrite lstrip_id.
  - apply rev_involutive.
  - rewrite forallb_forall in *. intros x Hx. apply H, in_rev, Hx.
Qed.

Lemma span_digits_app a rest :
  forallb is_digit a = true -> ReFacts.starts_ok is_digit rest = false ->
  span_digits (a ++ rest) = (a, rest).
Proof.
  intros Ha Hr. induction a as [|c a IH]; simpl.
  - destruct rest as [|y rest]; [reflexivity|]. simpl in Hr. simpl. rewrite Hr. reflexivity.
  - simpl in Ha. apply andb_prop in Ha. destruct Ha as [Hc Ha].
    rewrite Hc, (IH Ha). reflexivity.
Qed.

Definition digit_or_point (c : cp) : bool := is_digit c || (c =? 46)%N.

Lemma digit_or_point_plain c :
  digit_or_point c = true ->
  (c =? 95)%N = false /\ is_float_space c = false /\ ascii_lower c = c
  /\ (c =? 45)%N = false /\ (c =? 43)%N = false /\ (c =? 105)%N = false
  /\ (c =? 110)%N = false.
Proof.
  unfold digit_or_point. intros H. apply orb_prop in H.
  assert (Hc : (46 <= c <= 57)%N).
  { destruct H as [H|H]; [digit_facts; lia|apply N.eqb_eq in H; lia]. }
  repeat split; try (apply N.eqb_neq; lia).
  - apply not_true_is_false. intros G. revert G.
    unfold is_float_space, is_space, in_range.
    rewrite !orb_true_iff, !andb_true_iff, !N.leb_le, !N.eqb_eq. lia.
  - unfold ascii_lower, in_range.
    destruct (N.leb_spec 65 c); [lia|reflexivity].
Qed.

Lemma str_eqb_heads x l y l' : x <> y -> str_eqb (x :: l) (y :: l') = false.
Proof.
  intros H. destruct (str_eqb (x :: l) (y :: l')) eqn:E; [|reflexivity].
  apply str_eqb_eq in E. injection E as E _. contradiction.
Qed.

(** Digits, a point and digits are read as the decimal number they
    write. *)
Lemma float_of_digits ip fp :
  ip <> [] -> forallb is_digit ip = true -> forallb is_digit fp = true ->
  float_of_str (ip ++ 46%N :: fp) = Some (Fin (decimal_value ip fp)).
Proof.
  intros Hne Hip Hfp.
  assert (Hall : forallb digit_or_point (ip ++ 46%N :: fp) = true).
  { rewrite forallb_app. apply andb_true_intro. split.
    - revert Hip. apply forallb_weaken. unfold digit_or_point. intros x ->. reflexivity.
    - simpl. revert Hfp. apply forallb_weaken. unfold digit_or_point. intros x ->.
      reflexivity. }
  unfold float_of_str.
  rewrite underscores_none; [| |reflexivity].
  2:{ revert Hall. apply forallb_weaken. intros x Hx.
      destruct (digit_or_point_plain x Hx) as (-> & _). reflexivity. }
  rewrite strip_id.
  2:{ revert Hall. apply forallb_weaken. intros x Hx.
      destruct (digit_or_point_plain x Hx) as (_ & -> & _). reflexivity. }
  destruct ip as [|d ip]; [congruence|]. clear Hne.
  simpl in Hip. apply andb_prop in Hip. destruct Hip as [Hd Hip].
  assert (Hdp : digit_or_point d = true) by (unfold digit_or_point; rewrite Hd; reflexivity).
  destruct (digit_or_point_plain d Hdp) as (_ & _ & Hlow & H45 & H43 & Hi & Hn).
  cbn [app take_sign]. rewrite H45, H43. cbn [List.map]. rewrite Hlow.
  change (u "inf") with [105%N; 110%N; 102%N].
  change (u "infinity") with [105%N; 110%N; 102%N; 105%N; 110%N; 105%N; 116%N; 121%N].
  change (u "nan") with [110%N; 97%N; 110%N].
  rewrite !str_eqb_heads;
    [|apply N.eqb_neq, Hn|apply N.eqb_neq, Hi|apply N.eqb_neq, Hi].
  cbn [orb]. unfold parse_decimal.
  change (d :: ip ++ 46%N :: fp) with ((d :: ip) ++ 46%N :: fp).
  rewrite (@span_digits_app (d :: ip) (46%N :: fp));
    [|simpl; rewrite Hd; exact Hip|reflexivity].
  rewrite N.eqb_refl. rewrite <- (app_nil_r fp) at 1.
  rewrite (@span_digits_app fp []); [|exact Hfp|reflexivity].
  cbn [app take_exponent]. unfold decimal_value.
  rewrite Z.mul_1_l, Z.sub_0_l. reflexivity.
Qed.

Lemma has_digit_not_sentinel t :
  existsb is_digit t = true -> str_eqb t (u "brak informacji") = false.
Proof.
  intros H. apply str_eqb_neq. intros ->. discriminate H.
Qed.


(** *** Rent: C6 *)




End NormalizerFacts.

(** ** Outlier Filter (step 10) *)

Module OutlierFacts.
Import Pd Notebook PdFacts.

(** The filter as the specification words it: quartiles over the present
    values, the inter-quartile range, and the strict fence; a row with a
    missing value is out. *)
Definition present_values (v : list fval) : list fval :=
  filter (fun x => negb (isna x)) v.

Definition spec_keep (v : list fval) (x : fval) : bool :=
  let Q1 := quantile 0.25 (present_values v) in
  let Q3 := quantile 0.75 (present_values v) in
  let IQR := fsub Q3 Q1 in
  negb (isna x)
  && flt (fsub Q1 (fmul (Fin 1.5) IQR)) x
  && flt x (fadd Q3 (fmul (Fin 1.5) IQR)).

Definition spec_mask (v : list fval) : list bool := List.map (spec_keep v) v.

Lemma present_values_idem v : present_values (present_values v) = present_values v.
Proof.
  unfold present_values. induction v as [|x v IH]; simpl; [reflexivity|].
  destruct (isna x) eqn:E; simpl; [exact IH|]. rewrite E. simpl. f_equal. exact IH.
Qed.

(** The quantile does not see the missing values. *)
Lemma quantile_present q v : quantile q (present_values v) = quantile q v.
Proof.
  unfold quantile. fold (present_values v). fold (present_values (present_values v)).
  rewrite present_values_idem. reflexivity.
Qed.

Lemma flt_nan_r x : flt x NaN = false.
Proof. destruct x; reflexivity. Qed.

Lemma flt_not_nan_r x y : flt x y = true -> isna y = false.
Proof. destruct y; try reflexivity. rewrite flt_nan_r. discriminate. Qed.

Lemma mask_combine {A : Type} (f g : A -> bool) (l : list A) :
  List.map (fun ab => andb (fst ab) (snd ab)) (combine (List.map f l) (List.map g l))
  = List.map (fun x => f x && g x) l.
Proof.
  induction l as [|x l IH]; simpl; [reflexivity|]. rewrite IH. reflexivity.
Qed.

Lemma select_map {A B : Type} (f : A -> B) mask (l : list A) :
  select mask (List.map f l) = List.map f (select mask l).
Proof.
  revert mask. induction l as [|x l IH]; intros [|b mask]; simpl; try reflexivity.
  destruct b; simpl; rewrite IH; reflexivity.
Qed.

(** The code's mask is the specification's. *)
Lemma remove_outliers_mask df column c v :
  getcol df column = Ok c -> floats c = Ok v ->
  remove_outliers df column = Ok (loc (spec_mask v) df).
Proof.
  intros Hc Hv. unfold remove_outliers. rewrite Hc. simpl. rewrite Hv. simpl.
  rewrite mask_combine. do 2 f_equal. unfold spec_mask.
  apply map_ext. intros x. unfold spec_keep, fence_lo, fence_hi, fgt.
  rewrite !quantile_present.
  destruct (flt (fsub (quantile 0.25 v)
                      (fmul (Fin 1.5) (fsub (quantile 0.75 v) (quantile 0.25 v)))) x) eqn:E.
  - rewrite (flt_not_nan_r _ _ E). reflexivity.
  - rewrite andb_false_r. reflexivity.
Qed.

Lemma spec_keep_present v x : spec_keep v x = true -> isna x = false.
Proof.
  unfold spec_keep. intros H. apply andb_prop in H. destruct H as [H _].
  apply andb_prop in H. destruct H as [H _]. destruct (isna x); [discriminate|reflexivity].
Qed.

(** A successful filter had a numeric column to work on. *)
Lemma remove_outliers_inv df column df' :
  remove_outliers df column = Ok df' ->
  exists c v, getcol df column = Ok c /\ floats c = Ok v
              /\ df' = loc (spec_mask v) df.
Proof.
  intros H. unfold remove_outliers in H.
  destruct (getcol df column) as [c|] eqn:Hc; simpl in H; [|discriminate].
  destruct (floats c) as [v|] eqn:Hv; simpl in H; [|discriminate].
  exists c, v. repeat split; auto.
  pose proof (remove_outliers_mask df column Hc Hv) as H'.
  unfold remove_outliers in H'. rewrite Hc in H'. simpl in H'. rewrite Hv in H'.
  simpl in H'. congruence.
Qed.


End OutlierFacts.

(** ** Sample frames *)

Module Samples.
Import Pd.

Definition T (s : string) : cell := Text (u s).

(** Six listings as they would be read from the CSV. *)
Definition listings : DataFrame :=
  [ (u "title", [T "a"; T "b"; T "c"; T "d"; T "e"; T "f"]);
    (u "size", [T "10 m²"; T "20 m²"; T "30 m²"; T "40 m²"; T "0 m²"; T "25 m²"]);
    (u "price", [T "-5 zł"; T "100 zł"; T "200 zł"; T "300 zł"; T "400 zł";
                 T "Price not available"]);
    (u "Czynsz", [T "1 234,50 zł"; T "brak informacji"; NA; T "5 zł"; T "6 zł"; T "7 zł"]);
    (u "location", [T "Mokotów, Śródmieście, Warszawa, mazowieckie"; T "Warszawa"; NA;
                    T "a, b"; T "x y, z, w"; T ""]);
    (u "Informacje dodatkowe", [T "Balkon, TARAS"; NA; T "pomX użytkowe";
                                T "garaż/miejsce parkingowe"; T "pom. użytkowe"; T ""]) ].

(** A cleaned frame with one price outlier and one missing price. *)
Definition priced : DataFrame :=
  [ (u "price", List.map Num [Fin 100; Fin 200; Fin 300; Fin 400; Fin 10000; NaN]);
    (u "size", List.map Num [Fin 10; Fin 20; Fin 30; Fin 40; Fin 50; Fin 25]) ].

(** Five sound listings with every column the notebook uses. *)
Definition catalogue : DataFrame :=
  [ (u "title", [T "a"; T "b"; T "c"; T "d"; T "e"]);
    (u "size", [T "30 m²"; T "45,5 m²"; T "52 m²"; T "61 m²"; T "75 m²"]);
    (u "price", [T "300 000 zł"; T "450 000 zł"; T "520 000 zł"; T "610 000 zł";
                 T "750 000 zł"]);
    (u "Czynsz", [T "500 zł"; T "brak informacji"; T "1 234,50 zł"; NA; T "700 zł"]);
    (u "location", [T "Mokotów, Śródmieście, Warszawa, mazowieckie";
                    T "Wola, Warszawa, mazowieckie"; T "Warszawa"; NA;
                    T "Bemowo, Warszawa, mazowieckie"]);
    (u "Informacje dodatkowe", [T "balkon, taras"; NA; T "pom. użytkowe"; T "piwnica";
                                T "garaż/miejsce parkingowe"]);
    (u "Ogrzewanie", [T "miejskie"; T "gazowe"; NA; T "miejskie"; T "miejskie"]);
    (u "Piętro", [T "1/4"; T "parter/3"; T "2/10"; T "1/4"; NA]);
    (u "Stan wykończenia", [T "do zamieszkania"; T "do remontu"; NA; NA; T "do zamieszkania"]);
    (u "Rynek", [T "wtórny"; T "pierwotny"; T "wtórny"; T "wtórny"; T "wtórny"]);
    (u "Forma własności", [T "pełna własność"; NA; NA; T "pełna własność"; NA]);
    (u "Typ ogłoszeniodawcy", [T "prywatny"; T "biuro nieruchomości"; T "prywatny";
                                T "prywatny"; T "biuro nieruchomości"]) ].

End Samples.

(** ** Cleaning invariants *)

Module CleaningFacts.
Import Pd Notebook PdFacts NormalizerFacts OutlierFacts Samples.

Lemma bind_ok {A B : Type} (r : result A) (k : A -> result B) (b : B) :
  (x <- r ;; k x) = Ok b -> exists a, r = Ok a /\ k a = Ok b.
Proof. destruct r as [a|e]; simpl; [eauto|discriminate]. Qed.

Lemma filtered_present v : Forall present (List.map Num (filter (spec_keep v) v)).
Proof.
  apply Forall_forall. intros c Hc. apply in_map_iff in Hc.
  destruct Hc as (x & <- & Hx). apply filter_In in Hx. destruct Hx as [_ Hx].
  exists x. split; [reflexivity|]. eapply spec_keep_present; eauto.
Qed.

(** After step 7 the price column holds numbers only, none of them NaN. *)
Lemma step7_prices_present df df' :
  step7 df = Ok df' ->
  exists col, getcol df' (u "price") = Ok col /\ Forall present col.
Proof.
  unfold step7. intros H.
  apply bind_ok in H. destruct H as (c & Hc & H).
  apply bind_ok in H. destruct H as (c' & Hc' & H).
  unfold dropna in H. rewrite getcol_setcol_same in H. simpl in H.
  injection H as <-. rewrite getcol_loc, getcol_setcol_same. simpl.
  eexists. split; [reflexivity|].
  pose proof (astype_float_numeric _ Hc') as Hnum.
  pose proof (select_map_Forall (fun x => negb (cell_isna x)) c') as Hsel.
  assert (Hnum' := select_Forall (List.map (fun x => negb (cell_isna x)) c') Hnum).
  rewrite Forall_forall in *. intros x Hx.
  destruct (Hnum' x Hx) as (f & ->). specialize (Hsel _ Hx). simpl in Hsel.
  exists f. split; [reflexivity|]. destruct f; simpl in *; try reflexivity. discriminate.
Qed.

(** After step 10 the price and the size column hold numbers only, none
    of them NaN. *)
Lemma step10_present df df' :
  step10 df = Ok df' ->
  exists ps ss, getcol df' (u "price") = Ok ps /\ getcol df' (u "size") = Ok ss
                /\ Forall present ps /\ Forall present ss.
Proof.
  unfold step10. intros H. apply bind_ok in H. destruct H as (df1 & H1 & H2).
  apply remove_outliers_inv in H1. destruct H1 as (cp & vp & Hcp & Hvp & ->).
  apply remove_outliers_inv in H2. destruct H2 as (cs & vs & Hcs & Hvs & ->).
  rewrite getcol_loc in Hcs. rewrite !getcol_loc, Hcp.
  destruct (getcol df (u "size")) as [cs0|] eqn:Hcs0; simpl in Hcs; [|discriminate].
  injection Hcs as <-. simpl.
  do 2 eexists. split; [reflexivity|]. split; [reflexivity|]. split.
  - apply select_Forall. rewrite (floats_numeric _ Hvp), select_map.
    unfold spec_mask at 1. rewrite select_map_filter. apply filtered_present.
  - rewrite (floats_numeric _ Hvs). unfold spec_mask at 1.
    rewrite select_map, select_map_filter. apply filtered_present.
Qed.

Definition positive (c : cell) : bool :=
  match c with
  | Num x => flt (Fin 0) x
  | _ => false
  end.

(** C2 as the spec states it fails: a price of zero survives step 7, and a
    negative price and a size of zero survive the whole cleaning. *)
Lemma C2_nonpositive_values_survive :
  (df <- step7 [(u "price", [T "0 zł"])] ;; getcol df (u "price")) = Ok [Num (Fin 0)]
  /\ positive (Num (Fin 0)) = false
  /\ (df <- clean listings ;; getcol df (u "price"))
     = Ok (List.map Num [Fin (-5); Fin 100; Fin 200; Fin 300; Fin 400])
  /\ (df <- clean listings ;; getcol df (u "size"))
     = Ok (List.map Num [Fin 10; Fin 20; Fin 30; Fin 40; Fin 0])
  /\ step7 [(u "price", [T "Zapytaj o cenę"])] = Raise ValueError.
Proof. repeat split; vm_compute; reflexivity. Qed.

(** The rows step 7 drops are those whose cleaned price is NaN. *)
Lemma step7_drops_missing df s c' :
  getcol df (u "price") = Ok s -> clean_price s = Ok c' ->
  exists df', step7 df = Ok df'
              /\ getcol df' (u "price") = Ok (filter (fun c => negb (cell_isna c)) c').
Proof.
  intros Hs Hc. unfold step7, dropna. rewrite Hs. cbn [bind]. rewrite Hc. cbn [bind].
  rewrite getcol_setcol_same. cbn [bind]. eexists. split; [reflexivity|].
  rewrite getcol_loc, getcol_setcol_same. cbn [bind].
  rewrite select_map_filter. reflexivity.
Qed.

(** C2, amended: after step 7 every surviving row has a price that is a
    number; the rows dropped are those whose cleaned price is NaN, which
    is the case of an empty cell and of the sentinel; a price text that
    [float] rejects raises ValueError.  After the whole cleaning every
    surviving row has a price and a size that are numbers. *)
Theorem C2_cleaned_values_present :
  (forall df df', step7 df = Ok df' ->
     exists col, getcol df' (u "price") = Ok col /\ Forall present col)
  /\ (forall df s c', getcol df (u "price") = Ok s -> clean_price s = Ok c' ->
        exists df', step7 df = Ok df'
          /\ getcol df' (u "price") = Ok (filter (fun c => negb (cell_isna c)) c'))
  /\ (price_cell (T "Price not available") = NA /\ price_cell NA = NA)
  /\ (forall df s t, getcol df (u "price") = Ok s -> In (Text t) s ->
        price_text t <> u "Pricenotavailable" ->
        float_of_str (price_text t) = None ->
        step7 df = Raise ValueError)
  /\ (forall df df', clean df = Ok df' ->
        exists ps ss, getcol df' (u "price") = Ok ps /\ getcol df' (u "size") = Ok ss
                      /\ Forall present ps /\ Forall present ss).
Proof.
  split; [|split; [|split; [|split]]].
  - apply step7_prices_present.
  - apply step7_drops_missing.
  - split; reflexivity.
  - intros df s t Hs Hin Hne Ht. unfold step7. rewrite Hs. simpl.
    rewrite clean_price_cells.
    rewrite (@astype_raises _ (price_text t)); [reflexivity| | |exact Ht].
    + apply cleaned_cells, price_cell_shape.
    + apply in_map_iff. exists (Text t). split; [|exact Hin]. simpl.
      destruct (str_eqb (price_text t) (u "Pricenotavailable")) eqn:E; [|reflexivity].
      apply str_eqb_eq in E. contradiction.
  - intros df df' H. unfold clean in H.
    do 7 (apply bind_ok in H; destruct H as (? & _ & H)).
    eapply step10_present. exact H.
Qed.

Lemma C2_cleaned_values_present_witness :
  (exists col, getcol [(u "price", [Num (Fin 500000)])] (u "price") = Ok col
               /\ Forall present col)
  /\ step7 [(u "price", [T "500 000 zł"; T "cena do negocjacji"])] = Raise ValueError.
Proof.
  destruct C2_cleaned_values_present as (H1 & _ & _ & H2 & _). split.
  - apply (H1 [(u "price", [T "Price not available"; T "500 000 zł"])]). reflexivity.
  - apply (H2 _ [T "500 000 zł"; T "cena do negocjacji"] (u "cena do negocjacji"));
      [reflexivity|right; left; reflexivity|discriminate|reflexivity].
Defined.


End CleaningFacts.

(** ** Target Transformer (steps 11 and 16) *)

Module TargetFacts.
Import Pd Sk Notebook Model PdFacts Samples.








End TargetFacts.

(** ** Amenity Extractor (step 9) *)

Module AmenityFacts.
Import Re ReFacts Pd Notebook PdFacts NormalizerFacts Samples.






















Lemma amenity_columns_distinct : NoDup (List.map amenity_column amenities).
Proof.
  repeat (constructor;
          [intros H; simpl in H; repeat (destruct H as [H|H]; [discriminate H|]);
           exact H|]).
  constructor.
Qed.









End AmenityFacts.

(** ** The column groups (step 13) *)

Module ColumnFacts.
Import Pd Notebook PdFacts CleaningFacts.

Definition HAS_CZYNSZ : str := u "has_czynsz".

Lemma columns_setcol_In df name v x :
  In x (columns df) -> In x (columns (setcol df name v)).
Proof.
  unfold columns. induction df as [|[n c] df IH]; simpl; [tauto|].
  destruct (str_eqb n name); simpl; [tauto|]. intros [H|H]; auto.
Qed.

Lemma columns_setcol_new df name v : In name (columns (setcol df name v)).
Proof.
  unfold columns. induction df as [|[n c] df IH]; simpl; [auto|].
  destruct (str_eqb n name) eqn:E; simpl; [|auto].
  apply str_eqb_eq in E. auto.
Qed.

Lemma columns_setcol_inv df name v x :
  In x (columns (setcol df name v)) -> x = name \/ In x (columns df).
Proof.
  unfold columns. induction df as [|[n c] df IH]; simpl.
  - intros [H|[]]. auto.
  - destruct (str_eqb n name); simpl; [tauto|].
    intros [H|H]; [auto|]. destruct (IH H); auto.
Qed.

Lemma columns_setcol_NoDup df name v :
  NoDup (columns df) -> NoDup (columns (setcol df name v)).
Proof.
  unfold columns. induction df as [|[n c] df IH]; simpl; intros H.
  - constructor; [tauto|constructor].
  - inversion H as [|x l Hn Hd]; subst x l.
    destruct (str_eqb n name) eqn:E; simpl; [constructor; assumption|].
    constructor; [|apply IH, Hd].
    intros Hin. apply (columns_setcol_inv df name v) in Hin.
    destruct Hin as [->|Hin]; [|contradiction].
    assert (Hrefl : str_eqb name name = true) by (apply str_eqb_eq; reflexivity).
    congruence.
Qed.

Lemma columns_loc mask df : columns (loc mask df) = columns df.
Proof.
  unfold columns, loc. rewrite map_map. apply map_ext. intros [n c]. reflexivity.
Qed.

Lemma columns_drop names df df' :
  drop names df = Ok df' ->
  columns df' = filter (fun n => negb (existsb (str_eqb n) names)) (columns df).
Proof.
  unfold drop. destruct (forallb (has_column df) names); [|discriminate].
  intros H. injection H as <-. unfold columns.
  induction df as [|[n c] df IH]; simpl; [reflexivity|].
  destruct (existsb (str_eqb n) names); simpl; [exact IH|]. f_equal. exact IH.
Qed.

(** The two facts about the column names that the cells maintain. *)
Definition distinct (df : DataFrame) : Prop := NoDup (columns df).
Definition has_indicator (df : DataFrame) : Prop := In HAS_CZYNSZ (columns df).

Definition keeps (f : DataFrame -> result DataFrame) : Prop :=
  forall df df', f df = Ok df' ->
    (distinct df -> distinct df') /\ (has_indicator df -> has_indicator df').

Lemma keeps_drop names :
  existsb (str_eqb HAS_CZYNSZ) names = false -> keeps (drop names).
Proof.
  intros Hn df df' H. unfold distinct, has_indicator.
  rewrite (columns_drop _ _ H). split.
  - apply NoDup_filter.
  - intros Hin. apply filter_In. split; [exact Hin|]. rewrite Hn. reflexivity.
Qed.

Lemma keeps_seq f g : keeps f -> keeps g -> keeps (fun df => d <- f df ;; g d).
Proof.
  intros Hf Hg df df' H. apply bind_ok in H. destruct H as (d & H1 & H2).
  destruct (Hf _ _ H1), (Hg _ _ H2). tauto.
Qed.

Tactic Notation "unbind" hyp(H) integer(n) :=
  do n (apply bind_ok in H; destruct H as (? & _ & H)).

Lemma keeps_step3 : keeps step3.
Proof.
  intros df df' H. unfold step3 in H. unbind H 2. injection H as <-.
  split; [apply columns_setcol_NoDup|apply columns_setcol_In].
Qed.

Lemma keeps_step4 : keeps step4.
Proof.
  intros df df' H. unfold step4 in H. unbind H 2. injection H as <-.
  split; [apply columns_setcol_NoDup|apply columns_setcol_In].
Qed.

Lemma keeps_step5 : keeps step5.
Proof.
  intros df df' H. unfold step5 in H. unbind H 1. injection H as <-.
  split; [apply columns_setcol_NoDup|apply columns_setcol_In].
Qed.

(** Step 5 creates the indicator column. *)
Lemma step5_has_indicator df df' : step5 df = Ok df' -> has_indicator df'.
Proof.
  intros H. unfold step5 in H. unbind H 1. injection H as <-.
  apply columns_setcol_new.
Qed.

Lemma keeps_step6 : keeps step6.
Proof.
  intros df df' H. unfold step6 in H. unbind H 6. cbv zeta in H.
  destruct (@keeps_drop [u "location"] eq_refl _ _ H) as [Hd Hi].
  split; intros H0.
  - apply Hd. repeat apply columns_setcol_NoDup. exact H0.
  - apply Hi. repeat apply columns_setcol_In. exact H0.
Qed.

Lemma keeps_step7 : keeps step7.
Proof.
  intros df df' H. unfold step7 in H. unbind H 2. unfold dropna in H.
  unbind H 1. injection H as <-. unfold distinct, has_indicator.
  rewrite columns_loc. split; [apply columns_setcol_NoDup|apply columns_setcol_In].
Qed.

Lemma keeps_step8 : keeps step8.
Proof.
  intros df df' H. unfold step8 in H. unbind H 4. injection H as <-.
  split; [apply columns_setcol_NoDup|apply columns_setcol_In].
Qed.

Lemma keeps_extract_loop todo : keeps (extract_loop todo).
Proof.
  induction todo as [|a todo IH]; intros df df' H; simpl in H.
  - injection H as <-. tauto.
  - unbind H 2. destruct (IH _ _ H) as [Hd Hi]. split; intros H0.
    + apply Hd, columns_setcol_NoDup, H0.
    + apply Hi, columns_setcol_In, H0.
Qed.

Lemma keeps_step9 : keeps step9.
Proof.
  apply keeps_seq; [apply keeps_extract_loop|].
  apply keeps_drop. reflexivity.
Qed.

Lemma keeps_remove_outliers column : keeps (fun df => remove_outliers df column).
Proof.
  intros df df' H. apply OutlierFacts.remove_outliers_inv in H.
  destruct H as (c & v & _ & _ & ->). unfold distinct, has_indicator.
  rewrite columns_loc. tauto.
Qed.

Lemma keeps_step10 : keeps step10.
Proof. apply keeps_seq; apply keeps_remove_outliers. Qed.

Lemma keeps_step11 : keeps step11.
Proof.
  intros df df' H. unfold step11 in H. unbind H 2. injection H as <-.
  split; [apply columns_setcol_NoDup|apply columns_setcol_In].
Qed.

(** After steps 3 to 11 the frame has the column [has_czynsz], and its
    column names are distinct if those of the CSV were. *)
Lemma prepare_columns df df' :
  prepare df = Ok df' -> has_indicator df' /\ (distinct df -> distinct df').
Proof.
  unfold prepare, clean. intros H.
  apply bind_ok in H. destruct H as (df10 & H & H11).
  apply bind_ok in H. destruct H as (df3 & H3 & H).
  apply bind_ok in H. destruct H as (df4 & H4 & H).
  apply bind_ok in H. destruct H as (df5 & H5 & H).
  apply bind_ok in H. destruct H as (df6 & H6 & H).
  apply bind_ok in H. destruct H as (df7 & H7 & H).
  apply bind_ok in H. destruct H as (df8 & H8 & H).
  apply bind_ok in H. destruct H as (df9 & H9 & H10).
  pose proof (step5_has_indicator _ H5) as Hi.
  destruct (keeps_step3 _ H3), (keeps_step4 _ H4), (keeps_step5 _ H5),
    (keeps_step6 _ H6), (keeps_step7 _ H7), (keeps_step8 _ H8), (keeps_step9 _ H9),
    (keeps_step10 _ H10), (keeps_step11 _ H11).
  tauto.
Qed.

Definition str_eq_dec : forall a b : str, {a = b} + {a <> b} := list_eq_dec N.eq_dec.

Definition occurrences (name : str) (l : list str) : nat := count_occ str_eq_dec l name.

Lemma occurrences_filter (f : str -> bool) name l :
  f name = true -> occurrences name (filter f l) = occurrences name l.
Proof.
  intros Hf. unfold occurrences. induction l as [|x l IH]; simpl; [reflexivity|].
  destruct (f x) eqn:E; simpl.
  - destruct (str_eq_dec x name); [f_equal|]; exact IH.
  - destruct (str_eq_dec x name) as [->|_]; [congruence|exact IH].
Qed.

(** The list handed to the numeric branch names [has_czynsz] once
    explicitly and once more for each column of that name. *)
Lemma numerical_features_occurrences df :
  occurrences HAS_CZYNSZ (numerical_features df)
  = 1 + occurrences HAS_CZYNSZ (columns df).
Proof.
  unfold numerical_features, occurrences. rewrite count_occ_app.
  change (count_occ str_eq_dec [u "size"; u "Czynsz"; u "has_czynsz"; u "price_per_sqm"]
            HAS_CZYNSZ) with 1.
  f_equal. apply (occurrences_filter (startswith (u "has_"))). reflexivity.
Qed.

End ColumnFacts.

(** ** Feature Pipeline (steps 13 to 16) *)

Module PipelineFacts.
Import Pd Sk Notebook Model PdFacts CleaningFacts ColumnFacts Samples.

Lemma mapM_cons_inv {A B : Type} (f : A -> result B) a l r :
  mapM f (a :: l) = Ok r ->
  exists b bs, r = b :: bs /\ f a = Ok b /\ mapM f l = Ok bs.
Proof.
  simpl. intros H. apply bind_ok in H. destruct H as (b & Hb & H).
  apply bind_ok in H. destruct H as (bs & Hbs & H). injection H as <-. eauto.
Qed.

Lemma mapM_app_inv {A B : Type} (f : A -> result B) l1 l2 r :
  mapM f (l1 ++ l2) = Ok r ->
  exists r1 r2, r = r1 ++ r2 /\ mapM f l1 = Ok r1 /\ mapM f l2 = Ok r2.
Proof.
  rewrite mapM_app. intros H. apply bind_ok in H. destruct H as (r1 & H1 & H).
  apply bind_ok in H. destruct H as (r2 & H2 & H). injection H as <-. eauto.
Qed.

(** An element listed twice is mapped twice, to the same result. *)
Lemma mapM_twice {A B : Type} (f : A -> result B) l1 l2 l3 x r :
  mapM f (l1 ++ x :: l2 ++ x :: l3) = Ok r ->
  exists r1 r2 r3 y, r = r1 ++ y :: r2 ++ y :: r3 /\ f x = Ok y.
Proof.
  intros H. apply mapM_app_inv in H. destruct H as (r1 & r' & -> & _ & H).
  apply mapM_cons_inv in H. destruct H as (y & r'' & -> & Hy & H).
  apply mapM_app_inv in H. destruct H as (r2 & r''' & -> & _ & H).
  apply mapM_cons_inv in H. destruct H as (y' & r3 & -> & Hy' & _).
  assert (y' = y) by congruence. subst y'. exists r1, r2, r3, y. auto.
Qed.

Lemma concat_twice {A : Type} (b1 b2 b3 : list (list A)) (B : list A) :
  List.concat (b1 ++ B :: b2 ++ B :: b3)
  = List.concat b1 ++ B ++ List.concat b2 ++ B ++ List.concat b3.
Proof.
  rewrite concat_app. simpl. rewrite concat_app. simpl. reflexivity.
Qed.

(** The numeric column list names [has_czynsz] at two places. *)
Lemma numerical_features_twice df :
  has_indicator df ->
  exists l1 l2 l3,
    numerical_features df = l1 ++ HAS_CZYNSZ :: l2 ++ HAS_CZYNSZ :: l3.
Proof.
  intros H. unfold numerical_features.
  assert (Hin : In HAS_CZYNSZ (filter (startswith (u "has_")) (columns df))).
  { apply filter_In. split; [exact H|reflexivity]. }
  apply in_split in Hin. destruct Hin as (s1 & s2 & ->).
  exists [u "size"; u "Czynsz"], (u "price_per_sqm" :: s1), s2. reflexivity.
Qed.

(** What the fitted preprocessor puts out for a column list that names a
    column twice: the same block twice. *)
Lemma transform_twice fsqrt nums cats name Xtr X st M :
  (exists l1 l2 l3, nums = l1 ++ name :: l2 ++ name :: l3) ->
  ct_fit fsqrt nums cats Xtr = Ok st ->
  ct_transform st X = Ok M ->
  exists m1 m2 m3 B ltr s l,
    M = m1 ++ B ++ m2 ++ B ++ m3
    /\ num_column Xtr name = Ok ltr /\ fit_num fsqrt ltr = Ok s
    /\ num_column X name = Ok l /\ transform_num s l = Ok B.
Proof.
  intros (l1 & l2 & l3 & ->) Hfit Htr.
  unfold ct_fit in Hfit. apply bind_ok in Hfit. destruct Hfit as (ns & Hns & Hfit).
  apply bind_ok in Hfit. destruct Hfit as (cs & _ & Hfit). injection Hfit as <-.
  apply mapM_twice in Hns. destruct Hns as (r1 & r2 & r3 & y & -> & Hy).
  apply bind_ok in Hy. destruct Hy as (ltr & Hltr & Hy).
  apply bind_ok in Hy. destruct Hy as (s & Hs & Hy). injection Hy as <-.
  unfold ct_transform in Htr. apply bind_ok in Htr. destruct Htr as (nb & Hnb & Htr).
  apply bind_ok in Htr. destruct Htr as (cb & _ & Htr). injection Htr as <-.
  unfold num_block in Hnb. cbn [num_] in Hnb.
  apply mapM_twice in Hnb. destruct Hnb as (b1 & b2 & b3 & B & -> & HB).
  cbn [fst snd] in HB. apply bind_ok in HB. destruct HB as (l & Hl & HB).
  exists (List.concat b1), (List.concat b2), (List.concat b3 ++ List.concat cb), B, ltr, s, l.
  repeat split; auto.
  unfold matrix in *. rewrite (concat_twice b1 b2 b3 B), <- !app_assoc. reflexivity.
Qed.

(** A column with a value in the training partition is not dropped: its
    block is one standardized column. *)
Lemma transform_num_kept fsqrt ltr s l B :
  fit_num fsqrt ltr = Ok s -> finite ltr <> [] -> transform_num s l = Ok B ->
  exists st, s = Some st
    /\ B = [List.map (fun x => Qred ((x - mean_ st) / scale_ st)) (impute (statistic st) l)].
Proof.
  unfold fit_num, transform_num. intros Hs Hf HB.
  destruct (existsb is_inf ltr); [discriminate|].
  destruct ltr as [|x0 ltr0]; [discriminate|].
  destruct (finite (x0 :: ltr0)) as [|q vals]; [congruence|].
  injection Hs as <-. eexists. split; [reflexivity|].
  destruct (existsb is_inf l); [discriminate|]. injection HB as <-. reflexivity.
Qed.

(** The numeric branch on the column 50, NaN, 70: the missing value is
    imputed with the mean 60 of the other two, and a later value of 1000
    is scaled with the stored statistics. *)
Example fit_num_sizes (fsqrt : Q -> Q) :
  fit_num fsqrt [Fin 50; NaN; Fin 70] = Ok (Some (NumStats 60 60 (fsqrt (Qred (200 # 3)))))
  /\ transform_num (Some (NumStats 60 60 10)) [Fin 1000; NaN] = Ok [[94%Q; 0%Q]].
Proof. split; reflexivity. Qed.

(** C10: the list of numeric columns names [has_czynsz] twice, once
    explicitly and once through the [has_] scan, and the preprocessor fitted
    with that list puts the same block out twice: the standardized
    rent-missing indicator, whenever the training partition has a value
    in that column. *)
Theorem C10_indicator_listed_twice (df df' : DataFrame) :
  prepare df = Ok df' ->
  (exists l1 l2 l3,
     numerical_features df' = l1 ++ HAS_CZYNSZ :: l2 ++ HAS_CZYNSZ :: l3)
  /\ (distinct df -> occurrences HAS_CZYNSZ (numerical_features df') = 2)
  /\ (forall fsqrt Xtr X st M,
        ct_fit fsqrt (numerical_features df') categorical_features Xtr = Ok st ->
        ct_transform st X = Ok M ->
        exists m1 m2 m3 B ltr s l,
          M = m1 ++ B ++ m2 ++ B ++ m3
          /\ num_column Xtr HAS_CZYNSZ = Ok ltr /\ fit_num fsqrt ltr = Ok s
          /\ num_column X HAS_CZYNSZ = Ok l /\ transform_num s l = Ok B
          /\ (finite ltr <> [] ->
              exists k, s = Some k
                /\ B = [List.map (fun x => Qred ((x - mean_ k) / scale_ k))
                                 (impute (statistic k) l)])).
Proof.
  intros Hp. destruct (prepare_columns _ Hp) as [Hi Hd].
  split; [apply numerical_features_twice, Hi|]. split.
  - intros Hdf. rewrite numerical_features_occurrences. unfold occurrences.
    rewrite (proj1 (NoDup_count_occ' str_eq_dec (columns df')) (Hd Hdf) _ Hi).
    reflexivity.
  - intros fsqrt Xtr X st M Hfit Htr.
    destruct (@transform_twice fsqrt _ _ HAS_CZYNSZ Xtr X st M
                (@numerical_features_twice df' Hi) Hfit Htr)
      as (m1 & m2 & m3 & B & ltr & s & l & HM & Hltr & Hs & Hl & HB).
    exists m1, m2, m3, B, ltr, s, l. repeat split; auto.
    intros Hf. apply (@transform_num_kept fsqrt ltr s l B Hs Hf HB).
Qed.

Lemma C10_indicator_listed_twice_witness :
  exists df', prepare catalogue = Ok df'
              /\ occurrences HAS_CZYNSZ (numerical_features df') = 2.
Proof.
  destruct (prepare catalogue) as [df'|e] eqn:E; [|vm_compute in E; discriminate E].
  exists df'. split; [reflexivity|].
  apply (@C10_indicator_listed_twice catalogue df' E).
  repeat (constructor;
          [intros H; simpl in H; repeat (destruct H as [H|H]; [discriminate H|]);
           exact H|]).
  constructor.
Defined.






End PipelineFacts.

(** * Further properties: formats, invariants and edge cases *)

(** ** Size and price text (steps 3 and 7) *)

Module FormatFacts.
Import Re Pd Notebook PdFacts NormalizerFacts.

(** A literal pattern consumes its own text. *)
Lemma mt_lit_app t p : forall s pos st,
  mt false (lit t ++ p) (t ++ s) pos st = mt false p s (pos + List.length t) st.
Proof.
  induction t as [|c t IH]; intros s pos st; simpl.
  - rewrite Nat.add_0_r. reflexivity.
  - rewrite N.eqb_refl. unfold lit in IH. rewrite IH. f_equal. lia.
Qed.

Lemma match_end_lit_self t pos :
  ReSub.match_end false (lit t) t pos = Some (pos + List.length t).
Proof.
  unfold ReSub.match_end. cbn [mt]. rewrite <- (app_nil_r t) at 2.
  rewrite mt_lit_app. reflexivity.
Qed.

Lemma match_end_lit_miss c r x s pos :
  (x =? c)%N = false -> ReSub.match_end false (lit (c :: r)) (x :: s) pos = None.
Proof. intros H. unfold ReSub.match_end. simpl. rewrite H. reflexivity. Qed.

(** The characters of a match are dropped. *)
Lemma sub_from_skip_all c r repl : forall s pos,
  ReSub.sub_from false (lit (c :: r)) repl s pos (List.length s) = [].
Proof.
  induction s as [|x s IH]; intros pos.
  - reflexivity.
  - cbn [ReSub.sub_from List.length]. apply IH.
Qed.

(** A literal suffix whose first character does not occur before it is
    the only match. *)
Lemma sub_lit_suffix c r : forall w pos,
  forallb (fun x => negb (x =? c)%N) w = true ->
  ReSub.sub_from false (lit (c :: r)) [] (w ++ c :: r) pos 0 = w.
Proof.
  induction w as [|x w IH]; intros pos Hw.
  - cbn [app ReSub.sub_from]. rewrite match_end_lit_self.
    assert (Hlt : Nat.ltb pos (pos + List.length (c :: r)) = true)
      by (apply Nat.ltb_lt; simpl; lia).
    rewrite Hlt. cbn [app].
    replace (pos + List.length (c :: r) - pos - 1) with (List.length r) by (simpl; lia).
    apply sub_from_skip_all.
  - simpl in Hw. apply andb_prop in Hw. destruct Hw as [Hx Hw].
    apply negb_true_iff in Hx.
    cbn [app ReSub.sub_from]. rewrite (@match_end_lit_miss c r x (w ++ c :: r) pos Hx).
    f_equal. apply IH, Hw.
Qed.

Definition spaces (s : str) : bool := forallb (fun c => (c =? 32)%N) s.

Lemma lstrip_spaces a b : spaces a = true -> lstrip (a ++ b) = lstrip b.
Proof.
  induction a as [|c a IH]; simpl; intros H; [reflexivity|].
  apply andb_prop in H. destruct H as [Hc Ha]. apply N.eqb_eq in Hc. subst c.
  change (is_float_space 32%N) with true. cbv iota. apply IH, Ha.
Qed.

Lemma spaces_rev a : spaces a = true -> spaces (rev a) = true.
Proof.
  unfold spaces. rewrite !forallb_forall. intros H x Hx. apply H, in_rev, Hx.
Qed.

(** [float] ignores the blanks after a number. *)
Lemma float_trailing_spaces s ws :
  s <> [] -> forallb digit_or_point s = true -> spaces ws = true ->
  float_of_str (s ++ ws) = float_of_str s.
Proof.
  intros Hne Hs Hws.
  assert (Hplain : forallb (fun c => negb (is_float_space c)) s = true).
  { revert Hs. apply forallb_weaken. intros x Hx.
    destruct (digit_or_point_plain x Hx) as (_ & -> & _). reflexivity. }
  assert (Hstrip : strip (s ++ ws) = s).
  { unfold strip. replace (lstrip (s ++ ws)) with (s ++ ws).
    - rewrite rev_app_distr, lstrip_spaces by (apply spaces_rev, Hws).
      rewrite lstrip_id; [apply rev_involutive|].
      rewrite forallb_forall in *. intros x Hx. apply Hplain, in_rev, Hx.
    - destruct s as [|c s]; [congruence|]. simpl in *.
      apply andb_prop in Hplain. destruct Hplain as [Hc _].
      apply negb_true_iff in Hc. rewrite Hc. reflexivity. }
  assert (Hu : forall t, forallb digit_or_point t = true ->
                         forallb (fun c => negb (c =? 95)%N) t = true).
  { intros t. apply forallb_weaken. intros x Hx.
    destruct (digit_or_point_plain x Hx) as (-> & _). reflexivity. }
  unfold float_of_str.
  rewrite !underscores_none; try reflexivity.
  - rewrite Hstrip, (strip_id s Hplain). reflexivity.
  - apply Hu, Hs.
  - rewrite forallb_app, (Hu s Hs). simpl. revert Hws. apply forallb_weaken.
    intros x Hx. apply N.eqb_eq in Hx. subst x. reflexivity.
Qed.

(** Digits alone are read as the integer they write. *)
Lemma float_of_integer ip :
  ip <> [] -> forallb is_digit ip = true ->
  float_of_str ip = Some (Fin (decimal_value ip [])).
Proof.
  intros Hne Hip.
  assert (Hall : forallb digit_or_point ip = true).
  { revert Hip. apply forallb_weaken. unfold digit_or_point. intros x ->. reflexivity. }
  unfold float_of_str.
  rewrite underscores_none; [| |reflexivity].
  2:{ revert Hall. apply forallb_weaken. intros x Hx.
      destruct (digit_or_point_plain x Hx) as (-> & _). reflexivity. }
  rewrite strip_id.
  2:{ revert Hall. apply forallb_weaken. intros x Hx.
      destruct (digit_or_point_plain x Hx) as (_ & -> & _). reflexivity. }
  destruct ip as [|d ip]; [congruence|]. clear Hne.
  simpl in Hip. apply andb_prop in Hip. destruct Hip as [Hd Hip].
  assert (Hdp : digit_or_point d = true) by (unfold digit_or_point; rewrite Hd; reflexivity).
  destruct (digit_or_point_plain d Hdp) as (_ & _ & Hlow & H45 & H43 & Hi & Hn).
  cbn [take_sign]. rewrite H45, H43. cbn [List.map]. rewrite Hlow.
  change (u "inf") with [105%N; 110%N; 102%N].
  change (u "infinity") with [105%N; 110%N; 102%N; 105%N; 110%N; 105%N; 116%N; 121%N].
  change (u "nan") with [110%N; 97%N; 110%N].
  rewrite !str_eqb_heads;
    [|apply N.eqb_neq, Hn|apply N.eqb_neq, Hi|apply N.eqb_neq, Hi].
  cbn [orb]. unfold parse_decimal.
  rewrite <- (app_nil_r (d :: ip)) at 1.
  rewrite (@span_digits_app (d :: ip) []);
    [|simpl; rewrite Hd; exact Hip|reflexivity].
  rewrite app_nil_r. cbn [take_exponent]. unfold decimal_value.
  rewrite Z.mul_1_l, Z.sub_0_l, app_nil_r. reflexivity.
Qed.

Lemma digits_no c (s : str) :
  (c < 48 \/ 57 < c)%N -> forallb is_digit s = true ->
  forallb (fun x => negb (x =? c)%N) s = true.
Proof.
  intros Hc. apply forallb_weaken. intros x Hx. rewrite (digit_not _ Hx Hc). reflexivity.
Qed.

Lemma spaces_no c (s : str) :
  c <> 32%N -> spaces s = true -> forallb (fun x => negb (x =? c)%N) s = true.
Proof.
  intros Hc. apply forallb_weaken. intros x Hx. apply N.eqb_eq in Hx. subst x.
  apply negb_true_iff, N.eqb_neq. congruence.
Qed.

(** What the two substitutions of step 3 leave of a size text. *)
Lemma size_text_decimal ip fp ws :
  forallb is_digit ip = true -> forallb is_digit fp = true -> spaces ws = true ->
  size_text (ip ++ 44%N :: fp ++ ws ++ u "m²") = (ip ++ 46%N :: fp) ++ ws.
Proof.
  intros Hip Hfp Hws. unfold size_text, ReSub.sub.
  replace (ip ++ 44%N :: fp ++ ws ++ u "m²") with ((ip ++ 44%N :: fp ++ ws) ++ u "m²")
    by (rewrite <- !app_assoc; simpl; rewrite <- !app_assoc; reflexivity).
  change (u "m²") with [109%N; 178%N].
  rewrite sub_lit_suffix.
  - change (lit (u ",")) with (lit [44%N]). rewrite sub_char. change (u ".") with [46%N].
    rewrite flat_map_app. cbn [flat_map]. rewrite N.eqb_refl, flat_map_app.
    rewrite (@flat_map_keep 44%N [46%N] ip), (@flat_map_keep 44%N [46%N] fp),
      (@flat_map_keep 44%N [46%N] ws).
    + rewrite <- app_assoc. reflexivity.
    + apply spaces_no; [discriminate|exact Hws].
    + apply digits_no; [lia|exact Hfp].
    + apply digits_no; [lia|exact Hip].
  - rewrite forallb_app. apply andb_true_intro. split; [apply digits_no; [lia|exact Hip]|].
    simpl. rewrite forallb_app. apply andb_true_intro.
    split; [apply digits_no; [lia|exact Hfp]|apply spaces_no; [discriminate|exact Hws]].
Qed.

Lemma size_text_integer ip ws :
  forallb is_digit ip = true -> spaces ws = true ->
  size_text (ip ++ ws ++ u "m²") = ip ++ ws.
Proof.
  intros Hip Hws. unfold size_text, ReSub.sub.
  rewrite app_assoc. change (u "m²") with [109%N; 178%N].
  assert (Hno : forall c, c <> 32%N -> (c < 48 \/ 57 < c)%N ->
                          forallb (fun x => negb (x =? c)%N) (ip ++ ws) = true).
  { intros c H1 H2. rewrite forallb_app. apply andb_true_intro.
    split; [apply digits_no; assumption|apply spaces_no; assumption]. }
  rewrite sub_lit_suffix by (apply Hno; [discriminate|lia]).
  change (lit (u ",")) with (lit [44%N]). rewrite sub_char.
  apply flat_map_keep, Hno; [discriminate|lia].
Qed.

(** X1: a size written as digits, optionally a decimal comma and fraction
    digits, optional blanks and the unit "m²" is cleaned to exactly the
    number it writes; the blanks left before the unit do no harm. *)
Theorem size_format (ip fp ws : str) :
  ip <> [] -> forallb is_digit ip = true -> forallb is_digit fp = true ->
  spaces ws = true ->
  clean_size [Text (ip ++ 44%N :: fp ++ ws ++ u "m²")] = Ok [Num (Fin (decimal_value ip fp))]
  /\ clean_size [Text (ip ++ ws ++ u "m²")] = Ok [Num (Fin (decimal_value ip []))].
Proof.
  intros Hne Hip Hfp Hws.
  assert (Hdp : forall t, forallb is_digit t = true -> forallb digit_or_point t = true).
  { intros t. apply forallb_weaken. unfold digit_or_point. intros x ->. reflexivity. }
  split; rewrite clean_size_cells; cbn [List.map size_cell]; unfold astype_float;
    cbn [mapM astype_float_cell].
  - rewrite (@size_text_decimal ip fp ws Hip Hfp Hws).
    rewrite float_trailing_spaces; [| |  |exact Hws].
    + rewrite (@float_of_digits ip fp Hne Hip Hfp). reflexivity.
    + destruct ip; [congruence|discriminate].
    + rewrite forallb_app. apply andb_true_intro. split; [apply Hdp, Hip|].
      simpl. apply Hdp, Hfp.
  - rewrite (@size_text_integer ip ws Hip Hws).
    rewrite float_trailing_spaces; [|exact Hne|apply Hdp, Hip|exact Hws].
    rewrite (@float_of_integer ip Hne Hip). reflexivity.
Qed.

Lemma size_format_witness :
  clean_size [Text (u "45,5 m²")] = Ok [Num (Fin (Qred 45.5))]
  /\ clean_size [Text (u "120m²")] = Ok [Num (Fin 120)].
Proof.
  split.
  - exact (proj1 (@size_format (u "45") (u "5") (u " ")
                    ltac:(discriminate) eq_refl eq_refl eq_refl)).
  - exact (proj2 (@size_format (u "120") [] []
                    ltac:(discriminate) eq_refl eq_refl eq_refl)).
Defined.

Lemma unspace_keep (s : str) : forallb is_digit s = true -> unspace s = s.
Proof.
  induction s as [|x s IH]; simpl; intros H; [reflexivity|].
  apply andb_prop in H. destruct H as [Hx Hs].
  rewrite (digit_not _ Hx); [|lia]. simpl. f_equal. apply IH, Hs.
Qed.

Lemma unspace_no_comma body :
  forallb digit_or_space body = true ->
  forallb (fun x => negb (x =? 44)%N) (unspace body) = true.
Proof.
  intros H. apply digits_no; [lia|]. apply unspace_digits, H.
Qed.

Lemma digit_or_space_comma (s : str) :
  forallb digit_or_space s = true ->
  forallb (fun c => digit_or_space c || (c =? 44)%N) s = true.
Proof. apply forallb_weaken. intros x ->. reflexivity. Qed.

(** What the three substitutions of step 7 leave of a price text. *)
Lemma price_text_integer body :
  forallb digit_or_space body = true ->
  price_text (body ++ u " zł") = unspace body.
Proof.
  intros Hb. unfold price_text, ReSub.sub.
  rewrite sub_zl_suffix by (apply digit_or_space_comma, Hb).
  change (lit (u ",")) with (lit [44%N]). change (lit (u " ")) with (lit [32%N]).
  rewrite !sub_char, flat_map_drop. fold (unspace body).
  apply flat_map_keep, unspace_no_comma, Hb.
Qed.

Lemma price_text_decimal body fp :
  forallb digit_or_space body = true -> forallb is_digit fp = true ->
  price_text (body ++ 44%N :: fp ++ u " zł") = unspace body ++ 46%N :: fp.
Proof.
  intros Hb Hf. unfold price_text, ReSub.sub.
  replace (body ++ 44%N :: fp ++ u " zł") with ((body ++ 44%N :: fp) ++ u " zł")
    by (rewrite <- app_assoc; reflexivity).
  rewrite sub_zl_suffix.
  - change (lit (u ",")) with (lit [44%N]). change (lit (u " ")) with (lit [32%N]).
    rewrite !sub_char, flat_map_drop. fold (unspace (body ++ 44%N :: fp)).
    unfold unspace at 1. rewrite filter_app. cbn [filter]. change (44 =? 32)%N with false.
    cbn [negb]. fold (unspace body). fold (unspace fp). rewrite (unspace_keep fp Hf).
    change (u ".") with [46%N].
    rewrite flat_map_app. cbn [flat_map]. rewrite N.eqb_refl.
    rewrite (@flat_map_keep 44%N [46%N] (unspace body)) by (apply unspace_no_comma, Hb).
    rewrite (@flat_map_keep 44%N [46%N] fp) by (apply digits_no; [lia|exact Hf]).
    reflexivity.
  - rewrite forallb_app. apply andb_true_intro.
    split; [apply digit_or_space_comma, Hb|].
    simpl. revert Hf. apply forallb_weaken. unfold digit_or_space.
    intros x ->. reflexivity.
Qed.

Lemma has_digit_priced t :
  existsb is_digit t = true -> str_eqb t (u "Pricenotavailable") = false.
Proof.
  intros H. apply str_eqb_neq. intros ->. discriminate H.
Qed.

Lemma unspace_has_digit body :
  existsb is_digit body = true -> existsb is_digit (unspace body) = true.
Proof.
  induction body as [|x body IH]; simpl; intros H; [discriminate|].
  destruct (is_digit x) eqn:Hx.
  - rewrite (digit_not _ Hx); [|lia]. simpl. rewrite Hx. reflexivity.
  - destruct (x =? 32)%N; simpl; [apply IH, H|]. rewrite Hx. apply IH, H.
Qed.

(** X2: a price written as digits in groups separated by blanks, with or
    without a decimal comma and fraction digits, and the suffix " zł" is
    cleaned to exactly the number it writes; the marker "Price not
    available" becomes a missing value, with or without its blanks, and
    any other text that [float] rejects raises ValueError. *)
Theorem price_format :
  (forall body, forallb digit_or_space body = true -> existsb is_digit body = true ->
     clean_price [Text (body ++ u " zł")]
     = Ok [Num (Fin (decimal_value (unspace body) []))])
  /\ (forall body fp, forallb digit_or_space body = true ->
        existsb is_digit body = true -> forallb is_digit fp = true ->
        clean_price [Text (body ++ 44%N :: fp ++ u " zł")]
        = Ok [Num (Fin (decimal_value (unspace body) fp))])
  /\ (forall t, price_text t = u "Pricenotavailable" -> clean_price [Text t] = Ok [NA])
  /\ (forall s t, In (Text t) s -> price_text t <> u "Pricenotavailable" ->
        float_of_str (price_text t) = None -> clean_price s = Raise ValueError).
Proof.
  split; [|split; [|split]].
  - intros body Hb He. rewrite clean_price_cells. cbn [List.map price_cell].
    rewrite (price_text_integer body Hb).
    rewrite has_digit_priced by (apply unspace_has_digit, He).
    unfold astype_float. cbn [mapM astype_float_cell].
    rewrite float_of_integer; [reflexivity|apply unspace_nonempty, He|apply unspace_digits, Hb].
  - intros body fp Hb He Hf. rewrite clean_price_cells. cbn [List.map price_cell].
    rewrite (price_text_decimal body fp Hb Hf).
    rewrite has_digit_priced
      by (rewrite existsb_app, (unspace_has_digit body He); reflexivity).
    unfold astype_float. cbn [mapM astype_float_cell].
    rewrite float_of_digits;
      [reflexivity|apply unspace_nonempty, He|apply unspace_digits, Hb|exact Hf].
  - intros t Ht. rewrite clean_price_cells. cbn [List.map price_cell].
    rewrite Ht. reflexivity.
  - intros s t Hin Hne Ht. rewrite clean_price_cells.
    apply astype_raises with (t := price_text t);
      [apply cleaned_cells, price_cell_shape| |exact Ht].
    apply in_map_iff. exists (Text t). split; [|exact Hin].
    simpl. rewrite (str_eqb_neq Hne). reflexivity.
Qed.

Lemma price_format_witness :
  clean_price [Text (u "1 250 000 zł")] = Ok [Num (Fin 1250000)]
  /\ clean_price [Text (u "499 999,99 zł")] = Ok [Num (Fin (Qred 499999.99))]
  /\ clean_price [Text (u "Price not available")] = Ok [NA]
  /\ clean_price [Text (u "300 000 zł"); Text (u "Zapytaj o cenę")] = Raise ValueError.
Proof.
  destruct price_format as (H1 & H2 & H3 & H4). split; [|split; [|split]].
  - exact (H1 (u "1 250 000") eq_refl eq_refl).
  - exact (H2 (u "499 999") (u "99") eq_refl eq_refl eq_refl).
  - exact (H3 (u "Price not available") eq_refl).
  - apply (H4 _ (u "Zapytaj o cenę")); [right; left; reflexivity|discriminate|reflexivity].
Defined.

(** *** A size written with a blank between digit groups *)

Lemma lstrip_head c s : is_float_space c = false -> lstrip (c :: s) = c :: s.
Proof. intros H. simpl. rewrite H. reflexivity. Qed.

Lemma digit_plain c :
  is_digit c = true ->
  (c =? 95)%N = false /\ is_float_space c = false /\ ascii_lower c = c
  /\ (c =? 45)%N = false /\ (c =? 43)%N = false /\ (c =? 105)%N = false
  /\ (c =? 110)%N = false.
Proof.
  intros H. apply digit_or_point_plain. unfold digit_or_point. rewrite H. reflexivity.
Qed.

Lemma grouped_not_float ip ip' ws :
  ip <> [] -> ip' <> [] -> forallb is_digit ip = true -> forallb is_digit ip' = true ->
  spaces ws = true ->
  float_of_str ((ip ++ 32%N :: ip') ++ ws) = None.
Proof.
  intros Hne Hne' Hip Hip' Hws.
  assert (Hd : forall t, forallb is_digit t = true ->
                         forallb (fun c => negb (c =? 95)%N) t = true)
    by (intros t; apply digits_no; lia).
  unfold float_of_str. rewrite underscores_none; [| |reflexivity].
  2:{ rewrite !forallb_app. cbn [forallb]. rewrite (Hd ip Hip), (Hd ip' Hip').
      rewrite (@spaces_no 95%N ws) by (try discriminate; exact Hws). reflexivity. }
  assert (Hstrip : strip ((ip ++ 32%N :: ip') ++ ws) = ip ++ 32%N :: ip').
  { unfold strip. destruct ip as [|d ip]; [congruence|].
    simpl in Hip. apply andb_prop in Hip. destruct Hip as [Hd0 Hip].
    cbn [app]. rewrite lstrip_head by (apply digit_plain, Hd0).
    change (d :: (ip ++ 32%N :: ip') ++ ws) with (((d :: ip) ++ 32%N :: ip') ++ ws).
    rewrite rev_app_distr, lstrip_spaces by (apply spaces_rev, Hws).
    rewrite rev_app_distr. cbn [rev]. rewrite <- app_assoc.
    destruct (rev ip') as [|e r] eqn:Er.
    - apply (f_equal (@rev N)) in Er. rewrite rev_involutive in Er. simpl in Er. congruence.
    - assert (He : is_digit e = true).
      { rewrite forallb_forall in Hip'. apply Hip', in_rev. rewrite Er. left. reflexivity. }
      cbn [app]. rewrite lstrip_head by (apply digit_plain, He).
      change (e :: r ++ 32%N :: rev ip ++ [d]) with ((e :: r) ++ 32%N :: rev ip ++ [d]).
      rewrite <- Er, rev_app_distr, rev_involutive. cbn [rev].
      rewrite rev_app_distr, rev_involutive. cbn [rev app].
      rewrite <- app_assoc. reflexivity. }
  rewrite Hstrip.
  destruct ip as [|d ip]; [congruence|].
  simpl in Hip. apply andb_prop in Hip. destruct Hip as [Hd0 Hip].
  destruct (digit_plain d Hd0) as (_ & _ & Hlow & H45 & H43 & Hi & Hn).
  cbn [app take_sign]. rewrite H45, H43. cbn [List.map]. rewrite Hlow.
  change (u "inf") with [105%N; 110%N; 102%N].
  change (u "infinity") with [105%N; 110%N; 102%N; 105%N; 110%N; 105%N; 116%N; 121%N].
  change (u "nan") with [110%N; 97%N; 110%N].
  rewrite !str_eqb_heads;
    [|apply N.eqb_neq, Hn|apply N.eqb_neq, Hi|apply N.eqb_neq, Hi].
  cbn [orb]. unfold parse_decimal.
  change (d :: ip ++ 32%N :: ip') with ((d :: ip) ++ 32%N :: ip').
  rewrite (@span_digits_app (d :: ip) (32%N :: ip'));
    [|simpl; rewrite Hd0; exact Hip|reflexivity].
  change (32 =? 46)%N with false. cbv iota. cbn [app take_exponent].
  change ((32 =? 101)%N || (32 =? 69)%N) with false. reflexivity.
Qed.

(** X14: step 3 does not remove blanks.  A size whose digits are written
    in two groups separated by a blank, as prices and rents are, is not
    read as a number: the conversion of the whole column raises
    ValueError. *)
Theorem grouped_size_raises (s : Series) (ip ip' ws : str) :
  ip <> [] -> ip' <> [] -> forallb is_digit ip = true -> forallb is_digit ip' = true ->
  spaces ws = true ->
  In (Text (ip ++ 32%N :: ip' ++ ws ++ u "m²")) s ->
  clean_size s = Raise ValueError.
Proof.
  intros Hne Hne' Hip Hip' Hws Hin. rewrite clean_size_cells.
  apply astype_raises with (t := (ip ++ 32%N :: ip') ++ ws);
    [apply cleaned_cells, size_cell_shape| |apply grouped_not_float; assumption].
  apply in_map_iff. exists (Text (ip ++ 32%N :: ip' ++ ws ++ u "m²")).
  split; [|exact Hin]. cbn [size_cell]. f_equal.
  unfold size_text, ReSub.sub.
  replace (ip ++ 32%N :: ip' ++ ws ++ u "m²") with (((ip ++ 32%N :: ip') ++ ws) ++ u "m²")
    by (rewrite <- !app_assoc; reflexivity).
  assert (Hno : forall c, c <> 32%N -> (c < 48 \/ 57 < c)%N ->
                  forallb (fun x => negb (x =? c)%N) ((ip ++ 32%N :: ip') ++ ws) = true).
  { intros c H1 H2. rewrite !forallb_app. cbn [forallb].
    rewrite (@digits_no c ip H2 Hip), (@digits_no c ip' H2 Hip'), (@spaces_no c ws H1 Hws).
    replace (32 =? c)%N with false by (symmetry; apply N.eqb_neq; congruence).
    reflexivity. }
  change (u "m²") with [109%N; 178%N].
  rewrite sub_lit_suffix by (apply Hno; [discriminate|lia]).
  change (lit (u ",")) with (lit [44%N]). rewrite sub_char.
  apply flat_map_keep, Hno; [discriminate|lia].
Qed.

Lemma grouped_size_raises_witness :
  clean_size [Text (u "45,5 m²"); Text (u "1 200 m²")] = Raise ValueError.
Proof.
  apply (@grouped_size_raises _ (u "1") (u "200") (u " "));
    [discriminate|discriminate|reflexivity|reflexivity|reflexivity|].
  right. left. reflexivity.
Defined.

(** *** A rent without decimals *)

Lemma rent_text_integer body :
  forallb digit_or_space body = true ->
  rent_text (body ++ u " zł") = unspace body.
Proof.
  intros Hb. unfold rent_text, ReSub.sub.
  rewrite sub_zl_suffix by (apply digit_or_space_comma, Hb).
  change (lit (u ",")) with (lit [44%N]). change (lit (u " ")) with (lit [32%N]).
  rewrite !sub_char. change (u ".") with [46%N].
  rewrite (@flat_map_keep 44%N [46%N] body).
  - apply flat_map_drop.
  - revert Hb. apply forallb_weaken. unfold digit_or_space.
    intros x Hx. apply orb_prop in Hx. destruct Hx as [Hx|Hx].
    + rewrite (digit_not _ Hx); [reflexivity|lia].
    + apply N.eqb_eq in Hx. subst x. reflexivity.
Qed.

(** X17: a rent written without decimals, as digit groups separated by
    blanks and the suffix " zł", is cleaned by step 4 to exactly the
    integer it writes. *)
Theorem rent_integer_format (body : str) :
  forallb digit_or_space body = true -> existsb is_digit body = true ->
  clean_czynsz [Text (body ++ u " zł")] = Ok [Num (Fin (decimal_value (unspace body) []))].
Proof.
  intros Hb He. rewrite clean_czynsz_cells. cbn [List.map rent_cell].
  rewrite has_digit_not_sentinel by (rewrite existsb_app, He; reflexivity).
  unfold astype_float. cbn [mapM astype_float_cell].
  rewrite (@rent_text_integer body Hb).
  rewrite float_of_integer; [reflexivity|apply unspace_nonempty, He|apply unspace_digits, Hb].
Qed.

Lemma rent_integer_format_witness :
  clean_czynsz [Text (u "2 500 zł")] = Ok [Num (Fin 2500)].
Proof. exact (@rent_integer_format (u "2 500") eq_refl eq_refl). Defined.

End FormatFacts.

(** ** The matcher finds every match *)

Module MatcherFacts.
Import Re ReFacts.

(** Every group that is closed has been opened before: [opn] lists the
    groups open at the start of [p]. *)
Fixpoint bracketed (opn : list nat) (p : pattern) : bool :=
  match p with
  | [] => true
  | Open g :: p' => bracketed (g :: opn) p'
  | Close g :: p' => existsb (Nat.eqb g) opn && bracketed opn p'
  | _ :: p' => bracketed opn p'
  end.

Definition found {A : Type} (o : option A) : bool :=
  match o with Some _ => true | None => false end.

(** A greedy repetition succeeds as soon as its continuation does after
    some run. *)
Lemma greedy_complete ok k : forall run s pos,
  forallb ok run = true ->
  found (k s (pos + List.length run)) = true ->
  found (greedy ok k (run ++ s) pos) = true.
Proof.
  induction run as [|x run IH]; intros s pos Hrun Hk.
  - simpl in *. rewrite Nat.add_0_r in Hk.
    destruct s as [|y s]; simpl; [exact Hk|].
    destruct (ok y); [|exact Hk].
    destruct (greedy ok k s (S pos)); [reflexivity|exact Hk].
  - simpl in Hrun. apply andb_prop in Hrun. destruct Hrun as [Hx Hrun].
    simpl. rewrite Hx.
    assert (H : found (greedy ok k (run ++ s) (S pos)) = true).
    { apply IH; [exact Hrun|]. simpl in Hk.
      replace (S pos + List.length run) with (pos + S (List.length run)) by lia.
      exact Hk. }
    destruct (greedy ok k (run ++ s) (S pos)); [reflexivity|discriminate H].
Qed.

(** Completeness of the backtracking matcher: whatever the declarative
    reading allows at a position, the matcher matches there. *)
Lemma mt_complete ic p : forall opn s pos st,
  bracketed opn p = true ->
  (forall g, In g opn -> assoc g (opened st) <> None) ->
  lang ic p s ->
  found (mt ic p s pos st) = true.
Proof.
  induction p as [|i p IH]; intros opn s pos st Hb Hst Hl; [reflexivity|].
  destruct i as [a|a|a|g|g|]; simpl in Hb, Hl.
  - destruct Hl as (x & s' & -> & Hx & Hl). simpl. rewrite Hx. eapply IH; eauto.
  - destruct Hl as (run & s' & -> & Hrun & Hl). simpl.
    apply greedy_complete; [exact Hrun|]. eapply IH; eauto.
  - destruct Hl as (run & s' & -> & Hne & Hrun & Hl).
    destruct run as [|x run]; [congruence|].
    simpl in Hrun. apply andb_prop in Hrun. destruct Hrun as [Hx Hrun].
    simpl. rewrite Hx. apply greedy_complete; [exact Hrun|]. eapply IH; eauto.
  - simpl. eapply IH; [exact Hb| |exact Hl].
    intros g' [<-|Hin]; simpl.
    + rewrite Nat.eqb_refl. discriminate.
    + destruct (Nat.eqb g g'); [discriminate|]. apply Hst, Hin.
  - apply andb_prop in Hb. destruct Hb as [Hg Hb].
    apply existsb_exists in Hg. destruct Hg as (g' & Hin & Hg).
    apply Nat.eqb_eq in Hg. subst g'.
    simpl. destruct (assoc g (opened st)) as [start|] eqn:E.
    + eapply IH; [exact Hb| |exact Hl]. exact Hst.
    + exfalso. apply (Hst g Hin E).
  - destruct Hl as [He Hl]. simpl. rewrite He. eapply IH; eauto.
Qed.

(** [re.search] finds a match exactly when some suffix of the subject
    starts with one. *)
Lemma search_from_iff ic p : bracketed [] p = true -> forall s pos,
  found (search_from ic p s pos) = true
  <-> exists pre rest, s = pre ++ rest /\ lang ic p rest.
Proof.
  intros Hb. induction s as [|x s IH]; intros pos.
  - simpl. split.
    + destruct (mt ic p [] pos mstate0) eqn:E; [|discriminate].
      intros _. exists [], []. split; [reflexivity|]. eapply mt_lang, E.
    + intros (pre & rest & Hs & Hl).
      destruct pre; [|discriminate]. simpl in Hs. subst rest.
      assert (H := @mt_complete ic p [] [] pos mstate0 Hb
                     (fun g (F : In g []) => match F with end) Hl).
      destruct (mt ic p [] pos mstate0); [reflexivity|discriminate H].
  - simpl. destruct (mt ic p (x :: s) pos mstate0) eqn:E.
    + split; [|reflexivity]. intros _. exists [], (x :: s).
      split; [reflexivity|]. eapply mt_lang, E.
    + rewrite IH. split.
      * intros (pre & rest & -> & Hl). exists (x :: pre), rest. auto.
      * intros (pre & rest & Hs & Hl). destruct pre as [|y pre].
        -- simpl in Hs. subst rest.
           assert (H := @mt_complete ic p [] (x :: s) pos mstate0 Hb
                          (fun g (F : In g []) => match F with end) Hl).
           rewrite E in H. discriminate H.
        -- injection Hs as <- ->. exists pre, rest. auto.
Qed.

(** *** Where the groups of a match lie *)

Lemma greedy_run_inv ok k : forall s pos r,
  greedy ok k s pos = Some r ->
  exists run s1, s = run ++ s1 /\ forallb ok run = true
                 /\ k s1 (pos + List.length run) = Some r.
Proof.
  induction s as [|x s IH]; simpl; intros pos r H.
  - exists [], []. simpl. rewrite Nat.add_0_r. auto.
  - assert (Hk : k (x :: s) pos = Some r ->
                 exists run s1, x :: s = run ++ s1 /\ forallb ok run = true
                                /\ k s1 (pos + List.length run) = Some r).
    { intros Hk. exists [], (x :: s). simpl. rewrite Nat.add_0_r. auto. }
    destruct (ok x) eqn:Hx; [|auto].
    destruct (greedy ok k s (S pos)) as [r'|] eqn:E; [|auto].
    inversion H; subst r'.
    destruct (IH _ _ E) as (run & s1 & -> & Hrun & Hs1).
    exists (x :: run), s1. simpl. rewrite Hx, Hrun.
    replace (pos + S (List.length run)) with (S pos + List.length run) by lia. auto.
Qed.

Definition closes (g : nat) (i : item) : bool :=
  match i with
  | Close g' => Nat.eqb g' g
  | _ => false
  end.

(** A group that the rest of the pattern does not close keeps its span. *)
Lemma mt_keeps_group ic g p : forall s pos st r,
  existsb (closes g) p = false ->
  mt ic p s pos st = Some r ->
  assoc g (closed r) = assoc g (closed st).
Proof.
  induction p as [|i p IH]; intros s pos st r Hp H.
  - simpl in H. injection H as <-. reflexivity.
  - simpl in Hp. apply orb_false_iff in Hp. destruct Hp as [Hi Hp].
    destruct i as [a|a|a|g'|g'|]; simpl in H.
    + destruct s as [|x s]; [discriminate|].
      destruct (atom_ok ic a x); [|discriminate]. eapply IH; eauto.
    + apply greedy_run_inv in H. destruct H as (run & s1 & _ & _ & H). eapply IH; eauto.
    + destruct s as [|x s]; [discriminate|].
      destruct (atom_ok ic a x); [|discriminate].
      apply greedy_run_inv in H. destruct H as (run & s1 & _ & _ & H). eapply IH; eauto.
    + rewrite (IH _ _ _ _ Hp H). reflexivity.
    + destruct (assoc g' (opened st)); [|discriminate].
      rewrite (IH _ _ _ _ Hp H). simpl in *. rewrite Hi. reflexivity.
    + destruct (at_end s); [|discriminate]. eapply IH; eauto.
Qed.

(** The span of a group [(a+)] that is closed once: it covers a non-empty
    run of characters of the class [a]. *)
Lemma mt_group_span ic g a p2 : existsb (closes g) p2 = false ->
  forall p1 s pos st r,
  mt ic (p1 ++ Open g :: Many1 a :: Close g :: p2) s pos st = Some r ->
  exists before run rest,
    s = before ++ run ++ rest /\ run <> [] /\ forallb (atom_ok ic a) run = true
    /\ assoc g (closed r)
       = Some (pos + List.length before, pos + List.length before + List.length run).
Proof.
  intros Hp2. induction p1 as [|i p1 IH]; intros s pos st r H.
  - cbn [app mt] in H. destruct s as [|x s]; [discriminate|].
    destruct (atom_ok ic a x) eqn:Hx; [|discriminate].
    apply greedy_run_inv in H. destruct H as (run & s1 & -> & Hrun & H).
    cbn [mt opened closed assoc] in H. rewrite Nat.eqb_refl in H.
    apply mt_keeps_group with (g := g) in H; [|exact Hp2].
    cbn [closed assoc] in H. rewrite Nat.eqb_refl in H.
    exists [], (x :: run), s1. simpl. rewrite Hx, Hrun, H.
    repeat split; [discriminate|]. do 2 f_equal; lia.
  - cbn [app] in H. destruct i as [b|b|b|g'|g'|]; cbn [mt] in H.
    + destruct s as [|x s]; [discriminate|].
      destruct (atom_ok ic b x); [|discriminate].
      destruct (IH _ _ _ _ H) as (before & run & rest & -> & Hne & Hrun & Hg).
      exists (x :: before), run, rest. rewrite Hg. simpl.
      repeat split; auto. do 2 f_equal; lia.
    + apply greedy_run_inv in H. destruct H as (run0 & s1 & -> & _ & H).
      destruct (IH _ _ _ _ H) as (before & run & rest & -> & Hne & Hrun & Hg).
      exists (run0 ++ before), run, rest. rewrite Hg, length_app, <- app_assoc.
      repeat split; auto. do 2 f_equal; lia.
    + destruct s as [|x s]; [discriminate|].
      destruct (atom_ok ic b x); [|discriminate].
      apply greedy_run_inv in H. destruct H as (run0 & s1 & -> & _ & H).
      destruct (IH _ _ _ _ H) as (before & run & rest & -> & Hne & Hrun & Hg).
      exists (x :: run0 ++ before), run, rest. rewrite Hg. simpl.
      rewrite length_app, <- app_assoc.
      repeat split; auto. do 2 f_equal; lia.
    + apply IH in H. exact H.
    + destruct (assoc g' (opened st)); [|discriminate]. apply IH in H. exact H.
    + destruct (at_end s); [|discriminate]. apply IH in H. exact H.
Qed.

Lemma search_from_inv ic p : forall s pos m,
  search_from ic p s pos = Some m ->
  exists pre rest, s = pre ++ rest /\ mt ic p rest (pos + List.length pre) mstate0 = Some m.
Proof.
  induction s as [|x s IH]; intros pos m H; simpl in H.
  - destruct (mt ic p [] pos mstate0) eqn:E; [|discriminate].
    exists [], []. simpl. rewrite Nat.add_0_r. split; congruence.
  - destruct (mt ic p (x :: s) pos mstate0) eqn:E.
    + exists [], (x :: s). simpl. rewrite Nat.add_0_r. split; congruence.
    + destruct (IH _ _ H) as (pre & rest & -> & Hm).
      exists (x :: pre), rest. simpl. split; [reflexivity|].
      replace (pos + S (List.length pre)) with (S pos + List.length pre) by lia.
      exact Hm.
Qed.

(** The text of such a group, wherever the match is found. *)
Lemma search_group ic g a p1 p2 s m :
  existsb (closes g) p2 = false ->
  search ic (p1 ++ Open g :: Many1 a :: Close g :: p2) s = Some m ->
  exists run, group s m g = Some run /\ run <> []
              /\ forallb (atom_ok ic a) run = true.
Proof.
  intros Hp2 H. unfold search in H. apply search_from_inv in H.
  destruct H as (pre & rest0 & -> & H).
  apply mt_group_span in H; [|exact Hp2].
  destruct H as (before & run & rest & -> & Hne & Hrun & Hg).
  exists run. unfold group. rewrite Hg. split; [|auto].
  f_equal. simpl.
  replace (pre ++ before ++ run ++ rest) with ((pre ++ before) ++ run ++ rest)
    by (rewrite <- app_assoc; reflexivity).
  replace (List.length pre + List.length before) with (List.length (pre ++ before))
    by apply length_app.
  apply slice_middle.
Qed.

End MatcherFacts.

(** ** Which parts of a location are found together *)

Module ExtractionFacts.
Import Re ReFacts MatcherFacts Pd Notebook LocationFacts.

Definition part (t : str) (p : pattern) (g : nat) : cell :=
  match search false p t with
  | Some m =>
      match group t m g with
      | Some v => Text v
      | None => NA
      end
  | None => NA
  end.

Lemma city_of_part t : city_of t = Ok [part t city_re 1].
Proof. unfold city_of, city, str_extract. rewrite compile_city. reflexivity. Qed.

Lemma neighborhood_of_part t : neighborhood_of t = Ok [part t neighborhood_re 2].
Proof.
  unfold neighborhood_of, neighborhood, str_extract. rewrite compile_neighborhood.
  reflexivity.
Qed.

Lemma region_of_part t : region_of t = Ok [part t region_re 1].
Proof. unfold region_of, region, str_extract. rewrite compile_region. reflexivity. Qed.

(** A part is a run of word characters, and it is there as soon as the
    pattern matches. *)
Lemma part_word t p1 g p2 :
  existsb (closes g) p2 = false ->
  let p := p1 ++ Open g :: Many1 AWord :: Close g :: p2 in
  match search false p t with
  | Some _ => exists v, part t p g = Text v /\ token v = true
  | None => part t p g = NA
  end.
Proof.
  intros Hp2 p. unfold part.
  destruct (search false p t) as [m|] eqn:E; [|reflexivity].
  destruct (@search_group false g AWord p1 p2 t m Hp2 E) as (run & -> & Hne & Hrun).
  exists run. split; [reflexivity|].
  destruct run; [congruence|exact Hrun].
Qed.

Lemma city_part t :
  match search false city_re t with
  | Some _ => exists v, part t city_re 1 = Text v /\ token v = true
  | None => part t city_re 1 = NA
  end.
Proof.
  exact (@part_word t [] 1
           [One (ALit 44%N); Many0 ASpace; Many1 AWord; One (ALit 44%N); Many0 ASpace;
            Open 2; Many1 AWord; Close 2; Eos] eq_refl).
Qed.

Lemma neighborhood_part t :
  match search false neighborhood_re t with
  | Some _ => exists v, part t neighborhood_re 2 = Text v /\ token v = true
  | None => part t neighborhood_re 2 = NA
  end.
Proof.
  exact (@part_word t [Open 1; Many1 AWord; Close 1; One (ALit 44%N); Many0 ASpace]
           2 [One (ALit 44%N); Many0 ASpace; Many1 AWord; Eos] eq_refl).
Qed.

Lemma region_part t :
  match search false region_re t with
  | Some _ => exists v, part t region_re 1 = Text v /\ token v = true
  | None => part t region_re 1 = NA
  end.
Proof. exact (@part_word t [] 1 [Eos] eq_refl). Qed.

Lemma part_missing t p g :
  match search false p t with
  | Some _ => exists v, part t p g = Text v /\ token v = true
  | None => part t p g = NA
  end ->
  (Ok [part t p g] = Ok [NA] <-> found (search false p t) = false).
Proof.
  destruct (search false p t) as [m|]; simpl.
  - intros (v & -> & _). split; discriminate.
  - intros ->. split; reflexivity.
Qed.

Lemma found_iff p t :
  bracketed [] p = true ->
  (found (search false p t) = false
   <-> ~ exists pre rest, t = pre ++ rest /\ lang false p rest).
Proof.
  intros Hb. unfold search. rewrite <- (search_from_iff false p Hb t 0).
  destruct (found (search_from false p t 0)).
  - split; [discriminate|]. intros H. exfalso. apply H. reflexivity.
  - split; [|reflexivity]. intros _. discriminate.
Qed.

(** X3: the city and the neighborhood of a location are missing together;
    when the region is missing so are they; and the region is missing
    exactly when the text does not end, up to one final newline, with a
    word character. *)
Theorem location_parts_together (t : str) :
  (city_of t = Ok [NA] <-> neighborhood_of t = Ok [NA])
  /\ (region_of t = Ok [NA] -> city_of t = Ok [NA] /\ neighborhood_of t = Ok [NA])
  /\ (region_of t = Ok [NA]
      <-> ~ exists pre c nl, t = pre ++ c ++ nl /\ token c = true /\ at_end nl = true).
Proof.
  rewrite city_of_part, neighborhood_of_part, region_of_part.
  rewrite (@part_missing t _ _ (city_part t)), (@part_missing t _ _ (neighborhood_part t)),
    (@part_missing t _ _ (region_part t)).
  rewrite !found_iff by reflexivity.
  assert (Hreg : (exists pre rest, t = pre ++ rest /\ lang false region_re rest)
                 <-> exists pre c nl, t = pre ++ c ++ nl /\ token c = true
                                      /\ at_end nl = true).
  { split.
    - intros (pre & rest & -> & Hl). simpl in Hl.
      destruct Hl as (run & s' & -> & Hne & Hrun & He & _).
      exists pre, run, s'. repeat split; auto. destruct run; [congruence|exact Hrun].
    - intros (pre & c & nl & -> & Hc & He). exists pre, (c ++ nl). split; [reflexivity|].
      simpl. exists c, nl. repeat split; auto.
      + intros ->. discriminate Hc.
      + apply token_word, Hc. }
  assert (Hcity : (exists pre rest, t = pre ++ rest /\ lang false city_re rest)
                  -> exists pre rest, t = pre ++ rest /\ lang false region_re rest).
  { intros (pre & rest & -> & Hl). simpl in Hl.
    destruct Hl as (a & s1 & -> & Ha & _ & x & s2 & -> & _ & w1 & s3 & -> & _
                    & b & s4 & -> & _ & _ & y & s5 & -> & _ & w2 & s6 & -> & _
                    & c & s7 & -> & Hc & Hcw & He & _).
    exists (pre ++ a ++ x :: w1 ++ b ++ y :: w2), (c ++ s7). split.
    - rewrite <- !app_assoc. simpl. rewrite <- !app_assoc. reflexivity.
    - simpl. exists c, s7. auto. }
  split; [|split].
  - apply not_iff_compat. split; exact (fun H => H).
  - intros H. split; intros G; apply H, Hcity; exact G.
  - apply not_iff_compat, Hreg.
Qed.

Lemma location_parts_together_witness :
  city_of (u "Warszawa, Mokotów, ul. Puławska (parter)") = Ok [NA]
  /\ neighborhood_of (u "Warszawa, Mokotów, ul. Puławska (parter)") = Ok [NA].
Proof.
  apply (proj1 (proj2 (location_parts_together
                         (u "Warszawa, Mokotów, ul. Puławska (parter)")))).
  reflexivity.
Defined.

(** X4: whatever step 6 extracts as city, neighborhood or region is a
    non-empty run of word characters: a part is never empty and never
    holds a blank, a comma or a hyphen. *)
Theorem location_parts_are_tokens (t v : str) :
  city_of t = Ok [Text v] \/ neighborhood_of t = Ok [Text v] \/ region_of t = Ok [Text v] ->
  token v = true.
Proof.
  rewrite city_of_part, neighborhood_of_part, region_of_part.
  assert (H : forall p g,
             match search false p t with
             | Some _ => exists v, part t p g = Text v /\ token v = true
             | None => part t p g = NA
             end -> Ok [part t p g] = Ok [Text v] -> token v = true).
  { intros p g Hp E. destruct (search false p t).
    - destruct Hp as (v' & Hv & Ht). rewrite Hv in E. injection E as <-. exact Ht.
    - rewrite Hp in E. discriminate E. }
  intros [E|[E|E]].
  - exact (H _ _ (city_part t) E).
  - exact (H _ _ (neighborhood_part t) E).
  - exact (H _ _ (region_part t) E).
Qed.

Lemma location_parts_are_tokens_witness :
  region_of (u "Bielsko-Biała") = Ok [Text (u "Biała")] /\ token (u "Biała") = true.
Proof.
  split; [reflexivity|].
  apply (@location_parts_are_tokens (u "Bielsko-Biała") (u "Biała")).
  right. right. reflexivity.
Defined.

End ExtractionFacts.

(** ** Rows stay aligned (steps 5 to 12) *)

Module FrameFacts.
Import Pd Notebook PdFacts NormalizerFacts OutlierFacts CleaningFacts AmenityFacts ColumnFacts.

Lemma getcol_drop names df df' name :
  drop names df = Ok df' -> existsb (str_eqb name) names = false ->
  getcol df' name = getcol df name.
Proof.
  unfold drop. destruct (forallb (has_column df) names); [|discriminate].
  intros H Hn. injection H as <-.
  induction df as [|[n c] df IH]; simpl; [reflexivity|].
  destruct (str_eqb n name) eqn:E.
  - apply str_eqb_eq in E. subst n. rewrite Hn. simpl.
    assert (Hrefl : str_eqb name name = true) by (apply str_eqb_eq; reflexivity).
    rewrite Hrefl. reflexivity.
  - destruct (existsb (str_eqb n) names); simpl; [exact IH|]. rewrite E. exact IH.
Qed.

(** Row selections applied one after the other. *)
Definition selects {A : Type} (masks : list (list bool)) (l : list A) : list A :=
  fold_left (fun c m => select m c) masks l.

Lemma selects_map {A B : Type} (f : A -> B) masks : forall l,
  selects masks (List.map f l) = List.map f (selects masks l).
Proof.
  unfold selects. induction masks as [|m masks IH]; intros l; simpl; [reflexivity|].
  rewrite select_map. apply IH.
Qed.




(** [rows names df df']: the columns [names] of [df'] are those of [df],
    cut down by the same row selections. *)
Definition rows (names : list str) (df df' : DataFrame) : Prop :=
  exists masks, forall name, In name names ->
    getcol df' name = (c <- getcol df name ;; Ok (selects masks c)).

Lemma rows_get names df df' name c :
  rows names df df' -> In name names -> getcol df name = Ok c ->
  exists masks, (forall n, In n names ->
                   getcol df' n = (c <- getcol df n ;; Ok (selects masks c)))
                /\ getcol df' name = Ok (selects masks c).
Proof.
  intros (masks & H) Hin Hc. exists masks. split; [exact H|].
  rewrite (H _ Hin), Hc. reflexivity.
Qed.

Lemma rows_trans names a b c : rows names a b -> rows names b c -> rows names a c.
Proof.
  intros (m1 & H1) (m2 & H2). exists (m1 ++ m2). intros name Hin.
  rewrite (H2 _ Hin), (H1 _ Hin).
  destruct (getcol a name) as [x|e]; simpl; [|reflexivity].
  unfold selects. rewrite fold_left_app. reflexivity.
Qed.

Definition unwritten (names : list str) (n : str) : bool :=
  negb (existsb (str_eqb n) names).

Lemma unwritten_neq names n name :
  unwritten names n = true -> In name names -> str_eqb n name = false.
Proof.
  unfold unwritten. intros H Hin. apply negb_true_iff in H.
  destruct (str_eqb n name) eqn:E; [|reflexivity].
  rewrite <- H. symmetry. apply existsb_exists. exists name. auto.
Qed.

Lemma rows_setcol names df n v :
  unwritten names n = true -> rows names df (setcol df n v).
Proof.
  intros Hn. exists []. intros name Hin.
  rewrite getcol_setcol_other by (eapply unwritten_neq; eauto).
  destruct (getcol df name); reflexivity.
Qed.

Lemma rows_loc names mask df : rows names df (loc mask df).
Proof. exists [mask]. intros name _. apply getcol_loc. Qed.

Lemma rows_drop names dropped df df' :
  forallb (unwritten names) dropped = true ->
  drop dropped df = Ok df' -> rows names df df'.
Proof.
  intros Hd H. exists []. intros name Hin.
  rewrite (@getcol_drop dropped df df' name H).
  - destruct (getcol df name); reflexivity.
  - destruct (existsb (str_eqb name) dropped) eqn:E; [|reflexivity].
    apply existsb_exists in E. destruct E as (d & Hdin & E).
    apply str_eqb_eq in E. subst d.
    rewrite forallb_forall in Hd. specialize (Hd _ Hdin).
    assert (Hrefl : str_eqb name name = true) by (apply str_eqb_eq; reflexivity).
    pose proof (@unwritten_neq names name name Hd Hin). congruence.
Qed.

Lemma rows_step6 names df df' :
  forallb (unwritten names) [u "city"; u "neighborhood"; u "region"; u "location"] = true ->
  step6 df = Ok df' -> rows names df df'.
Proof.
  intros Hn H. simpl in Hn.
  apply andb_prop in Hn. destruct Hn as [H1 Hn].
  apply andb_prop in Hn. destruct Hn as [H2 Hn].
  apply andb_prop in Hn. destruct Hn as [H3 Hn].
  unfold step6 in H. unbind H 6. cbv zeta in H.
  eapply rows_trans; [apply rows_setcol, H1|].
  eapply rows_trans; [apply rows_setcol, H2|].
  eapply rows_trans; [apply rows_setcol, H3|].
  eapply rows_drop; [|exact H]. simpl. exact Hn.
Qed.

Lemma rows_step7 names df df' :
  unwritten names (u "price") = true -> step7 df = Ok df' -> rows names df df'.
Proof.
  intros Hn H. unfold step7 in H. unbind H 2. unfold dropna in H. unbind H 1.
  injection H as <-.
  eapply rows_trans; [apply rows_setcol, Hn|apply rows_loc].
Qed.

Lemma rows_step8 names df df' :
  unwritten names (u "price_per_sqm") = true -> step8 df = Ok df' -> rows names df df'.
Proof.
  intros Hn H. unfold step8 in H. unbind H 4. injection H as <-.
  apply rows_setcol, Hn.
Qed.

Lemma rows_extract_loop names todo : forall df df',
  forallb (unwritten names) (List.map amenity_column todo) = true ->
  extract_loop todo df = Ok df' -> rows names df df'.
Proof.
  induction todo as [|a todo IH]; intros df df' Hn H; simpl in H.
  - injection H as <-. exists []. intros name _. destruct (getcol df name); reflexivity.
  - simpl in Hn. apply andb_prop in Hn. destruct Hn as [Ha Hn].
    unbind H 2. eapply rows_trans; [apply rows_setcol, Ha|]. apply IH; [exact Hn|exact H].
Qed.

Lemma rows_step9 names df df' :
  forallb (unwritten names) (u "Informacje dodatkowe" :: List.map amenity_column amenities)
  = true ->
  step9 df = Ok df' -> rows names df df'.
Proof.
  intros Hn H. cbn [forallb] in Hn. apply andb_prop in Hn. destruct Hn as [Hi Hn].
  unfold step9, extract_amenities in H.
  apply bind_ok in H. destruct H as (d & Hd & H).
  eapply rows_trans; [eapply rows_extract_loop; [exact Hn|exact Hd]|].
  eapply rows_drop; [|exact H]. simpl. rewrite Hi. reflexivity.
Qed.

Lemma rows_step10 names df df' : step10 df = Ok df' -> rows names df df'.
Proof.
  intros H. unfold step10 in H. apply bind_ok in H. destruct H as (d & Hd & H).
  apply remove_outliers_inv in Hd. destruct Hd as (? & ? & _ & _ & ->).
  apply remove_outliers_inv in H. destruct H as (? & ? & _ & _ & ->).
  eapply rows_trans; apply rows_loc.
Qed.

Lemma rows_step11 names df df' :
  unwritten names (u "log_price") = true -> step11 df = Ok df' -> rows names df df'.
Proof.
  intros Hn H. unfold step11 in H. unbind H 2. injection H as <-.
  apply rows_setcol, Hn.
Qed.

Lemma astype_float_floats s s' :
  astype_float s = Ok s' -> exists r, s' = List.map Num r.
Proof.
  intros H. apply astype_float_numeric in H.
  induction H as [|c l (x & ->) _ (r & ->)].
  - exists []. reflexivity.
  - exists (x :: r). reflexivity.
Qed.

Lemma isna_int_Num r :
  isna_int (List.map Num r) = List.map (fun x => of_bool (isna x)) r.
Proof.
  unfold isna_int. rewrite map_map. apply map_ext. intros [q| | |]; reflexivity.
Qed.

(** The frames between the cells of a successful run. *)
Lemma prepare_inv df df' :
  prepare df = Ok df' ->
  exists df3 df4 df5 df6 df7 df8 df9 df10,
    step3 df = Ok df3 /\ step4 df3 = Ok df4 /\ step5 df4 = Ok df5
    /\ step6 df5 = Ok df6 /\ step7 df6 = Ok df7 /\ step8 df7 = Ok df8
    /\ step9 df8 = Ok df9 /\ step10 df9 = Ok df10 /\ step11 df10 = Ok df'.
Proof.
  unfold prepare, clean. intros H.
  apply bind_ok in H. destruct H as (df10 & H & H11).
  apply bind_ok in H. destruct H as (df3 & H3 & H).
  apply bind_ok in H. destruct H as (df4 & H4 & H).
  apply bind_ok in H. destruct H as (df5 & H5 & H).
  apply bind_ok in H. destruct H as (df6 & H6 & H).
  apply bind_ok in H. destruct H as (df7 & H7 & H).
  apply bind_ok in H. destruct H as (df8 & H8 & H).
  apply bind_ok in H. destruct H as (df9 & H9 & H10).
  exists df3, df4, df5, df6, df7, df8, df9, df10. repeat split; assumption.
Qed.

(** X5: in the prepared frame the column [has_czynsz] is 1 on exactly the
    rows whose rent is missing and 0 on the rows that have a rent: the
    row filters of steps 7 and 10 keep the two columns aligned. *)
Theorem rent_flag_marks_missing_rent (df df' : DataFrame) :
  prepare df = Ok df' ->
  exists r : list fval,
    getcol df' (u "Czynsz") = Ok (List.map Num r)
    /\ getcol df' (u "has_czynsz") = Ok (List.map (fun x => of_bool (isna x)) r).
Proof.
  intros H. apply prepare_inv in H.
  destruct H as (df3 & df4 & df5 & df6 & df7 & df8 & df9 & df10
                 & _ & H4 & H5 & H6 & H7 & H8 & H9 & H10 & H11).
  set (names := [u "Czynsz"; u "has_czynsz"]).
  assert (Hrows : rows names df5 df').
  { eapply rows_trans; [apply (@rows_step6 names _ _ eq_refl H6)|].
    eapply rows_trans; [apply (@rows_step7 names _ _ eq_refl H7)|].
    eapply rows_trans; [apply (@rows_step8 names _ _ eq_refl H8)|].
    eapply rows_trans; [apply (@rows_step9 names _ _ eq_refl H9)|].
    eapply rows_trans; [apply (@rows_step10 names _ _ H10)|].
    apply (@rows_step11 names _ _ eq_refl H11). }
  unfold step4 in H4. apply bind_ok in H4. destruct H4 as (c & _ & H4).
  apply bind_ok in H4. destruct H4 as (c' & Hc' & H4). injection H4 as <-.
  rewrite clean_czynsz_cells in Hc'. apply astype_float_floats in Hc'.
  destruct Hc' as (r & ->).
  unfold step5 in H5. rewrite getcol_setcol_same in H5. simpl in H5. injection H5 as <-.
  destruct Hrows as (masks & Hm). exists (selects masks r). split.
  - rewrite (Hm (u "Czynsz")) by (left; reflexivity).
    rewrite getcol_setcol_other by reflexivity.
    rewrite getcol_setcol_same. simpl. rewrite selects_map. reflexivity.
  - rewrite (Hm (u "has_czynsz")) by (right; left; reflexivity).
    rewrite getcol_setcol_same. simpl.
    rewrite isna_int_Num, !selects_map. reflexivity.
Qed.

Lemma rent_flag_marks_missing_rent_witness :
  exists df' r,
    prepare Samples.catalogue = Ok df'
    /\ getcol df' (u "Czynsz") = Ok (List.map Num r)
    /\ getcol df' (u "has_czynsz") = Ok (List.map (fun x => of_bool (isna x)) r).
Proof.
  destruct (prepare Samples.catalogue) as [df'|e] eqn:E.
  - destruct (rent_flag_marks_missing_rent Samples.catalogue E) as (r & H1 & H2).
    exists df', r. auto.
  - exfalso. vm_compute in E. discriminate E.
Defined.





End FrameFacts.

(** ** Column names in and out (steps 3 to 13) *)

Module SchemaFacts.
Import Pd Notebook PdFacts OutlierFacts CleaningFacts AmenityFacts ColumnFacts FrameFacts.

Lemma getcol_In df name c : getcol df name = Ok c -> In name (columns df).
Proof.
  induction df as [|[n x] df IH]; simpl; [discriminate|].
  destruct (str_eqb n name) eqn:E; [|auto].
  apply str_eqb_eq in E. auto.
Qed.

Lemma has_column_In df name : has_column df name = true -> In name (columns df).
Proof.
  unfold has_column. intros H. apply existsb_exists in H.
  destruct H as (x & Hx & E). apply str_eqb_eq in E. subst x. exact Hx.
Qed.

Lemma step10_columns df df' : step10 df = Ok df' -> columns df' = columns df.
Proof.
  intros H. unfold step10 in H. apply bind_ok in H. destruct H as (d & Hd & H).
  apply remove_outliers_inv in Hd. destruct Hd as (? & ? & _ & _ & ->).
  apply remove_outliers_inv in H. destruct H as (? & ? & _ & _ & ->).
  rewrite !columns_loc. reflexivity.
Qed.

(** [origin news df df']: every column of [df'] is a column of [df] or one
    of [news]. *)
Definition origin (news : list str) (df df' : DataFrame) : Prop :=
  forall x, In x (columns df') -> In x (columns df) \/ In x news.

Lemma origin_setcol df n v : origin [n] df (setcol df n v).
Proof.
  intros x Hx. apply columns_setcol_inv in Hx. destruct Hx as [->|Hx]; simpl; auto.
Qed.

Lemma origin_loc mask df : origin [] df (loc mask df).
Proof. intros x Hx. rewrite columns_loc in Hx. auto. Qed.

Lemma origin_drop names df df' : drop names df = Ok df' -> origin [] df df'.
Proof.
  intros H x Hx. rewrite (columns_drop _ _ H) in Hx. apply filter_In in Hx. tauto.
Qed.

Lemma origin_trans n1 n2 a b c :
  origin n1 a b -> origin n2 b c -> origin (n1 ++ n2) a c.
Proof.
  intros H1 H2 x Hx. destruct (H2 x Hx) as [Hb|Hn].
  - destruct (H1 x Hb) as [Ha|Hn]; [auto|]. right. apply in_or_app. auto.
  - right. apply in_or_app. auto.
Qed.

Lemma origin_step3 df df' : step3 df = Ok df' -> origin [u "size"] df df'.
Proof. intros H. unfold step3 in H. unbind H 2. injection H as <-. apply origin_setcol. Qed.

Lemma origin_step4 df df' : step4 df = Ok df' -> origin [u "Czynsz"] df df'.
Proof. intros H. unfold step4 in H. unbind H 2. injection H as <-. apply origin_setcol. Qed.

Lemma origin_step5 df df' : step5 df = Ok df' -> origin [u "has_czynsz"] df df'.
Proof. intros H. unfold step5 in H. unbind H 1. injection H as <-. apply origin_setcol. Qed.

Lemma origin_step6 df df' :
  step6 df = Ok df' -> origin [u "city"; u "neighborhood"; u "region"] df df'.
Proof.
  intros H x Hx. unfold step6 in H. unbind H 6. cbv zeta in H.
  apply origin_drop in H. destruct (H x Hx) as [Hx'|[]].
  repeat (apply columns_setcol_inv in Hx'; destruct Hx' as [->|Hx']; [simpl; tauto|]).
  left. exact Hx'.
Qed.

Lemma origin_step7 df df' : step7 df = Ok df' -> origin [u "price"] df df'.
Proof.
  intros H x Hx. unfold step7 in H. unbind H 2. unfold dropna in H. unbind H 1.
  injection H as <-. rewrite columns_loc in Hx. apply origin_setcol in Hx. exact Hx.
Qed.

Lemma origin_step8 df df' : step8 df = Ok df' -> origin [u "price_per_sqm"] df df'.
Proof. intros H. unfold step8 in H. unbind H 4. injection H as <-. apply origin_setcol. Qed.

Lemma origin_extract_loop todo : forall df df',
  extract_loop todo df = Ok df' -> origin (List.map amenity_column todo) df df'.
Proof.
  induction todo as [|a todo IH]; intros df df' H x Hx; simpl in H.
  - injection H as <-. auto.
  - unbind H 2. destruct (IH _ _ H x Hx) as [Hx'|Hx']; [|right; right; exact Hx'].
    apply columns_setcol_inv in Hx'. destruct Hx' as [->|Hx']; [right; left|left]; auto.
Qed.

Lemma origin_step9 df df' :
  step9 df = Ok df' -> origin (List.map amenity_column amenities) df df'.
Proof.
  intros H x Hx. unfold step9, extract_amenities in H.
  apply bind_ok in H. destruct H as (d & Hd & H).
  apply origin_drop in H. destruct (H x Hx) as [Hx'|[]].
  exact (@origin_extract_loop _ _ _ Hd x Hx').
Qed.

Lemma origin_step10 df df' : step10 df = Ok df' -> origin [] df df'.
Proof.
  intros H x Hx. apply (step10_columns) in H. rewrite H in Hx. auto.
Qed.

Lemma origin_step11 df df' : step11 df = Ok df' -> origin [u "log_price"] df df'.
Proof. intros H. unfold step11 in H. unbind H 2. injection H as <-. apply origin_setcol. Qed.

Ltac not_new H := simpl in H; repeat (destruct H as [H|H]; [discriminate H|]); contradiction.

(** X7: the columns the notebook cannot do without.  If the preparation
    and the feature/target split go through, the frame read from the CSV
    had the columns [size], [Czynsz], [location], [price], [Informacje
    dodatkowe] and [title]; without any one of them some cell raises. *)
Theorem required_columns (df df' : DataFrame) (Xy : DataFrame * Series) :
  prepare df = Ok df' -> step12 df' = Ok Xy ->
  Forall (fun name => In name (columns df))
    [u "size"; u "Czynsz"; u "location"; u "price"; u "Informacje dodatkowe"; u "title"].
Proof.
  intros H H12. apply prepare_inv in H.
  destruct H as (df3 & df4 & df5 & df6 & df7 & df8 & df9 & df10
                 & H3 & H4 & H5 & H6 & H7 & H8 & H9 & H10 & H11).
  pose proof (@origin_step3 _ _ H3) as O3. pose proof (@origin_step4 _ _ H4) as O4.
  pose proof (@origin_step5 _ _ H5) as O5. pose proof (@origin_step6 _ _ H6) as O6.
  pose proof (@origin_step7 _ _ H7) as O7. pose proof (@origin_step8 _ _ H8) as O8.
  pose proof (@origin_step9 _ _ H9) as O9. pose proof (@origin_step10 _ _ H10) as O10.
  pose proof (@origin_step11 _ _ H11) as O11.
  pose proof (@origin_trans _ _ _ _ _ O3 O4) as O34. pose proof (@origin_trans _ _ _ _ _ O34 O5) as O35.
  pose proof (@origin_trans _ _ _ _ _ O35 O6) as O36. pose proof (@origin_trans _ _ _ _ _ O36 O7) as O37.
  pose proof (@origin_trans _ _ _ _ _ O37 O8) as O38. pose proof (@origin_trans _ _ _ _ _ O38 O9) as O39.
  pose proof (@origin_trans _ _ _ _ _ O39 O10) as O310. pose proof (@origin_trans _ _ _ _ _ O310 O11) as O311.
  repeat constructor.
  - unfold step3 in H3. apply bind_ok in H3. destruct H3 as (c & Hc & _).
    exact (@getcol_In _ _ _ Hc).
  - unfold step4 in H4. apply bind_ok in H4. destruct H4 as (c & Hc & _).
    apply getcol_In in Hc. destruct (O3 _ Hc) as [G|G]; [exact G|not_new G].
  - unfold step6 in H6. apply bind_ok in H6. destruct H6 as (c & Hc & _).
    apply getcol_In in Hc. destruct (O35 _ Hc) as [G|G]; [exact G|not_new G].
  - unfold step7 in H7. apply bind_ok in H7. destruct H7 as (c & Hc & _).
    apply getcol_In in Hc. destruct (O36 _ Hc) as [G|G]; [exact G|not_new G].
  - unfold step9, extract_amenities in H9. apply bind_ok in H9.
    destruct H9 as (d & Hd & _). cbn [amenities extract_loop] in Hd.
    apply bind_ok in Hd. destruct Hd as (c & Hc & _).
    apply getcol_In in Hc. destruct (O38 _ Hc) as [G|G]; [exact G|not_new G].
  - unfold step12 in H12. apply bind_ok in H12. destruct H12 as (X & HX & _).
    unfold drop in HX.
    destruct (forallb (has_column df') [u "price"; u "log_price"; u "title"]) eqn:E;
      [|discriminate HX].
    cbn [forallb] in E. apply andb_prop in E. destruct E as [_ E].
    apply andb_prop in E. destruct E as [_ E].
    apply andb_prop in E. destruct E as [E _].
    apply has_column_In in E. destruct (O311 _ E) as [G|G]; [exact G|not_new G].
Qed.

Lemma required_columns_witness :
  exists df' Xy,
    prepare Samples.catalogue = Ok df' /\ step12 df' = Ok Xy
    /\ In (u "title") (columns Samples.catalogue).
Proof.
  destruct (prepare Samples.catalogue) as [df'|e] eqn:E.
  - destruct (step12 df') as [Xy|e] eqn:E12.
    + pose proof (@required_columns Samples.catalogue df' Xy E E12) as H.
      rewrite Forall_forall in H. exists df', Xy.
      split; [reflexivity|split; [exact E12|]]. apply H. simpl. tauto.
    + exfalso. vm_compute in E. injection E as <-. vm_compute in E12. discriminate E12.
  - exfalso. vm_compute in E. discriminate E.
Defined.

(** *** The indicator columns the scan of step 13 finds *)

Definition indicator_columns (df : DataFrame) : list str :=
  filter (startswith (u "has_")) (columns df).

Lemma columns_setcol df n v :
  columns (setcol df n v) = if has_column df n then columns df else columns df ++ [n].
Proof.
  unfold has_column, columns. induction df as [|[m c] df IH]; simpl; [reflexivity|].
  destruct (str_eqb m n) eqn:E.
  - apply str_eqb_eq in E. subst m.
    assert (Hrefl : str_eqb n n = true) by (apply str_eqb_eq; reflexivity).
    rewrite Hrefl. reflexivity.
  - assert (Hsym : str_eqb n m = false).
    { apply str_eqb_neq. intros ->.
      assert (Hrefl : str_eqb m m = true) by (apply str_eqb_eq; reflexivity). congruence. }
    rewrite Hsym. simpl. rewrite IH.
    destruct (existsb (str_eqb n) (List.map fst df)); reflexivity.
Qed.

Lemma indicators_setcol_plain df n v :
  startswith (u "has_") n = false ->
  indicator_columns (setcol df n v) = indicator_columns df.
Proof.
  intros Hn. unfold indicator_columns. rewrite columns_setcol.
  destruct (has_column df n); [reflexivity|].
  rewrite filter_app. cbn [filter]. rewrite Hn. apply app_nil_r.
Qed.

Lemma indicators_setcol_new df n v :
  startswith (u "has_") n = true -> ~ In n (indicator_columns df) ->
  indicator_columns (setcol df n v) = indicator_columns df ++ [n].
Proof.
  intros Hn Hnew. unfold indicator_columns in *. rewrite columns_setcol.
  destruct (has_column df n) eqn:E.
  - exfalso. apply Hnew, filter_In. split; [apply has_column_In, E|exact Hn].
  - rewrite filter_app. cbn [filter]. rewrite Hn. reflexivity.
Qed.

Lemma indicators_loc mask df : indicator_columns (loc mask df) = indicator_columns df.
Proof. unfold indicator_columns. rewrite columns_loc. reflexivity. Qed.

Lemma indicators_drop names df df' :
  forallb (fun n => negb (startswith (u "has_") n)) names = true ->
  drop names df = Ok df' -> indicator_columns df' = indicator_columns df.
Proof.
  intros Hn H. unfold indicator_columns. rewrite (columns_drop _ _ H).
  induction (columns df) as [|x l IH]; [reflexivity|]. cbn [filter].
  destruct (existsb (str_eqb x) names) eqn:E; cbn [negb filter].
  - apply existsb_exists in E. destruct E as (y & Hy & E).
    apply str_eqb_eq in E. subst y.
    rewrite forallb_forall in Hn. specialize (Hn _ Hy).
    apply negb_true_iff in Hn. rewrite Hn. exact IH.
  - destruct (startswith (u "has_") x); [f_equal|]; exact IH.
Qed.

Lemma amenity_column_prefix a : startswith (u "has_") (amenity_column a) = true.
Proof. reflexivity. Qed.

Lemma indicators_extract_loop todo : forall df df',
  extract_loop todo df = Ok df' ->
  NoDup (List.map amenity_column todo) ->
  (forall a, In a todo -> ~ In (amenity_column a) (indicator_columns df)) ->
  indicator_columns df' = indicator_columns df ++ List.map amenity_column todo.
Proof.
  induction todo as [|a todo IH]; intros df df' H Hd Hnew; simpl in H.
  - injection H as <-. symmetry. apply app_nil_r.
  - unbind H 2. cbn [List.map] in Hd. inversion Hd as [|n0 l0 Hx Hl]; subst n0 l0.
    rewrite (IH _ _ H Hl).
    + rewrite indicators_setcol_new;
        [|apply amenity_column_prefix|apply Hnew; left; reflexivity].
      rewrite <- app_assoc. reflexivity.
    + intros b Hb.
      rewrite indicators_setcol_new;
        [|apply amenity_column_prefix|apply Hnew; left; reflexivity].
      intros Hin. apply in_app_or in Hin. destruct Hin as [Hin|[Hin|[]]].
      * apply (Hnew b); [right; exact Hb|exact Hin].
      * apply Hx. rewrite Hin. apply in_map, Hb.
Qed.

Lemma indicators_step3 df df' : step3 df = Ok df' -> indicator_columns df' = indicator_columns df.
Proof.
  intros H. unfold step3 in H. unbind H 2. injection H as <-.
  apply indicators_setcol_plain. reflexivity.
Qed.

Lemma indicators_step4 df df' : step4 df = Ok df' -> indicator_columns df' = indicator_columns df.
Proof.
  intros H. unfold step4 in H. unbind H 2. injection H as <-.
  apply indicators_setcol_plain. reflexivity.
Qed.

Lemma indicators_step6 df df' : step6 df = Ok df' -> indicator_columns df' = indicator_columns df.
Proof.
  intros H. unfold step6 in H. unbind H 6. cbv zeta in H.
  rewrite (@indicators_drop [u "location"] _ _ eq_refl H).
  rewrite !indicators_setcol_plain by reflexivity. reflexivity.
Qed.

Lemma indicators_step7 df df' : step7 df = Ok df' -> indicator_columns df' = indicator_columns df.
Proof.
  intros H. unfold step7 in H. unbind H 2. unfold dropna in H. unbind H 1.
  injection H as <-. rewrite indicators_loc. apply indicators_setcol_plain. reflexivity.
Qed.

Lemma indicators_step8 df df' : step8 df = Ok df' -> indicator_columns df' = indicator_columns df.
Proof.
  intros H. unfold step8 in H. unbind H 4. injection H as <-.
  apply indicators_setcol_plain. reflexivity.
Qed.

Lemma indicators_step10 df df' :
  step10 df = Ok df' -> indicator_columns df' = indicator_columns df.
Proof.
  intros H. unfold indicator_columns. rewrite (@step10_columns _ _ H). reflexivity.
Qed.

Lemma indicators_step11 df df' :
  step11 df = Ok df' -> indicator_columns df' = indicator_columns df.
Proof.
  intros H. unfold step11 in H. unbind H 2. injection H as <-.
  apply indicators_setcol_plain. reflexivity.
Qed.

(** X8: when no column of the CSV starts with "has_", the list of numeric
    columns built in step 13 from the prepared frame is the four names
    written out, then [has_czynsz] a second time, then the seven amenity
    indicators in the order of the vocabulary: twelve entries, as the
    notebook displays them. *)
Theorem numerical_features_listed (df df' : DataFrame) :
  prepare df = Ok df' ->
  (forall n, In n (columns df) -> startswith (u "has_") n = false) ->
  numerical_features df'
  = [u "size"; u "Czynsz"; u "has_czynsz"; u "price_per_sqm";
     u "has_czynsz"; u "has_balkon"; u "has_taras"; u "has_garaż_miejsce_parkingowe";
     u "has_piwnica"; u "has_oddzielna_kuchnia"; u "has_ogródek"; u "has_pom._użytkowe"].
Proof.
  intros H Hcsv. apply prepare_inv in H.
  destruct H as (df3 & df4 & df5 & df6 & df7 & df8 & df9 & df10
                 & H3 & H4 & H5 & H6 & H7 & H8 & H9 & H10 & H11).
  assert (H0 : indicator_columns df = []).
  { unfold indicator_columns. induction (columns df) as [|x l IH]; [reflexivity|].
    cbn [filter]. rewrite (Hcsv x) by (left; reflexivity).
    apply IH. intros n Hn. apply Hcsv. right. exact Hn. }
  assert (E5 : indicator_columns df5 = [u "has_czynsz"]).
  { unfold step5 in H5. apply bind_ok in H5. destruct H5 as (c & _ & H5).
    injection H5 as <-.
    assert (E4 : indicator_columns df4 = [])
      by (rewrite (@indicators_step4 _ _ H4), (@indicators_step3 _ _ H3); exact H0).
    rewrite indicators_setcol_new; [rewrite E4; reflexivity|reflexivity|].
    rewrite E4. intros []. }
  assert (E8 : indicator_columns df8 = [u "has_czynsz"]).
  { rewrite (@indicators_step8 _ _ H8), (@indicators_step7 _ _ H7), (@indicators_step6 _ _ H6). exact E5. }
  assert (E9 : indicator_columns df9
               = [u "has_czynsz"] ++ List.map amenity_column amenities).
  { unfold step9, extract_amenities in H9. apply bind_ok in H9.
    destruct H9 as (d & Hd & H9).
    rewrite (@indicators_drop [u "Informacje dodatkowe"] _ _ eq_refl H9).
    rewrite (@indicators_extract_loop _ _ _ Hd amenity_columns_distinct), E8;
      [reflexivity|].
    intros a Ha Hin. rewrite E8 in Hin. destruct Hin as [Hin|[]].
    simpl in Ha. repeat (destruct Ha as [<-|Ha]; [discriminate Hin|]). exact Ha. }
  unfold numerical_features. fold (indicator_columns df').
  rewrite (@indicators_step11 _ _ H11), (@indicators_step10 _ _ H10), E9. reflexivity.
Qed.

Lemma numerical_features_listed_witness :
  exists df', prepare Samples.catalogue = Ok df'
              /\ List.length (numerical_features df') = 12.
Proof.
  destruct (prepare Samples.catalogue) as [df'|e] eqn:E.
  - exists df'. split; [reflexivity|].
    rewrite (@numerical_features_listed Samples.catalogue df' E); [reflexivity|].
    intros n Hn. simpl in Hn.
    repeat (destruct Hn as [<-|Hn]; [reflexivity|]). contradiction.
  - exfalso. vm_compute in E. discriminate E.
Defined.

End SchemaFacts.

(** ** The outlier filter on a column without spread (step 10) *)

Module FenceFacts.
Import Pd Notebook PdFacts OutlierFacts.

(** [x] is the finite float of value [q]. *)
Definition value (x : fval) (q : Q) : Prop := exists q', x = Fin q' /\ (q' == q)%Q.

Lemma value_fadd x y a b : value x a -> value y b -> value (fadd x y) (a + b).
Proof.
  intros (a' & -> & Ha) (b' & -> & Hb). eexists. split; [reflexivity|].
  rewrite Qred_correct, Ha, Hb. reflexivity.
Qed.

Lemma value_fneg x a : value x a -> value (fneg x) (- a).
Proof.
  intros (a' & -> & Ha). eexists. split; [reflexivity|].
  rewrite Qred_correct, Ha. reflexivity.
Qed.

Lemma value_fsub x y a b : value x a -> value y b -> value (fsub x y) (a - b).
Proof. intros Hx Hy. unfold fsub. apply value_fadd; [exact Hx|apply value_fneg, Hy]. Qed.

Lemma value_fmul x y a b : value x a -> value y b -> value (fmul x y) (a * b).
Proof.
  intros (a' & -> & Ha) (b' & -> & Hb). eexists. split; [reflexivity|].
  rewrite Qred_correct, Ha, Hb. reflexivity.
Qed.

Lemma value_Fin q : value (Fin q) q.
Proof. exists q. split; reflexivity. Qed.

Lemma value_eq x a b : value x a -> (a == b)%Q -> value x b.
Proof. intros (a' & -> & Ha) Hab. exists a'. split; [reflexivity|]. rewrite Ha. exact Hab. Qed.

Lemma value_lerp x y q t : value x q -> value y q -> value (lerp x y t) q.
Proof.
  intros Hx Hy. unfold lerp.
  destruct (Qle_bool (1 # 2) t).
  - eapply value_eq; [apply value_fsub; [exact Hy|]|].
    + apply value_fmul; [apply value_fsub; [exact Hy|exact Hx]|apply value_Fin].
    + ring.
  - eapply value_eq; [apply value_fadd; [exact Hx|]|].
    + apply value_fmul; [apply value_fsub; [exact Hy|exact Hx]|apply value_Fin].
    + ring.
Qed.

Lemma flt_value x y q : value x q -> value y q -> flt x y = false.
Proof.
  intros (a & -> & Ha) (b & -> & Hb). simpl. unfold Qltb.
  apply negb_false_iff, Qle_bool_iff. rewrite Ha, Hb. apply Qle_refl.
Qed.

(** A column that holds one value, some rows perhaps missing. *)
Definition constant (q : Q) (v : list fval) : Prop :=
  Forall (fun x => x = Fin q \/ x = NaN) v.

Lemma constant_present q v :
  constant q v -> present_values v = repeat (Fin q) (List.length (present_values v)).
Proof.
  unfold present_values. induction 1 as [|x v [->| ->] _ IH]; simpl; [reflexivity| |exact IH].
  f_equal. exact IH.
Qed.

Lemma sort_repeat q n : sort (repeat (Fin q) n) = repeat (Fin q) n.
Proof.
  induction n as [|n IH]; simpl; [reflexivity|].
  unfold sort in *. rewrite IH. destruct n; simpl; [reflexivity|].
  unfold Qltb. replace (Qle_bool q q) with true; [reflexivity|].
  symmetry. apply Qle_bool_iff, Qle_refl.
Qed.

Lemma nth_repeat_lt {A : Type} (a d : A) n i : i < n -> nth i (repeat a n) d = a.
Proof.
  revert i. induction n as [|n IH]; intros [|i] H; simpl; try lia; [reflexivity|].
  apply IH. lia.
Qed.

(** Every quantile of a constant column is its value. *)
Lemma quantile_constant q t v :
  (0 <= t)%Q -> (t <= 1)%Q -> constant q v -> present_values v <> [] ->
  value (quantile t v) q.
Proof.
  intros Ht0 Ht1 Hc Hne. unfold quantile. fold (present_values v).
  rewrite (constant_present Hc) in *.
  set (n := List.length (present_values v)) in *.
  rewrite sort_repeat.
  destruct n as [|n]; [simpl in Hne; congruence|].
  cbv zeta. rewrite repeat_length.
  change (match repeat (Fin q) (S n) with [] => NaN | _ :: _ => ?x end) with x.
  set (h := (inject_Z (Z.of_nat (S n - 1)) * t)%Q).
  assert (Hh0 : (0 <= h)%Q).
  { unfold h. apply Qmult_le_0_compat; [|exact Ht0].
    change 0%Q with (inject_Z 0). rewrite <- Zle_Qle. lia. }
  assert (Hh1 : (h <= inject_Z (Z.of_nat n))%Q).
  { unfold h. replace (S n - 1) with n by lia.
    rewrite Qmult_comm. rewrite <- (Qmult_1_l (inject_Z (Z.of_nat n))) at 2.
    apply Qmult_le_compat_r; [exact Ht1|].
    change 0%Q with (inject_Z 0). rewrite <- Zle_Qle. lia. }
  assert (Hf0 : (0 <= Qfloor h)%Z).
  { change 0%Z with (Qfloor (inject_Z 0)). apply Qfloor_resp_le. exact Hh0. }
  assert (Hf1 : (Qfloor h <= Z.of_nat n)%Z).
  { rewrite <- (Qfloor_Z (Z.of_nat n)). apply Qfloor_resp_le. exact Hh1. }
  apply value_lerp.
  - rewrite nth_repeat_lt by lia. apply value_Fin.
  - rewrite nth_repeat_lt by lia. apply value_Fin.
Qed.

Lemma constant_spec_keep q v x : constant q v -> In x v -> spec_keep v x = false.
Proof.
  intros Hc Hin. unfold constant in Hc. rewrite Forall_forall in Hc.
  destruct (Hc x Hin) as [->| ->]; [|reflexivity].
  assert (Hne : present_values v <> []).
  { intros E. assert (H : In (Fin q) (present_values v))
      by (apply filter_In; split; [exact Hin|reflexivity]).
    rewrite E in H. exact H. }
  assert (Hc' : constant q v) by (apply Forall_forall; exact Hc).
  unfold spec_keep. rewrite !quantile_present. cbv zeta.
  assert (H1 : value (quantile 0.25 v) q)
    by (apply quantile_constant; [discriminate|discriminate|exact Hc'|exact Hne]).
  assert (H3 : value (quantile 0.75 v) q)
    by (apply quantile_constant; [discriminate|discriminate|exact Hc'|exact Hne]).
  rewrite (@flt_value _ (Fin q) q); [reflexivity| |apply value_Fin].
  eapply value_eq; [apply value_fsub; [exact H1|]|].
  - apply value_fmul; [apply value_Fin|apply value_fsub; [exact H3|exact H1]].
  - ring.
Qed.

Lemma select_none {A : Type} mask : forall l : list A,
  Forall (fun b => b = false) mask -> select mask l = [].
Proof.
  induction mask as [|b mask IH]; intros [|x l] H; simpl; try reflexivity.
  inversion H as [|b' m' Hb Hm]; subst b' m'. rewrite Hb. apply IH, Hm.
Qed.

(** X9: a column without spread loses every row.  When all the values of
    the filtered column are equal (some perhaps missing), the quartiles
    coincide, both strict fences fall on that value, no row passes, and
    the result is the frame with the same columns and no rows.  A frame
    with a single finite value in the column is such a frame. *)
Theorem constant_column_is_emptied (df : DataFrame) (column : str) (c : Series)
    (v : list fval) (q : Q) :
  getcol df column = Ok c -> floats c = Ok v -> constant q v ->
  exists df', remove_outliers df column = Ok df'
              /\ columns df' = columns df
              /\ forall name col, getcol df' name = Ok col -> col = [].
Proof.
  intros Hc Hv Hq. exists (loc (spec_mask v) df).
  split; [apply remove_outliers_mask with (c := c); assumption|].
  split; [apply ColumnFacts.columns_loc|].
  intros name col H. rewrite getcol_loc in H.
  destruct (getcol df name) as [c0|e]; simpl in H; [|discriminate H].
  injection H as <-. apply select_none.
  unfold spec_mask. apply Forall_forall. intros b Hb.
  apply in_map_iff in Hb. destruct Hb as (x & <- & Hx).
  apply (@constant_spec_keep q v x Hq Hx).
Qed.

Definition flat_market : DataFrame :=
  [(u "title", [Text (u "a"); Text (u "b"); Text (u "c")]);
   (u "price", [Num (Fin 250000); Num NaN; Num (Fin 250000)])].

Lemma constant_column_is_emptied_witness :
  exists df', remove_outliers flat_market (u "price") = Ok df'
              /\ columns df' = columns flat_market
              /\ forall name col, getcol df' name = Ok col -> col = [].
Proof.
  apply (@constant_column_is_emptied flat_market (u "price")
           [Num (Fin 250000); Num NaN; Num (Fin 250000)]
           [Fin 250000; NaN; Fin 250000] 250000 eq_refl eq_refl).
  constructor; [left; reflexivity|].
  constructor; [right; reflexivity|].
  constructor; [left; reflexivity|constructor].
Defined.

(** *** The rows between the quartiles *)

Lemma flt_values x y a b : value x a -> value y b -> (a < b)%Q -> flt x y = true.
Proof.
  intros (a' & -> & Ha) (b' & -> & Hb) Hlt. simpl. unfold Qltb.
  apply negb_true_iff. destruct (Qle_bool b' a') eqn:E; [|reflexivity].
  apply Qle_bool_iff in E. rewrite Ha, Hb in E. lra.
Qed.

(** X15: the filter never removes a row that lies between the quartiles.
    When the quartiles of the column differ, every row whose value is at
    least the first and at most the third quartile is kept. *)
Theorem interquartile_rows_survive (df : DataFrame) (column : str) (c : Series)
    (v : list fval) (q1 q3 : Q) :
  getcol df column = Ok c -> floats c = Ok v ->
  quantile 0.25 v = Fin q1 -> quantile 0.75 v = Fin q3 -> (q1 < q3)%Q ->
  exists df' col,
    remove_outliers df column = Ok df' /\ getcol df' column = Ok col
    /\ forall a, In (Fin a) v -> (q1 <= a)%Q -> (a <= q3)%Q -> In (Num (Fin a)) col.
Proof.
  intros Hc Hv H1 H3 Hlt.
  exists (loc (spec_mask v) df), (List.map Num (filter (spec_keep v) v)).
  split; [apply remove_outliers_mask with (c := c); assumption|].
  split.
  - rewrite getcol_loc, Hc. simpl. rewrite (floats_numeric _ Hv), select_map.
    unfold spec_mask. rewrite select_map_filter. reflexivity.
  - intros a Hin Hlo Hhi. apply in_map, filter_In. split; [exact Hin|].
    unfold spec_keep. rewrite !quantile_present, H1, H3. cbv zeta.
    assert (Hiqr : value (fmul (Fin 1.5) (fsub (Fin q3) (Fin q1))) (1.5 * (q3 - q1)))
      by (apply value_fmul; [apply value_Fin|apply value_fsub; apply value_Fin]).
    rewrite (@flt_values _ (Fin a) (q1 - 1.5 * (q3 - q1)) a);
      [|apply value_fsub; [apply value_Fin|exact Hiqr]|apply value_Fin|lra].
    rewrite (@flt_values (Fin a) _ a (q3 + 1.5 * (q3 - q1)));
      [reflexivity|apply value_Fin|apply value_fadd; [apply value_Fin|exact Hiqr]|lra].
Qed.

Lemma interquartile_rows_survive_witness :
  exists df' col,
    remove_outliers Samples.priced (u "price") = Ok df'
    /\ getcol df' (u "price") = Ok col /\ In (Num (Fin 300)) col.
Proof.
  destruct (@interquartile_rows_survive Samples.priced (u "price") _ _ 200 400
              eq_refl eq_refl eq_refl eq_refl eq_refl)
    as (df' & col & H1 & H2 & H3).
  exists df', col. split; [exact H1|]. split; [exact H2|].
  apply H3; [simpl; tauto|discriminate|discriminate].
Defined.

End FenceFacts.

(** ** The categorical branch: one-hot encoding (step 13) *)

Module EncoderFacts.
Import Pd Sk Notebook CleaningFacts.

Lemma str_ltb_irrefl a : str_ltb a a = false.
Proof.
  induction a as [|x a IH]; simpl; [reflexivity|].
  rewrite N.ltb_irrefl, N.eqb_refl, IH. reflexivity.
Qed.

Lemma str_ltb_trans : forall a b c,
  str_ltb a b = true -> str_ltb b c = true -> str_ltb a c = true.
Proof.
  induction a as [|x a IH]; intros [|y b] [|z c]; simpl; try discriminate; auto.
  intros H1 H2. apply orb_prop in H1, H2. apply orb_true_iff.
  destruct H1 as [H1|H1], H2 as [H2|H2].
  - left. apply N.ltb_lt in H1, H2. apply N.ltb_lt. lia.
  - apply andb_prop in H2. destruct H2 as [E _]. apply N.eqb_eq in E. subst z. auto.
  - apply andb_prop in H1. destruct H1 as [E _]. apply N.eqb_eq in E. subst y. auto.
  - apply andb_prop in H1, H2. destruct H1 as [E1 H1], H2 as [E2 H2].
    apply N.eqb_eq in E1, E2. subst y z. right. rewrite N.eqb_refl. simpl.
    eapply IH; eauto.
Qed.

Lemma str_ltb_total : forall a b,
  str_ltb a b = false -> str_eqb a b = false -> str_ltb b a = true.
Proof.
  induction a as [|x a IH]; intros [|y b] H E; simpl in *; try discriminate; auto.
  apply orb_false_iff in H. destruct H as [Hlt H].
  apply N.ltb_ge in Hlt. apply orb_true_iff.
  destruct (N.eqb_spec x y) as [->|Hne].
  - right. rewrite N.eqb_refl. simpl. simpl in H. apply IH; [exact H|].
    apply str_eqb_neq. intros ->.
    assert (Hrefl : str_eqb (y :: b) (y :: b) = true) by (apply str_eqb_eq; reflexivity).
    congruence.
  - left. apply N.ltb_lt. lia.
Qed.

Definition before (a b : str) : Prop := str_ltb a b = true.

Lemma insert_cat_In x a l : In x (insert_cat a l) <-> x = a \/ In x l.
Proof.
  induction l as [|y l IH]; simpl.
  - split; [intros [H|[]]; subst; auto|intros [H|[]]; subst; auto].
  - destruct (str_eqb a y) eqn:E.
    + apply str_eqb_eq in E. subst y. simpl. clear IH.
      split; [intros [H|H]; subst; auto|intros [H|[H|H]]; subst; auto].
    + destruct (str_ltb a y); simpl.
      * split; [intros [H|[H|H]]; subst; auto|intros [H|[H|H]]; subst; auto].
      * rewrite IH. split; [intros [H|[H|H]]; subst; auto|intros [H|[H|H]]; subst; auto].
Qed.

Lemma insert_cat_sorted a l :
  StronglySorted before l -> StronglySorted before (insert_cat a l).
Proof.
  induction 1 as [|y l Hs IH Hy]; simpl.
  - constructor; constructor.
  - destruct (str_eqb a y) eqn:E; [constructor; assumption|].
    destruct (str_ltb a y) eqn:L.
    + constructor; [constructor; assumption|].
      constructor; [exact L|].
      rewrite Forall_forall in *. intros z Hz. eapply str_ltb_trans; [exact L|]. apply Hy, Hz.
    + constructor; [exact IH|].
      rewrite Forall_forall in *. intros z Hz. apply insert_cat_In in Hz.
      destruct Hz as [->|Hz]; [|auto]. apply str_ltb_total; assumption.
Qed.

Lemma sorted_NoDup l : StronglySorted before l -> NoDup l.
Proof.
  induction 1 as [|y l Hs IH Hy]; constructor; [|exact IH].
  intros Hin. rewrite Forall_forall in Hy. specialize (Hy y Hin).
  unfold before in Hy. rewrite str_ltb_irrefl in Hy. discriminate.
Qed.

Definition categories (vals : list str) : list str := fold_right insert_cat [] vals.

Lemma categories_sorted vals : StronglySorted before (categories vals).
Proof.
  induction vals as [|v vals IH]; simpl; [constructor|]. apply insert_cat_sorted, IH.
Qed.

Lemma categories_In vals x : In x (categories vals) <-> In x vals.
Proof.
  induction vals as [|v vals IH]; simpl; [tauto|].
  rewrite insert_cat_In, IH. split; intros [H|H]; subst; auto.
Qed.

Definition hot (v k : str) : Q := if str_eqb v k then 1%Q else 0%Q.

(** The entries of an encoded row add up to the number of categories the
    value is equal to. *)
Lemma row_sum v cats :
  (Qsum (List.concat (List.map (fun k => [hot v k]) cats))
   == inject_Z (Z.of_nat (count_occ ColumnFacts.str_eq_dec cats v)))%Q.
Proof.
  induction cats as [|k cats IH]; simpl; [reflexivity|].
  rewrite IH. unfold hot.
  destruct (ColumnFacts.str_eq_dec k v) as [->|Hne].
  - assert (Hrefl : str_eqb v v = true) by (apply str_eqb_eq; reflexivity).
    rewrite Hrefl, Nat2Z.inj_succ, <- Z.add_1_l, inject_Z_plus. reflexivity.
  - rewrite str_eqb_neq by congruence. apply Qplus_0_l.
Qed.

(** X10: the one-hot encoder.  Its categories are the distinct values seen
    when fitting, in increasing order, a missing cell counting as the text
    "missing".  A cell is encoded as one entry per category; the entries
    add up to 1 when its value was seen at fit time and to 0 otherwise: a
    value not seen before gives the all-zero row and does not raise. *)
Theorem one_hot_encoding (train : Series) (cats : list str) (c : cell) (v : str) :
  fit_cat train = Ok cats -> fill_missing c = Ok v ->
  exists vals m,
    mapM fill_missing train = Ok vals
    /\ StronglySorted before cats /\ NoDup cats /\ (forall x, In x cats <-> In x vals)
    /\ transform_cat cats [c] = Ok m
    /\ List.length m = List.length cats
    /\ (Qsum (List.concat m) == if existsb (str_eqb v) vals then 1 else 0)%Q.
Proof.
  intros Hfit Hc. unfold fit_cat in Hfit.
  destruct train as [|c0 train]; [discriminate Hfit|].
  apply bind_ok in Hfit. destruct Hfit as (vals & Hvals & Hfit). injection Hfit as <-.
  fold (categories vals).
  exists vals, (List.map (fun k => [hot v k]) (categories vals)).
  split; [exact Hvals|].
  split; [apply categories_sorted|].
  split; [apply sorted_NoDup, categories_sorted|].
  split; [intros x; apply categories_In|].
  split; [unfold transform_cat; simpl; rewrite Hc; reflexivity|].
  split; [apply length_map|].
  rewrite row_sum.
  destruct (existsb (str_eqb v) vals) eqn:E.
  - apply existsb_exists in E. destruct E as (x & Hx & E). apply str_eqb_eq in E. subst x.
    apply (proj2 (categories_In vals v)) in Hx.
    rewrite (proj1 (NoDup_count_occ' ColumnFacts.str_eq_dec _)
               (sorted_NoDup (categories_sorted vals)) v Hx). reflexivity.
  - rewrite (proj1 (count_occ_not_In ColumnFacts.str_eq_dec _ v)); [reflexivity|].
    intros Hin. apply (proj1 (categories_In vals v)) in Hin.
    assert (H : existsb (str_eqb v) vals = true).
    { apply existsb_exists. exists v. split; [exact Hin|]. apply str_eqb_eq. reflexivity. }
    congruence.
Qed.

Lemma one_hot_encoding_witness :
  exists vals m,
    mapM fill_missing [Text (u "wtórny"); NA; Text (u "pierwotny"); Text (u "wtórny")]
    = Ok vals
    /\ transform_cat [u "missing"; u "pierwotny"; u "wtórny"] [Text (u "nieznany")] = Ok m
    /\ (Qsum (List.concat m) == 0)%Q.
Proof.
  destruct (@one_hot_encoding
              [Text (u "wtórny"); NA; Text (u "pierwotny"); Text (u "wtórny")]
              [u "missing"; u "pierwotny"; u "wtórny"] (Text (u "nieznany")) (u "nieznany")
              eq_refl eq_refl)
    as (vals & m & H1 & _ & _ & _ & H2 & _ & H3).
  exists vals, m. split; [exact H1|]. split; [exact H2|].
  rewrite H3. injection H1 as <-. reflexivity.
Defined.

End EncoderFacts.

(** ** The numeric branch: imputation and scaling (step 13) *)

Module ScalerFacts.
Import Pd Sk Notebook CleaningFacts.















(** *** Infinite entries *)





End ScalerFacts.

(** ** The shape of the transformed matrix (steps 13 to 16) *)

Module ShapeFacts.
Import Pd Sk Notebook CleaningFacts.

(** Every column of the frame has [n] rows. *)
Definition rectangular (n : nat) (X : DataFrame) : Prop :=
  Forall (fun nc => List.length (snd nc) = n) X.

Lemma getcol_rows n X name c :
  rectangular n X -> getcol X name = Ok c ->
  List.length c = n /\ In name (columns X).
Proof.
  induction 1 as [|[m x] X Hx _ IH]; simpl; [discriminate|].
  destruct (str_eqb m name) eqn:E.
  - intros H. injection H as <-. apply str_eqb_eq in E. auto.
  - intros H. destruct (IH H). auto.
Qed.

Definition fitted_some (ns : str * option num_stats) : bool :=
  match snd ns with Some _ => true | None => false end.

(** The number of output columns, as the fitted state fixes it. *)
Definition num_width (st : fitted) : nat := List.length (filter fitted_some (num_ st)).
Definition cat_width (st : fitted) : nat :=
  list_sum (List.map (fun cs => List.length (snd cs)) (cat_ st)).

Lemma floats_length c l : floats c = Ok l -> List.length l = List.length c.
Proof. apply mapM_length. Qed.

Lemma num_block_shape n X : rectangular n X -> forall l nb,
  mapM (fun ns => c <- num_column X (fst ns) ;; transform_num (snd ns) c) l = Ok nb ->
  Forall (fun col => List.length col = n) (List.concat nb)
  /\ List.length (List.concat nb) = List.length (filter fitted_some l)
  /\ Forall (fun ns => In (fst ns) (columns X)) l.
Proof.
  intros HX. induction l as [|[name s] l IH]; intros nb H; simpl in H.
  - injection H as <-. simpl. repeat split; constructor.
  - apply bind_ok in H. destruct H as (b & Hb & H).
    apply bind_ok in H. destruct H as (bs & Hbs & H). injection H as <-.
    destruct (IH _ Hbs) as (H1 & H2 & H3).
    apply bind_ok in Hb. destruct Hb as (c & Hc & Hb). cbn [fst snd] in *.
    unfold num_column in Hc. apply bind_ok in Hc. destruct Hc as (c0 & Hc0 & Hc).
    destruct (@getcol_rows n X name c0 HX Hc0) as [Hlen Hin]. apply floats_length in Hc.
    unfold transform_num in Hb. destruct (existsb is_inf c); [discriminate Hb|].
    cbn [List.concat filter fitted_some snd].
    destruct s as [s|]; injection Hb as <-;
      cbn [app fitted_some snd filter List.length].
    + split; [|split].
      * constructor; [|exact H1]. rewrite length_map. unfold impute.
        rewrite length_map. congruence.
      * f_equal. exact H2.
      * constructor; assumption.
    + split; [exact H1|]. split; [exact H2|]. constructor; assumption.
Qed.

Lemma cat_block_shape n X : rectangular n X -> forall l cb,
  mapM (fun cs => c <- getcol X (fst cs) ;; transform_cat (snd cs) c) l = Ok cb ->
  Forall (fun col => List.length col = n) (List.concat cb)
  /\ List.length (List.concat cb) = list_sum (List.map (fun cs => List.length (snd cs)) l)
  /\ Forall (fun cs => In (fst cs) (columns X)) l.
Proof.
  intros HX. induction l as [|[name cats] l IH]; intros cb H; simpl in H.
  - injection H as <-. simpl. repeat split; constructor.
  - apply bind_ok in H. destruct H as (b & Hb & H).
    apply bind_ok in H. destruct H as (bs & Hbs & H). injection H as <-.
    destruct (IH _ Hbs) as (H1 & H2 & H3).
    apply bind_ok in Hb. destruct Hb as (c & Hc & Hb). cbn [fst snd] in *.
    destruct (@getcol_rows n X name c HX Hc) as [Hlen Hin].
    unfold transform_cat in Hb. apply bind_ok in Hb. destruct Hb as (vals & Hvals & Hb).
    injection Hb as <-. apply mapM_length in Hvals.
    cbn [List.concat List.map list_sum fold_right snd].
    split; [|split].
    + apply Forall_app. split; [|exact H1].
      apply Forall_forall. intros col Hcol. apply in_map_iff in Hcol.
      destruct Hcol as (k & <- & _). rewrite length_map. congruence.
    + rewrite length_app, length_map, H2. reflexivity.
    + constructor; assumption.
Qed.

(** X16: the matrix handed to the regressor.  When the transform of a
    frame of [n] rows returns, every output column has [n] entries; the
    number of output columns is fixed by the fitted state alone (one per
    numeric column that had a value at fit time, one per category), so it
    is the same for the training and the held-out partition; and every
    column named at fit time was found in the frame. *)
Theorem transform_shape (st : fitted) (X : DataFrame) (n : nat) (m : matrix) :
  rectangular n X -> ct_transform st X = Ok m ->
  Forall (fun col => List.length col = n) m
  /\ List.length m = num_width st + cat_width st
  /\ Forall (fun name => In name (columns X))
       (List.map fst (num_ st) ++ List.map fst (cat_ st)).
Proof.
  intros HX H. unfold ct_transform in H.
  apply bind_ok in H. destruct H as (nb & Hnb & H).
  apply bind_ok in H. destruct H as (cb & Hcb & H). injection H as <-.
  destruct (@num_block_shape n X HX _ _ Hnb) as (N1 & N2 & N3).
  destruct (@cat_block_shape n X HX _ _ Hcb) as (C1 & C2 & C3).
  split; [apply Forall_app; auto|].
  split; [rewrite length_app, N2, C2; reflexivity|].
  apply Forall_app. split; apply Forall_map; assumption.
Qed.

Lemma transform_shape_witness :
  exists m,
    ct_transform (Fitted [(u "size", Some (NumStats 50 50 10))]
                         [(u "Rynek", [u "pierwotny"; u "wtórny"])])
      [(u "size", [Num (Fin 40); Num NaN]);
       (u "Rynek", [Text (u "wtórny"); Text (u "inny")])] = Ok m
    /\ Forall (fun col => List.length col = 2) m /\ List.length m = 3.
Proof.
  eexists. split; [reflexivity|].
  destruct (@transform_shape
              (Fitted [(u "size", Some (NumStats 50 50 10))]
                      [(u "Rynek", [u "pierwotny"; u "wtórny"])])
              [(u "size", [Num (Fin 40); Num NaN]);
               (u "Rynek", [Text (u "wtórny"); Text (u "inny")])] 2 _
              ltac:(repeat constructor) eq_refl) as (H1 & H2 & _).
  split; [exact H1|exact H2].
Defined.

End ShapeFacts.

(** ** The evaluation (step 16) *)

Module EvaluationFacts.
Import Pd Sk Notebook Model CleaningFacts.

Definition is_finite (y : lval) : Prop := exists r, y = LFin r.

Lemma abs_errors_inv : forall a b e,
  abs_errors a b = Ok e ->
  List.length e = List.length a /\ List.length b = List.length a
  /\ Forall is_finite a /\ Forall is_finite b /\ Forall (fun x => (0 <= x)%R) e.
Proof.
  induction a as [|x a IH]; intros [|y b] e H; simpl in H.
  - injection H as <-. repeat split; constructor.
  - discriminate H.
  - destruct x; discriminate H.
  - destruct x as [r| | |]; try discriminate H.
    destruct y as [r'| | |]; try discriminate H.
    apply bind_ok in H. destruct H as (e' & He' & H). injection H as <-.
    destruct (IH _ _ He') as (H1 & H2 & H3 & H4 & H5).
    simpl. repeat split; try congruence; constructor; auto.
    + exists r. reflexivity.
    + exists r'. reflexivity.
    + apply Rabs_pos.
Qed.

Lemma sum_nonneg e : Forall (fun x => (0 <= x)%R) e -> (0 <= fold_right Rplus 0 e)%R.
Proof.
  induction 1 as [|x e Hx _ IH]; simpl; [apply Rle_refl|].
  apply Rplus_le_le_0_compat; assumption.
Qed.

Lemma mean_absolute_error_inv a b mae :
  mean_absolute_error a b = Ok mae ->
  (0 <= mae)%R /\ a <> [] /\ List.length b = List.length a
  /\ Forall is_finite a /\ Forall is_finite b.
Proof.
  unfold mean_absolute_error. destruct a as [|x a]; [discriminate|].
  intros H. apply bind_ok in H. destruct H as (e & He & H). injection H as <-.
  apply abs_errors_inv in He. destruct He as (H1 & H2 & H3 & H4 & H5).
  split; [|repeat split; auto; discriminate].
  unfold Rdiv. apply Rmult_le_pos; [apply sum_nonneg, H5|].
  apply Rlt_le, Rinv_0_lt_compat. rewrite H1. simpl List.length.
  apply lt_0_INR. lia.
Qed.

Lemma mapM_map_Forall {A B C : Type} (f : A -> result B) (g : B -> C) (P : C -> Prop) :
  forall l r, mapM f l = Ok r -> Forall P (List.map g r) ->
  Forall (fun a => exists b, f a = Ok b /\ P (g b)) l.
Proof.
  induction l as [|a l IH]; intros r H HP; [constructor|].
  simpl in H. apply bind_ok in H. destruct H as (b & Hb & H).
  apply bind_ok in H. destruct H as (bs & Hbs & H). injection H as <-.
  simpl in HP. inversion HP as [|x xs Hx Hxs]; subst x xs.
  constructor; [eauto|]. eapply IH; eauto.
Qed.

(** X13: when the evaluation returns a mean absolute error, the error is
    not negative, the held-out set is not empty, there is one prediction
    per held-out row, and every held-out target and every prediction goes
    back through [exp] to a finite price.  One row whose logarithm is NaN
    (a negative price) or infinite therefore makes step 16 raise instead
    of reporting an error. *)
Theorem evaluation_reports_finite_error (booster : Type)
    (xgb_predict : booster -> matrix -> list lval)
    (Xt : DataFrame) (y_test : Series) (s s' : store booster) (mae : R) :
  step16 xgb_predict Xt y_test s = Ok (mae, s') ->
  (0 <= mae)%R /\ y_test <> []
  /\ Forall (fun c => exists y, log_value c = Ok y /\ is_finite (np_exp y)) y_test
  /\ exists p, model_predict xgb_predict Xt s = Ok (p, s')
               /\ List.length p = List.length y_test
               /\ Forall (fun y => is_finite (np_exp y)) p.
Proof.
  intros H. unfold step16 in H.
  apply bind_ok in H. destruct H as ([p s1] & Hp & H).
  apply bind_ok in H. destruct H as (yt & Hyt & H).
  apply bind_ok in H. destruct H as (e & He & H). injection H as <- <-.
  apply mean_absolute_error_inv in He. destruct He as (H0 & Hne & Hlen & Ha & Hb).
  simpl in *. split; [exact H0|]. split.
  - intros ->. simpl in Hyt. injection Hyt as <-. apply Hne. reflexivity.
  - split.
    + eapply mapM_map_Forall; eauto.
    + exists p. split; [exact Hp|]. split.
      * rewrite !length_map in Hlen. rewrite (mapM_length _ _ Hyt) in Hlen. exact Hlen.
      * rewrite Forall_map in Hb. exact Hb.
Qed.

Definition echo (b : unit) (m : matrix) : list lval := [LFin 13%R; LFin 12%R].

Lemma evaluation_reports_finite_error_witness :
  exists mae s',
    step16 echo [] [Log (LFin 13%R); Log (LFin 11%R)]
      (Store (Some (Fitted [] [])) (Some tt) []) = Ok (mae, s')
    /\ (0 <= mae)%R.
Proof.
  do 2 eexists. split; [reflexivity|].
  exact (proj1 (@evaluation_reports_finite_error unit echo []
                  [Log (LFin 13%R); Log (LFin 11%R)]
                  (Store (Some (Fitted [] [])) (Some tt) []) _ _ eq_refl)).
Defined.

End EvaluationFacts.
